(** * simpleprojex: the formula evaluator and the cost aggregation of the
      proposal wizard

    Shallow embedding of
    - [src/lib/formula-evaluator.ts] ([evaluateFormula]),
    - the proposal page component ([calculateElementCosts] and the
      [handle...] state transitions),
    - [trades-tab.tsx] ([calculateTotalCost], the tab's own state, its
      handlers and its subtotals), and
    - [proposal-details-tab.tsx] ([handlePhoneInput]),
    followed by the properties of the specification that concern them and
    by further properties of the code.

    JavaScript numbers are IEEE-754 binary64 values; they are modelled by
    Rocq's primitive floats, whose operations are the same ones.  Strings are
    sequences of code units, modelled as lists of [ascii]. *)

From Stdlib Require Import Bool Ascii String List ZArith Lia Floats Permutation.
Import ListNotations.

Set Implicit Arguments.

(* ------------------------------------------------------------------ *)
(** * Text *)

Definition text := list ascii.

Definition chars (s : string) : text := list_ascii_of_string s.

Definition inRange (lo hi c : ascii) : bool :=
  ((lo <=? c)%char && (c <=? hi)%char)%bool.

Definition isDigit (c : ascii) : bool := inRange "0" "9" c.

(** [[a-zA-Z_]] *)
Definition isIdentStart (c : ascii) : bool :=
  inRange "a" "z" c || inRange "A" "Z" c || (c =? "_")%char.

(** [[a-zA-Z0-9_]], the class [\w] and the class that decides [\b]. *)
Definition isWordChar (c : ascii) : bool := isIdentStart c || isDigit c.

Definition text_eq_dec : forall a b : text, {a = b} + {a <> b} :=
  list_eq_dec ascii_dec.

Definition text_eqb (a b : text) : bool :=
  if text_eq_dec a b then true else false.

(** [prefix p s] is [Some rest] when [s = p ++ rest]. *)
Fixpoint prefix (p s : text) : option text :=
  match p, s with
  | [], _ => Some s
  | _ :: _, [] => None
  | a :: p', b :: s' => if (a =? b)%char then prefix p' s' else None
  end.

(* ------------------------------------------------------------------ *)
(** * Numbers and their decimal text *)

Module Num.

Open Scope Z_scope.

Definition digitVal (c : ascii) : Z := Z.of_N (N_of_ascii c) - 48.

Definition digitChar (d : Z) : ascii := ascii_of_N (Z.to_N (d + 48)).

(** Value of a run of decimal digits, most significant first. *)
Definition digitsVal (ds : text) : Z :=
  fold_left (fun acc c => 10 * acc + digitVal c) ds 0.

(** Decimal digits of a non-negative integer, most significant first;
    [fuel] bounds the number of digits produced. *)
Fixpoint digitsOf (fuel : nat) (n : Z) (acc : text) : text :=
  match fuel with
  | O => acc
  | S fuel' =>
      let acc' := digitChar (n mod 10) :: acc in
      if n <? 10 then acc' else digitsOf fuel' (n / 10) acc'
  end.

Definition decimal (n : Z) : text :=
  digitsOf (S (Z.to_nat (Z.log2 n))) n [].

(** The binary64 value nearest to the positive rational [p / q], ties to
    even: the rounding of a decimal literal and of the arithmetic
    operations. *)
Definition roundRatio (p q : Z) : float :=
  if p <=? 0 then 0%float
  else
    let e0 := Z.max (Z.log2 p - Z.log2 q - 53) (-1074) in
    let scaled e := if 0 <=? e then (p, q * 2 ^ e) else (p * 2 ^ (- e), q) in
    let e :=
      let (n, d) := scaled e0 in
      if n / d <? 2 ^ 53 then e0 else e0 + 1 in
    let e :=
      let (n, d) := scaled e in
      if n / d <? 2 ^ 53 then e else e + 1 in
    let (n, d) := scaled e in
    let m := n / d in
    let r := n mod d in
    let m' :=
      match 2 * r ?= d with
      | Lt => m
      | Gt => m + 1
      | Eq => if Z.even m then m else m + 1
      end in
    if 1024 <? Z.log2 m' + 1 + e then infinity
    else Z.ldexp (of_uint63 (Uint63.of_Z m')) e.

(** Value of the decimal literal with digit string [mant] (read as an
    integer) scaled by [10 ^ exp10]. *)
Definition decimalToFloat (mant : Z) (exp10 : Z) : float :=
  if 0 <=? exp10 then roundRatio (mant * 10 ^ exp10) 1
  else roundRatio mant (10 ^ (- exp10)).

(** A positive finite float as an exact fraction [(p, q)]. *)
Definition toRatio (x : float) : Z * Z :=
  match Prim2SF x with
  | S754_finite _ m e =>
      if 0 <=? e then (Zpos m * 2 ^ e, 1) else (Zpos m, 2 ^ (- e))
  | _ => (0, 1)
  end.

(** [decimalExponent p q] is the [n] with [10^(n-1) <= p/q < 10^n]. *)
Fixpoint searchUp (fuel : nat) (p q n : Z) : Z :=
  match fuel with
  | O => n
  | S fuel' => if p <? q * 10 ^ n then n else searchUp fuel' p q (n + 1)
  end.

Fixpoint searchDown (fuel : nat) (p q n : Z) : Z :=
  match fuel with
  | O => n
  | S fuel' =>
      if q <=? p * 10 ^ (1 - n) then n else searchDown fuel' p q (n - 1)
  end.

Definition decimalExponent (p q : Z) : Z :=
  if q <=? p then searchUp 400 p q 1 else searchDown 400 p q 0.

(** The candidates with [k] digits: [s * 10^(n-k)] for the two integers
    [s] around [x / 10^(n-k)]; the result is the one that reads back as
    [x], the closer to [x] when both do (the even one on a tie). *)
Definition candidate (x : float) (p q n k : Z) : option (Z * Z) :=
  let sc := n - k in
  let (num, den) :=
    if 0 <=? sc then (p, q * 10 ^ sc) else (p * 10 ^ (- sc), q) in
  let lo := num / den in
  let hi := lo + 1 in
  let r := num mod den in
  let ok s := (10 ^ (k - 1) <=? s) && (s <=? 10 ^ k)
              && (decimalToFloat s sc =? x)%float in
  let norm s := if s =? 10 ^ k then (10 ^ (k - 1), n + 1) else (s, n) in
  match ok lo, ok hi with
  | true, false => Some (norm lo)
  | false, true => Some (norm hi)
  | false, false => None
  | true, true =>
      match 2 * r ?= den with
      | Lt => Some (norm lo)
      | Gt => Some (norm hi)
      | Eq => Some (norm (if Z.even lo then lo else hi))
      end
  end.

(** The candidate with the fewest digits.  Seventeen digits identify a
    binary64 number, so the search ends before the fuel does. *)
Fixpoint shortest (fuel : nat) (x : float) (p q n k : Z) : Z * Z :=
  match fuel with
  | O => (1, n)
  | S fuel' =>
      match candidate x p q n k with
      | Some r => r
      | None => shortest fuel' x p q n (k + 1)
      end
  end.

Definition zeros (n : Z) : text := repeat "0"%char (Z.to_nat n).

(** The layout of Number::toString for the digits [ds] of [s] and the
    decimal exponent [n]. *)
Definition layout (ds : text) (n : Z) : text :=
  let k := Z.of_nat (length ds) in
  if (k <=? n) && (n <=? 21) then ds ++ zeros (n - k)
  else if (0 <? n) && (n <=? 21) then
    firstn (Z.to_nat n) ds ++ "."%char :: skipn (Z.to_nat n) ds
  else if (-6 <? n) && (n <=? 0) then
    "0"%char :: "."%char :: zeros (- n) ++ ds
  else
    let e := n - 1 in
    let sign := if 0 <=? e then "+"%char else "-"%char in
    let expo := "e"%char :: sign :: decimal (Z.abs e) in
    match ds with
    | [] => expo
    | [d] => d :: expo
    | d :: rest => d :: "."%char :: rest ++ expo
    end.

(** The digits and the decimal exponent of a positive finite number, laid
    out. *)
Definition digitsText (x : float) : text :=
  let (p, q) := toRatio x in
  let n := decimalExponent p q in
  let (s, n') := shortest 17 x p q n 1 in
  layout (decimal s) n'.

(** Number::toString(x) in radix 10. *)
Definition toString (x : float) : text :=
  if is_nan x then chars "NaN"
  else if is_zero x then chars "0"
  else
    let sign := if (x <? 0)%float then ["-"%char] else [] in
    if is_infinity x then sign ++ chars "Infinity"
    else sign ++ digitsText (abs x).

End Num.

(* ------------------------------------------------------------------ *)
(** * Completions and values of the host language *)

(** A computation either completes with a value or throws. *)
Inductive completion (A : Type) : Type :=
| Normal (a : A)
| Throw.

Arguments Normal {A} a.
Arguments Throw {A}.

Definition bind {A B} (c : completion A) (k : A -> completion B)
  : completion B :=
  match c with
  | Normal a => k a
  | Throw => Throw
  end.

(** What [new Function(...)()] can return, as far as [isNaN] and [Number]
    can tell: [undefined], a number, or a value of another type together
    with the outcome of converting it to a number.  [isNaN(result)] and
    [Number(result)] convert the value one after the other; [VOther]
    stands for a value that converts the same way both times (a string, a
    boolean, an object whose [valueOf] is a function of the object alone).
    The arithmetic fragment only yields [VUndefined] and [VNumber]. *)
Inductive value : Type :=
| VUndefined
| VNumber (n : float)
| VOther (toNumber : completion float).

Definition ToNumber (v : value) : completion float :=
  match v with
  | VUndefined => Normal nan
  | VNumber n => Normal n
  | VOther c => c
  end.

Definition isNaN (v : value) : completion bool :=
  bind (ToNumber v) (fun n => Normal (is_nan n)).

Definition Number (v : value) : completion float := ToNumber v.

(** [formula: string | undefined | null] *)
Inductive maybeText : Type :=
| Undefined
| Null
| Str (s : text).

(** [!formula] *)
Definition falsy (f : maybeText) : bool :=
  match f with
  | Str (_ :: _) => false
  | _ => true
  end.

(** [value: string | number] of a parameter, and its [toString()]. *)
Inductive paramValue : Type :=
| NumberValue (n : float)
| StringValue (s : text).

Definition valueToString (v : paramValue) : text :=
  match v with
  | NumberValue n => Num.toString n
  | StringValue s => s
  end.

(** The source's [Parameter] ([{ id, name, value, type }]). *)
Record Param : Type := {
  param_id : Z;
  param_name : text;
  param_value : paramValue;
  param_type : text
}.

(* ------------------------------------------------------------------ *)
(** * The two regular expressions *)

Module RegExp.

(** [\b] between a position whose previous character is a word
    character iff [prevW], and the text [s] that follows. *)
Definition boundary (prevW : bool) (s : text) : bool :=
  xorb prevW (match s with c :: _ => isWordChar c | [] => false end).

(** Whether the character before the end of a match of [name] that
    started after a character of class [prevW] is a word character. *)
Definition endsInWord (prevW : bool) (name : text) : bool :=
  match rev name with
  | c :: _ => isWordChar c
  | [] => prevW
  end.

(** [\bNAME\b] matched at the head of [s], for a [name] without pattern
    syntax: the text after the match. *)
Definition matchAt (name : text) (prevW : bool) (s : text) : option text :=
  if boundary prevW s then
    match prefix name s with
    | Some rest => if boundary (endsInWord prevW name) rest then Some rest
                   else None
    | None => None
    end
  else None.

(** The characters with a meaning in a pattern. *)
Definition isSyntaxChar (c : ascii) : bool :=
  existsb (Ascii.eqb c) (chars "\^$.|?*+()[]{}").

Definition isLiteralPattern (name : text) : bool :=
  forallb (fun c => negb (isSyntaxChar c)) name.

(** GetSubstitution for a pattern without capture groups: [$$], [$&],
    [$`] and [$'] are expanded, every other character stands for
    itself. *)
Fixpoint getSubstitution (matched before after repl : text) : text :=
  match repl with
  | [] => []
  | c :: r =>
      if (c =? "$")%char then
        match r with
        | d :: r' =>
            if (d =? "$")%char then
              "$"%char :: getSubstitution matched before after r'
            else if (d =? "&")%char then
              matched ++ getSubstitution matched before after r'
            else if (d =? "`")%char then
              before ++ getSubstitution matched before after r'
            else if (d =? "'")%char then
              after ++ getSubstitution matched before after r'
            else c :: getSubstitution matched before after r
        | [] => [c]
        end
      else c :: getSubstitution matched before after r
  end.

(** [s.replace(/\bNAME\b/g, repl)], scanning left to right.  [skip]
    counts the characters of the current match still to pass over,
    [before] is the text already passed (reversed) and [prevW] the class
    of its last character. *)
Fixpoint replaceFrom (name repl : text) (skip : nat) (before : text)
         (prevW : bool) (s : text) : text :=
  match s with
  | [] =>
      match skip, matchAt name prevW [] with
      | O, Some rest => getSubstitution name (rev before) rest repl
      | _, _ => []
      end
  | c :: s' =>
      match skip with
      | S k => replaceFrom name repl k (c :: before) (isWordChar c) s'
      | O =>
          match matchAt name prevW s with
          | Some rest =>
              getSubstitution name (rev before) rest repl ++
              match name with
              | [] => c :: replaceFrom name repl 0 (c :: before)
                                       (isWordChar c) s'
              | _ :: name' =>
                  replaceFrom name repl (length name') (c :: before)
                              (isWordChar c) s'
              end
          | None =>
              c :: replaceFrom name repl 0 (c :: before) (isWordChar c) s'
          end
      end
  end.

Definition replaceAll (name repl s : text) : text :=
  replaceFrom name repl 0 [] false s.

(** The longest run of word characters at the head of [s]. *)
Fixpoint wordRun (s : text) : text :=
  match s with
  | c :: s' => if isWordChar c then c :: wordRun s' else []
  | [] => []
  end.

(** [s.match(/\b[a-zA-Z_][a-zA-Z0-9_]*\b/g)]: the matches in order; the
    empty list stands for [null].  A match starts at a letter or
    underscore that follows no word character and extends over the whole
    run of word characters; no match starts inside a run. *)
Fixpoint matchIdentifiers (prevW : bool) (s : text) : list text :=
  match s with
  | [] => []
  | c :: s' =>
      if negb prevW && isIdentStart c
      then (c :: wordRun s') :: matchIdentifiers (isWordChar c) s'
      else matchIdentifiers (isWordChar c) s'
  end.

End RegExp.

(* ------------------------------------------------------------------ *)
(** * The arithmetic fragment of the host's expression language *)

Module Arith.

Inductive token : Type :=
| TNum (v : float)
| TPlus | TMinus | TStar | TSlash
| TLParen | TRParen
| TIncr | TDecr | TPow.

Inductive expr : Type :=
| ENum (v : float)
| EPos (e : expr)
| ENeg (e : expr)
| EAdd (a b : expr)
| ESub (a b : expr)
| EMul (a b : expr)
| EDiv (a b : expr).

Fixpoint eval (e : expr) : float :=
  match e with
  | ENum v => v
  | EPos a => eval a
  | ENeg a => (- eval a)%float
  | EAdd a b => (eval a + eval b)%float
  | ESub a b => (eval a - eval b)%float
  | EMul a b => (eval a * eval b)%float
  | EDiv a b => (eval a / eval b)%float
  end.

(** The longest prefix of [s] whose characters satisfy [p], and the
    rest. *)
Fixpoint span (p : ascii -> bool) (s : text) : text * text :=
  match s with
  | c :: s' =>
      if p c then let (a, b) := span p s' in (c :: a, b) else ([], s)
  | [] => ([], [])
  end.

Definition isExponentMark (c : ascii) : bool :=
  (c =? "e")%char || (c =? "E")%char.

(** The exponent part [e[+-]?digits] at the head of [s], if any: its
    value and the rest.  [None] when an exponent mark is there without
    its digits. *)
Definition lexExponent (s : text) : option (Z * text) :=
  match s with
  | c :: r =>
      if isExponentMark c then
        let (neg, r1) :=
          match r with
          | d :: r' =>
              if (d =? "-")%char then (true, r')
              else if (d =? "+")%char then (false, r')
              else (false, r)
          | [] => (false, r)
          end in
        let (ds, r2) := span isDigit r1 in
        match ds with
        | [] => None
        | _ :: _ =>
            let e := Num.digitsVal ds in
            Some (if neg then (- e)%Z else e, r2)
        end
      else Some (0%Z, s)
  | [] => Some (0%Z, s)
  end.

(** The fraction [.digits] at the head of [r1], if any: its digits and the
    rest. *)
Definition lexFraction (r1 : text) : text * text :=
  match r1 with
  | c :: r => if (c =? ".")%char then span isDigit r else ([], r1)
  | [] => ([], r1)
  end.

Definition leadingZero (ip : text) : bool :=
  match ip with
  | z :: _ :: _ => (z =? "0")%char
  | _ => false
  end.

(** The literal with integer digits [ip] and fraction digits [fp], followed
    by [r2], where its exponent is looked for. *)
Definition literalOf (ip fp r2 : text) : option (float * text) :=
  match ip ++ fp with
  | [] => None
  | _ :: _ =>
      if leadingZero ip then None
      else
        match lexExponent r2 with
        | Some (e, r3) =>
            Some (Num.decimalToFloat (Num.digitsVal (ip ++ fp))
                                     (e - Z.of_nat (length fp)), r3)
        | None => None
        end
  end.

(** A decimal literal at the head of [s]: digits, an optional fraction
    and an optional exponent.  [None] for what is not such a literal and
    for an integer part with a leading zero (a legacy octal literal). *)
Definition lexNumber (s : text) : option (float * text) :=
  let (ip, r1) := span isDigit s in
  let (fp, r2) := lexFraction r1 in
  literalOf ip fp r2.

Definition isBlank (c : ascii) : bool :=
  (c =? " ")%char || (c =? "009")%char.

(** The token at the head of [c :: r], for [c] that is no blank, and the
    rest; [None] when no token of the fragment starts there. *)
Definition nextToken (c : ascii) (r : text) : option (token * text) :=
  if isDigit c || (c =? ".")%char then
    match lexNumber (c :: r) with
    | Some (v, r') => Some (TNum v, r')
    | None => None
    end
  else if (c =? "+")%char then
    match r with
    | d :: r' => if (d =? "+")%char then Some (TIncr, r') else Some (TPlus, r)
    | [] => Some (TPlus, r)
    end
  else if (c =? "-")%char then
    match r with
    | d :: r' => if (d =? "-")%char then Some (TDecr, r') else Some (TMinus, r)
    | [] => Some (TMinus, r)
    end
  else if (c =? "*")%char then
    match r with
    | d :: r' => if (d =? "*")%char then Some (TPow, r') else Some (TStar, r)
    | [] => Some (TStar, r)
    end
  else if (c =? "/")%char then Some (TSlash, r)
  else if (c =? "(")%char then Some (TLParen, r)
  else if (c =? ")")%char then Some (TRParen, r)
  else None.

(** Tokens of [s]; [None] when [s] has a character or a literal outside
    the fragment.  Every token takes at least one character, so a fuel
    above the length of [s] is never used up. *)
Fixpoint lexFrom (fuel : nat) (s : text) : option (list token) :=
  match fuel with
  | O => match s with [] => Some [] | _ :: _ => None end
  | S fuel' =>
      match s with
      | [] => Some []
      | c :: r =>
          if isBlank c then lexFrom fuel' r
          else
            match nextToken c r with
            | Some (t, r') =>
                if Nat.leb (length r') (length r)
                then option_map (cons t) (lexFrom fuel' r')
                else None
            | None => None
            end
      end
  end.

Definition lex (s : text) : option (list token) :=
  lexFrom (S (length s)) s.

(** Recursive descent over the token list, with the precedence and the
    left associativity of the host language:
    [E ::= T (('+'|'-') T)*], [T ::= U (('*'|'/') U)*],
    [U ::= ('+'|'-') U | P], [P ::= number | '(' E ')']. *)
Fixpoint parseUnary (fuel : nat) (ts : list token)
  : option (expr * list token) :=
  match fuel with
  | O => None
  | S fuel' =>
      match ts with
      | TNum v :: r => Some (ENum v, r)
      | TPlus :: r =>
          match parseUnary fuel' r with
          | Some (e, r') => Some (EPos e, r')
          | None => None
          end
      | TMinus :: r =>
          match parseUnary fuel' r with
          | Some (e, r') => Some (ENeg e, r')
          | None => None
          end
      | TLParen :: r =>
          match parseSum fuel' r with
          | Some (e, TRParen :: r') => Some (e, r')
          | _ => None
          end
      | _ => None
      end
  end
with parseSum (fuel : nat) (ts : list token)
  : option (expr * list token) :=
  match fuel with
  | O => None
  | S fuel' =>
      match parseProduct fuel' ts with
      | Some (e, r) => sumTail fuel' e r
      | None => None
      end
  end
with sumTail (fuel : nat) (acc : expr) (ts : list token)
  : option (expr * list token) :=
  match fuel with
  | O => None
  | S fuel' =>
      match ts with
      | TPlus :: r =>
          match parseProduct fuel' r with
          | Some (e, r') => sumTail fuel' (EAdd acc e) r'
          | None => None
          end
      | TMinus :: r =>
          match parseProduct fuel' r with
          | Some (e, r') => sumTail fuel' (ESub acc e) r'
          | None => None
          end
      | _ => Some (acc, ts)
      end
  end
with parseProduct (fuel : nat) (ts : list token)
  : option (expr * list token) :=
  match fuel with
  | O => None
  | S fuel' =>
      match parseUnary fuel' ts with
      | Some (e, r) => productTail fuel' e r
      | None => None
      end
  end
with productTail (fuel : nat) (acc : expr) (ts : list token)
  : option (expr * list token) :=
  match fuel with
  | O => None
  | S fuel' =>
      match ts with
      | TStar :: r =>
          match parseUnary fuel' r with
          | Some (e, r') => productTail fuel' (EMul acc e) r'
          | None => None
          end
      | TSlash :: r =>
          match parseUnary fuel' r with
          | Some (e, r') => productTail fuel' (EDiv acc e) r'
          | None => None
          end
      | _ => Some (acc, ts)
      end
  end.

Definition parse (ts : list token) : option expr :=
  match parseSum (4 * length ts + 4) ts with
  | Some (e, []) => Some e
  | _ => None
  end.

Definition isTok (t u : token) : bool :=
  match t, u with
  | TSlash, TSlash | TPow, TPow => true
  | _, _ => false
  end.

(** [new Function(`return ${s}`)()] for a text [s] of the fragment:
    - no token: [return;] gives [undefined];
    - a well-formed expression: its value;
    - otherwise a tokens sequence without [/] and [**] is rejected by the
      host as well (a [++] or [--] has no operand it could apply to, a
      misplaced parenthesis or operator is a syntax error, a number
      applied to an argument is a type error).
    [None] where the development does not decide: characters outside the
    fragment, [**], and a [/] that may start a comment or a regular
    expression literal. *)
Definition run (s : text) : option (completion value) :=
  match lex s with
  | None => None
  | Some [] => Some (Normal VUndefined)
  | Some ts =>
      if existsb (isTok TPow) ts then None
      else
        match parse ts with
        | Some e => Some (Normal (VNumber (eval e)))
        | None => if existsb (isTok TSlash) ts then None else Some Throw
        end
  end.

(** ** Notions for the facts on the parser *)

Unset Implicit Arguments.

(** A property of the five functions at once: [U], [S] and [P] speak of the
    functions that read an operand, [T] of the two that read what follows
    one. *)
Definition holds (U T : list token -> expr -> list token -> Prop)
           (n : nat) : Prop :=
  (forall ts e rest, parseUnary n ts = Some (e, rest) -> U ts e rest)
  /\ (forall ts e rest, parseProduct n ts = Some (e, rest) -> U ts e rest)
  /\ (forall ts e rest, parseSum n ts = Some (e, rest) -> U ts e rest)
  /\ (forall acc ts e rest, productTail n acc ts = Some (e, rest) ->
                            T ts e rest)
  /\ (forall acc ts e rest, sumTail n acc ts = Some (e, rest) -> T ts e rest).

(** Where operands and operators may follow each other: [after] tells
    whether an operand has just been read. *)
Definition scanStep (after : bool) (t : token) : option bool :=
  match t with
  | TNum _ => if after then None else Some true
  | TLParen => if after then None else Some false
  | TRParen => if after then Some true else None
  | TPlus | TMinus => Some false
  | TStar | TSlash => if after then Some false else None
  | TIncr | TDecr | TPow => None
  end.

Fixpoint scan (after : bool) (ts : list token) : option bool :=
  match ts with
  | [] => Some after
  | t :: r =>
      match scanStep after t with
      | Some a => scan a r
      | None => None
      end
  end.

Definition reads (a : bool) (ts : list token) (rest : list token) : Prop :=
  exists used, ts = used ++ rest /\ scan a used = Some true.

(** [strip ts ts']: [ts'] is [ts] with, at most, one number freed from the
    parentheses that enclose it alone. *)
Inductive strip : list token -> list token -> Prop :=
| strip_here (x : float) (B : list token) :
    strip (TLParen :: TNum x :: TRParen :: B) (TNum x :: B)
| strip_skip (t : token) (A A' : list token) :
    strip A A' -> strip (t :: A) (t :: A')
| strip_same (A : list token) : strip A A.

Definition stripped (n : nat) : Prop :=
  (forall ts ts' e rest, strip ts ts' ->
     parseUnary n ts = Some (e, rest) ->
     exists rest', parseUnary n ts' = Some (e, rest') /\ strip rest rest')
  /\ (forall ts ts' e rest, strip ts ts' ->
        parseProduct n ts = Some (e, rest) ->
        exists rest', parseProduct n ts' = Some (e, rest') /\ strip rest rest')
  /\ (forall ts ts' e rest, strip ts ts' ->
        parseSum n ts = Some (e, rest) ->
        exists rest', parseSum n ts' = Some (e, rest') /\ strip rest rest')
  /\ (forall acc ts ts' e rest, strip ts ts' ->
        productTail n acc ts = Some (e, rest) ->
        exists rest', productTail n acc ts' = Some (e, rest')
                      /\ strip rest rest')
  /\ (forall acc ts ts' e rest, strip ts ts' ->
        sumTail n acc ts = Some (e, rest) ->
        exists rest', sumTail n acc ts' = Some (e, rest') /\ strip rest rest').

(** What a successful call has read bounds the fuel it needs. *)
Definition enough (n : nat) : Prop :=
  (forall ts e rest, parseUnary n ts = Some (e, rest) ->
     (length rest < length ts)%nat
     /\ forall m, (2 * (length ts - length rest) + 1 <= m)%nat ->
                  parseUnary m ts = Some (e, rest))
  /\ (forall ts e rest, parseProduct n ts = Some (e, rest) ->
        (length rest < length ts)%nat
        /\ forall m, (2 * (length ts - length rest) + 2 <= m)%nat ->
                     parseProduct m ts = Some (e, rest))
  /\ (forall ts e rest, parseSum n ts = Some (e, rest) ->
        (length rest < length ts)%nat
        /\ forall m, (2 * (length ts - length rest) + 3 <= m)%nat ->
                     parseSum m ts = Some (e, rest))
  /\ (forall acc ts e rest, productTail n acc ts = Some (e, rest) ->
        (length rest <= length ts)%nat
        /\ forall m, (2 * (length ts - length rest) + 1 <= m)%nat ->
                     productTail m acc ts = Some (e, rest))
  /\ (forall acc ts e rest, sumTail n acc ts = Some (e, rest) ->
        (length rest <= length ts)%nat
        /\ forall m, (2 * (length ts - length rest) + 1 <= m)%nat ->
                     sumTail m acc ts = Some (e, rest)).

Set Implicit Arguments.

End Arith.

(* ------------------------------------------------------------------ *)
(** * [src/lib/formula-evaluator.ts] *)

(** What the host does where this development does not interpret it: a
    regular expression whose source has pattern syntax, and a function body
    outside the arithmetic fragment.  The class describes the calls that
    come back, with a value or with an exception, and that leave [console],
    [isNaN] and [Number] as they found them.  A function body outside the
    arithmetic fragment is JavaScript of any kind (see [loopingFormula]
    below): it may never return, or replace what the rest of the call
    uses, and the class has no outcome for that.  So what is stated below
    for every host is about the calls that come back in this sense; it
    does not say that a call handing the host such a text comes back. *)
Class Host : Type := {
  (** [s.replace(new RegExp(source, 'g'), repl)] *)
  hostReplace : forall (source repl s : text), completion text;
  (** [new Function(`return ${s}`)()] *)
  hostFunction : forall (s : text), completion value
}.

(** What a call does besides returning. *)
Inductive effect : Type :=
| Warn (unresolved : list text)   (* console.warn *)
| LogError                        (* console.error *)
| Evaluate (expression : text).   (* the Function constructor is run *)

Section Evaluator.

Context {host : Host}.

(** [evaluableFormula.replace(new RegExp(`\\b${name}\\b`, 'g'), repl)] *)
Definition replaceParameter (name repl s : text) : completion text :=
  if RegExp.isLiteralPattern name then Normal (RegExp.replaceAll name repl s)
  else hostReplace (chars "\b" ++ name ++ chars "\b") repl s.

(** The [forEach] over the parameters. *)
Definition substituteParameters (formula : text) (parameters : list Param)
  : completion text :=
  fold_left
    (fun acc param =>
       bind acc (replaceParameter (param_name param)
                                  (valueToString (param_value param))))
    parameters (Normal formula).

(** [new Function(`return ${s}`)()] *)
Definition newFunctionReturn (s : text) : completion value :=
  match Arith.run s with
  | Some r => r
  | None => hostFunction s
  end.

(** [isNaN(result) ? 0 : Number(result)] *)
Definition validNumber (result : value) : completion float :=
  bind (isNaN result) (fun b => if b then Normal 0%float else Number result).

(** The body of the [try] block. *)
Definition tryBlock (formula : text) (parameters : list Param)
  : list effect * completion float :=
  match substituteParameters formula parameters with
  | Throw => ([], Throw)
  | Normal evaluableFormula =>
      match RegExp.matchIdentifiers false evaluableFormula with
      | (_ :: _) as remainingParamMatch =>
          ([Warn remainingParamMatch], Normal 0%float)
      | [] =>
          ([Evaluate evaluableFormula],
           bind (newFunctionReturn evaluableFormula) validNumber)
      end
  end.

(** The whole call: what it does and how it completes.  The [catch]
    branch logs with [console.error] and returns 0; the logging is taken
    to complete, as the console of the platform does. *)
Definition evaluateFormula_run (formula : maybeText)
           (parameters : list Param) : list effect * completion float :=
  if falsy formula then ([], Normal 0%float)
  else
    match formula with
    | Str f =>
        match tryBlock f parameters with
        | (log, Normal r) => (log, Normal r)
        | (log, Throw) => (log ++ [LogError], Normal 0%float)
        end
    | _ => ([], Normal 0%float)
    end.

(** The number the call returns. *)
Definition evaluateFormula (formula : maybeText) (parameters : list Param)
  : float :=
  match snd (evaluateFormula_run formula parameters) with
  | Normal r => r
  | Throw => 0%float
  end.

End Evaluator.

(** A host that rejects whatever is left to it. *)
Definition rejectingHost : Host :=
  {| hostReplace := fun _ _ _ => Throw; hostFunction := fun _ => Throw |}.

(** A formula without a letter or an underscore.  The three string
    literals spell [filter], [constructor] and [while(1);] in octal
    escapes, so that as a function body the text reads
    [[]['filter']['constructor']('while(1);')()]: it builds a function
    from the text [while(1);] and calls it. *)
Definition loopingFormula : text :=
  chars "[]['\146\151\154\164\145\162']"
  ++ chars "['\143\157\156\163\164\162\165\143\164\157\162']"
  ++ chars "('\167\150\151\154\145(1);')()".

(* ------------------------------------------------------------------ *)
(** * The proposal page: data *)

(** [a || b] on texts and on numbers. *)
Definition orText (a : maybeText) (b : text) : text :=
  match a with
  | Str ((_ :: _) as s) => s
  | _ => b
  end.

Definition truthy (x : float) : bool := negb (is_zero x || is_nan x).

Definition orNumber (a b : float) : float := if truthy a then a else b.

(** The source's [Module] ([{ id, name, description }]). *)
Record TradeModule : Type := {
  module_id : Z;
  module_name : text;
  module_description : maybeText
}.

Record Element : Type := {
  element_id : Z;
  element_name : text;
  element_description : maybeText;
  element_formula : maybeText;
  element_labor_formula : maybeText
}.

Record ElementWithValues : Type := {
  id : Z;
  element : Element;
  module : TradeModule;
  formula : text;
  labor_formula : text;
  material_cost : float;
  labor_cost : float;
  markup : float;
  name : maybeText
}.

(** An entry of [template.template_elements]; [te_markup] is [None] when
    the template gives none. *)
Record TemplateElement : Type := {
  te_element : Element;
  te_module : TradeModule;
  te_markup : option float
}.

Record Template : Type := {
  template_id : Z;
  template_modules : list TradeModule;
  template_parameters : list Param;
  template_elements : list TemplateElement
}.

(** The component's state ([useState]). *)
Record State : Type := {
  selectedTemplate : option Template;
  selectedModules : list TradeModule;
  customModules : list TradeModule;
  selectedParameters : list Param;
  selectedElements : list ElementWithValues;
  useGlobalMarkup : bool;
  globalMarkupPercentage : float
}.

Definition initialState : State := {|
  selectedTemplate := None;
  selectedModules := [];
  customModules := [];
  selectedParameters := [];
  selectedElements := [];
  useGlobalMarkup := false;
  globalMarkupPercentage := 10%float
|}.

Definition setSelectedElements (st : State) (es : list ElementWithValues)
  : State := {|
  selectedTemplate := selectedTemplate st;
  selectedModules := selectedModules st;
  customModules := customModules st;
  selectedParameters := selectedParameters st;
  selectedElements := es;
  useGlobalMarkup := useGlobalMarkup st;
  globalMarkupPercentage := globalMarkupPercentage st
|}.

Definition setSelectedModules (st : State) (ms : list TradeModule)
  : State := {|
  selectedTemplate := selectedTemplate st;
  selectedModules := ms;
  customModules := customModules st;
  selectedParameters := selectedParameters st;
  selectedElements := selectedElements st;
  useGlobalMarkup := useGlobalMarkup st;
  globalMarkupPercentage := globalMarkupPercentage st
|}.

Definition setSelectedParameters (st : State) (ps : list Param)
  : State := {|
  selectedTemplate := selectedTemplate st;
  selectedModules := selectedModules st;
  customModules := customModules st;
  selectedParameters := ps;
  selectedElements := selectedElements st;
  useGlobalMarkup := useGlobalMarkup st;
  globalMarkupPercentage := globalMarkupPercentage st
|}.

(** [e.element.id === elementId && e.module.id === moduleId] *)
Definition samePair (elementId moduleId : Z) (e : ElementWithValues) : bool :=
  (element_id (element e) =? elementId)%Z && (module_id (module e) =? moduleId)%Z.

(* ------------------------------------------------------------------ *)
(** * The proposal page: handlers *)

Section Handlers.

Context {host : Host}.

(** [el.formula || el.element.formula || ""] and its labor counterpart:
    the formula that prices the element. *)
Definition materialFormula (el : ElementWithValues) : text :=
  orText (Str (formula el)) (orText (element_formula (element el)) []).

Definition laborFormula (el : ElementWithValues) : text :=
  orText (Str (labor_formula el))
         (orText (element_labor_formula (element el)) []).

Definition calculateElementCosts (elements : list ElementWithValues)
           (parameters : list Param) : list ElementWithValues :=
  map (fun el =>
         let materialCost :=
           evaluateFormula (Str (materialFormula el)) parameters in
         let laborCost :=
           evaluateFormula (Str (laborFormula el)) parameters in
         {| id := id el;
            element := element el;
            module := module el;
            formula := formula el;
            labor_formula := labor_formula el;
            material_cost := materialCost;
            labor_cost := laborCost;
            markup := markup el;
            name := Str (orText (Str (element_name (element el))) []) |})
      elements.

(** The stored copy of the template keeps its elements with the markup
    defaulted; its image and the cost fields of its own elements, which
    nothing below reads, are not represented. *)
Definition sanitizedTemplate (template : Template) : Template := {|
  template_id := template_id template;
  template_modules := template_modules template;
  template_parameters := template_parameters template;
  template_elements :=
    map (fun te =>
           {| te_element := te_element te;
              te_module := te_module te;
              te_markup :=
                Some (match te_markup te with
                      | Some m => orNumber m 10%float
                      | None => 10%float
                      end) |})
        (template_elements template)
|}.

Definition handleTemplateSelect (st : State) (template : Template) : State :=
  let templateElements := template_elements template in
  let parametersList := template_parameters template in
  let elementsFromTemplate :=
    map (fun templateElement =>
           {| id := element_id (te_element templateElement);
              element := te_element templateElement;
              module := te_module templateElement;
              formula := orText (element_formula (te_element templateElement)) [];
              labor_formula :=
                orText (element_labor_formula (te_element templateElement)) [];
              material_cost := 0%float;
              labor_cost := 0%float;
              markup := match te_markup templateElement with
                        | Some m => orNumber m 10%float
                        | None => 10%float
                        end;
              name := Undefined |})
        templateElements in
  let elementsFromTemplate :=
    calculateElementCosts elementsFromTemplate parametersList in
  {| selectedTemplate := Some (sanitizedTemplate template);
     selectedModules := template_modules template;
     customModules := customModules st;
     selectedParameters := parametersList;
     selectedElements := elementsFromTemplate;
     useGlobalMarkup := useGlobalMarkup st;
     globalMarkupPercentage := globalMarkupPercentage st |}.

Definition handleModuleToggle (st : State) (m : TradeModule) : State :=
  let prev := selectedModules st in
  match find (fun x => (module_id x =? module_id m)%Z) prev with
  | Some _ =>
      let st' :=
        setSelectedElements st
          (filter (fun el => negb (module_id (module el) =? module_id m)%Z)
                  (selectedElements st)) in
      setSelectedModules st'
        (filter (fun x => negb (module_id x =? module_id m)%Z) prev)
  | None => setSelectedModules st (prev ++ [m])
  end.

Definition handleAddCustomModule (st : State) (newModule : TradeModule)
  : State :=
  let st' :=
    if existsb (fun x => (module_id x =? module_id newModule)%Z)
               (customModules st)
    then st
    else {| selectedTemplate := selectedTemplate st;
            selectedModules := selectedModules st;
            customModules := customModules st ++ [newModule];
            selectedParameters := selectedParameters st;
            selectedElements := selectedElements st;
            useGlobalMarkup := useGlobalMarkup st;
            globalMarkupPercentage := globalMarkupPercentage st |} in
  handleModuleToggle st' newModule.

Definition withValue (param : Param) (v : paramValue) : Param := {|
  param_id := param_id param;
  param_name := param_name param;
  param_value := v;
  param_type := param_type param
|}.

Definition handleParameterValueUpdate (st : State) (parameterId : Z)
           (v : paramValue) : State :=
  let newParameters :=
    map (fun param =>
           if (param_id param =? parameterId)%Z then withValue param v
           else param)
        (selectedParameters st) in
  let updatedElements :=
    calculateElementCosts (selectedElements st) newParameters in
  setSelectedElements (setSelectedParameters st newParameters)
                      updatedElements.

(** [now] is the value of [Date.now()] at the call. *)
Definition handleElementToggle (st : State) (now : Z) (el : Element)
           (m : TradeModule) : State :=
  let prev := selectedElements st in
  match find (samePair (element_id el) (module_id m)) prev with
  | Some _ =>
      setSelectedElements st
        (filter (fun e => negb (samePair (element_id el) (module_id m) e))
                prev)
  | None =>
      let safeElement := {|
        element_id := element_id el;
        element_name := element_name el;
        element_description := Str (orText (element_description el) []);
        element_formula := element_formula el;
        element_labor_formula := element_labor_formula el |} in
      let newFormula := orText (element_formula el) [] in
      let newLaborFormula := orText (element_labor_formula el) [] in
      let materialCost :=
        evaluateFormula (Str newFormula) (selectedParameters st) in
      let laborCost :=
        evaluateFormula (Str newLaborFormula) (selectedParameters st) in
      setSelectedElements st
        (prev ++ [{| id := now;
                     element := safeElement;
                     module := m;
                     formula := newFormula;
                     labor_formula := newLaborFormula;
                     material_cost := materialCost;
                     labor_cost := laborCost;
                     markup := 10%float;
                     name := Undefined |}])
  end.

(** The keys of an instance that hold its id, its element definition, its
    module or its name. *)
Definition structuralKey (field : text) : bool :=
  text_eqb field (chars "id") || text_eqb field (chars "element")
  || text_eqb field (chars "module") || text_eqb field (chars "name").

(** [{ ...e, [field]: value, ...(formula), ...(labor_formula) }]: the
    computed key sets the number [value] on the field it names, and the
    two formula fields are then overwritten by the text [newFormula].  The
    fields written here are the formulas, the costs and the markup.  The
    source writes the number on any key: on a [structuralKey] it replaces
    the id, the element definition, the module or the name by the number,
    which this record cannot hold, so the definition says what the source
    does only for the other keys (the callers in the page pass [formula],
    [labor_formula] and [markup]); the statements about
    [handleElementValueUpdate] that depend on the element, the module or
    the id of an instance assume [keepsShape]. *)
Definition setField (e : ElementWithValues) (field newFormula : text)
           (v : float) : ElementWithValues := {|
  id := id e;
  element := element e;
  module := module e;
  formula := if text_eqb field (chars "formula") then newFormula
             else formula e;
  labor_formula := if text_eqb field (chars "labor_formula") then newFormula
                   else labor_formula e;
  material_cost := if text_eqb field (chars "material_cost") then v
                   else material_cost e;
  labor_cost := if text_eqb field (chars "labor_cost") then v
                else labor_cost e;
  markup := if text_eqb field (chars "markup") then v else markup e;
  name := name e
|}.

Definition handleElementValueUpdate (st : State) (elementId : Z)
           (m : TradeModule) (field newFormula : text) (v : float) : State :=
  let newElements :=
    map (fun e => if samePair elementId (module_id m) e
                  then setField e field newFormula v else e)
        (selectedElements st) in
  if text_eqb field (chars "formula")
     || text_eqb field (chars "labor_formula")
  then setSelectedElements st
         (calculateElementCosts newElements (selectedParameters st))
  else setSelectedElements st newElements.

Definition handleGlobalMarkupChange (st : State) (isUse : bool)
           (percentage : float) : State := {|
  selectedTemplate := selectedTemplate st;
  selectedModules := selectedModules st;
  customModules := customModules st;
  selectedParameters := selectedParameters st;
  selectedElements := selectedElements st;
  useGlobalMarkup := isUse;
  globalMarkupPercentage := percentage
|}.

Definition handleParameterToggle (st : State) (parameter : Param) : State :=
  let prev := selectedParameters st in
  let newParameters :=
    match find (fun p => (param_id p =? param_id parameter)%Z) prev with
    | Some _ =>
        filter (fun p => negb (param_id p =? param_id parameter)%Z) prev
    | None => prev ++ [parameter]
    end in
  let updatedElements :=
    calculateElementCosts (selectedElements st) newParameters in
  setSelectedParameters (setSelectedElements st updatedElements)
                        newParameters.

End Handlers.

(* ------------------------------------------------------------------ *)
(** * [trades-tab.tsx]: the grand total *)

Definition calculateTotalCost (selectedElements : list ElementWithValues)
           (useGlobalMarkup : bool) (globalMarkup : float) : float :=
  fold_left
    (fun total element =>
       let materialCost := material_cost element in
       let laborCost := labor_cost element in
       let markup := if useGlobalMarkup then globalMarkup
                     else orNumber (markup element) 10 in
       let subtotal := ((materialCost + laborCost) * (1 + markup / 100))%float in
       (total + subtotal)%float)
    selectedElements 0%float.

(* ------------------------------------------------------------------ *)
(** * Vocabulary of the properties *)

Definition parameter (n : string) (v : paramValue) : Param :=
  {| param_id := 0; param_name := chars n; param_value := v;
     param_type := chars "number" |}.

(** The total as the specification words it: the sum, element after
    element, of [(material + labor) * (1 + effective markup / 100)], the
    effective markup being the global percentage under the override and the
    element's own markup otherwise. *)
Definition sumOf (l : list float) : float :=
  fold_left (fun total x => (total + x)%float) l 0%float.

Definition effectiveMarkup_spec (enabled : bool) (percentage : float)
           (e : ElementWithValues) : float :=
  if enabled then percentage else markup e.

Definition elementTotal_spec (enabled : bool) (percentage : float)
           (e : ElementWithValues) : float :=
  ((material_cost e + labor_cost e)
   * (1 + effectiveMarkup_spec enabled percentage e / 100))%float.

Definition grandTotal_spec (enabled : bool) (percentage : float)
           (es : list ElementWithValues) : float :=
  sumOf (map (elementTotal_spec enabled percentage) es).

(** The same with the fallback of the code: an own markup of 0 (or NaN)
    counts as 10. *)
Definition effectiveMarkup (enabled : bool) (percentage : float)
           (e : ElementWithValues) : float :=
  if enabled then percentage
  else if truthy (markup e) then markup e else 10%float.

Definition elementTotal (enabled : bool) (percentage : float)
           (e : ElementWithValues) : float :=
  ((material_cost e + labor_cost e)
   * (1 + effectiveMarkup enabled percentage e / 100))%float.

Definition someElement : Element :=
  {| element_id := 1; element_name := chars "e";
     element_description := Undefined;
     element_formula := Undefined; element_labor_formula := Undefined |}.

Definition someModule : TradeModule :=
  {| module_id := 1; module_name := chars "m";
     module_description := Undefined |}.

Definition priced (material labor own : float) : ElementWithValues :=
  {| id := 0; element := someElement; module := someModule;
     formula := []; labor_formula := [];
     material_cost := material; labor_cost := labor; markup := own;
     name := Undefined |}.

(** The user's actions, one per handler. *)
Inductive action : Type :=
| TemplateSelect (template : Template)
| ModuleToggle (m : TradeModule)
| AddCustomModule (m : TradeModule)
| ParameterValueUpdate (parameterId : Z) (v : paramValue)
| ParameterToggle (p : Param)
| ElementToggle (now : Z) (el : Element) (m : TradeModule)
| ElementValueUpdate (elementId : Z) (m : TradeModule)
                     (field newFormula : text) (v : float)
| GlobalMarkupChange (isUse : bool) (percentage : float).

Definition perform {host : Host} (st : State) (a : action) : State :=
  match a with
  | TemplateSelect t => handleTemplateSelect st t
  | ModuleToggle m => handleModuleToggle st m
  | AddCustomModule m => handleAddCustomModule st m
  | ParameterValueUpdate i v => handleParameterValueUpdate st i v
  | ParameterToggle p => handleParameterToggle st p
  | ElementToggle now el m => handleElementToggle st now el m
  | ElementValueUpdate i m field f v =>
      handleElementValueUpdate st i m field f v
  | GlobalMarkupChange u p => handleGlobalMarkupChange st u p
  end.

(** The (elementId, moduleId) pair of a priced element and of a template
    entry. *)
Definition pairOf (e : ElementWithValues) : Z * Z :=
  (element_id (element e), module_id (module e)).

Definition templatePairOf (te : TemplateElement) : Z * Z :=
  (element_id (te_element te), module_id (te_module te)).

Definition uniquePairs (es : list ElementWithValues) : Prop :=
  NoDup (map pairOf es).

(** An action that leaves the id, the element definition, the module and
    the name of every instance in place: any action but a value update
    whose key is one of these. *)
Definition keepsShape (a : action) : Prop :=
  match a with
  | ElementValueUpdate _ _ field _ _ => structuralKey field = false
  | _ => True
  end.

(** An action that cannot bring a repeated pair in: a template whose own
    entries repeat none. *)
Definition bringsNoDuplicate (a : action) : Prop :=
  match a with
  | TemplateSelect t => NoDup (map templatePairOf (template_elements t))
  | _ => True
  end.

(** Costs in step with the formulas, as the specification words it (the
    instance's own [formula] and [labor_formula]) ... *)
Definition costsFollowOwnFormulas {host : Host} (st : State) : Prop :=
  forall e, In e (selectedElements st) ->
    material_cost e
    = evaluateFormula (Str (formula e)) (selectedParameters st)
    /\ labor_cost e
       = evaluateFormula (Str (labor_formula e)) (selectedParameters st).

(** ... and as the code keeps them: the pricing formula is the instance's
    own one when it is not empty and the one of the element definition
    otherwise. *)
Definition costsFollowFormulas {host : Host} (st : State) : Prop :=
  forall e, In e (selectedElements st) ->
    material_cost e
    = evaluateFormula (Str (materialFormula e)) (selectedParameters st)
    /\ labor_cost e
       = evaluateFormula (Str (laborFormula e)) (selectedParameters st).

(** An action that does not write a cost field directly. *)
Definition writesNoCost (a : action) : Prop :=
  match a with
  | ElementValueUpdate _ _ field _ _ =>
      field <> chars "material_cost" /\ field <> chars "labor_cost"
  | _ => True
  end.

(* ------------------------------------------------------------------ *)
(** * A concrete session *)

Definition performAll {host : Host} (st : State) (actions : list action)
  : State :=
  fold_left perform actions st.

Definition moduleA : TradeModule :=
  {| module_id := 1; module_name := chars "A";
     module_description := Undefined |}.

Definition moduleB : TradeModule :=
  {| module_id := 2; module_name := chars "B";
     module_description := Undefined |}.

Definition elementOf (i : Z) (f : string) : Element :=
  {| element_id := i; element_name := chars "element";
     element_description := Undefined;
     element_formula := Str (chars f);
     element_labor_formula := Str (chars "a") |}.

(** Modules A and B selected, parameter [a = 2], two priced elements in A
    and one in B. *)
Definition session : State :=
  performAll (host := rejectingHost) initialState
    [ParameterToggle (parameter "a" (NumberValue 2));
     ModuleToggle moduleA; ModuleToggle moduleB;
     ElementToggle 1001 (elementOf 1 "a * 2") moduleA;
     ElementToggle 1002 (elementOf 2 "a + 1") moduleA;
     ElementToggle 1003 (elementOf 3 "a") moduleB].

(** A template that lists the same (element, module) pair twice. *)
Definition repeatingTemplate : Template :=
  {| template_id := 1;
     template_modules := [moduleA];
     template_parameters := [];
     template_elements :=
       [{| te_element := elementOf 1 "1"; te_module := moduleA;
           te_markup := None |};
        {| te_element := elementOf 1 "1"; te_module := moduleA;
           te_markup := None |}] |}.

Definition clearFormula : action :=
  ElementValueUpdate 3 moduleB (chars "formula") [] 0.

(* ------------------------------------------------------------------ *)
(** * Tokens *)

(** The tokens of a text: its maximal runs of word characters and, one by
    one, its other characters.  As in [RegExp.matchIdentifiers], a run is
    produced where it starts and [prevW] tells whether the scan is inside
    one. *)
Fixpoint tokensFrom (prevW : bool) (s : text) : list text :=
  match s with
  | [] => []
  | c :: s' =>
      if isWordChar c then
        if prevW then tokensFrom true s'
        else (c :: RegExp.wordRun s') :: tokensFrom true s'
      else [c] :: tokensFrom false s'
  end.

Definition tokens (s : text) : list text := tokensFrom false s.

(** What is left of [s] after its leading run of word characters. *)
Fixpoint dropRun (s : text) : text :=
  match s with
  | c :: s' => if isWordChar c then dropRun s' else s
  | [] => []
  end.

(** A token list as [tokensFrom prevW] produces them: runs of word
    characters and single other characters, no two runs in a row and no run
    first when [prevW]. *)
Fixpoint wellFormed (prevW : bool) (ts : list text) : bool :=
  match ts with
  | [] => true
  | [] :: _ => false
  | (c :: w) :: ts' =>
      if isWordChar c
      then negb prevW && forallb isWordChar w && wellFormed true ts'
      else match w with
           | [] => wellFormed false ts'
           | _ :: _ => false
           end
  end.

(** Token-wise substitution: the tokens for which [f] has a text are
    replaced by the tokens of that text. *)
Definition substTokens (f : text -> option text) (ts : list text)
  : list text :=
  flat_map (fun t => match f t with Some v => tokens v | None => [t] end) ts.

Definition replaced (f : text -> option text) (t : text) : text :=
  match f t with Some v => v | None => t end.

(** [one name v] replaces the token [name]; [lookup ps] replaces each token
    that is the name of a parameter by the text of the value of the first
    parameter of that name. *)
Definition one (name v : text) (t : text) : option text :=
  if text_eqb t name then Some v else None.

Definition lookup (ps : list Param) (t : text) : option text :=
  match find (fun p => text_eqb t (param_name p)) ps with
  | Some p => Some (valueToString (param_value p))
  | None => None
  end.

(** The simultaneous, whole-token substitution of the parameters in a
    formula. *)
Definition substituteTokens (ps : list Param) (formula : text) : text :=
  concat (map (replaced (lookup ps)) (tokens formula)).

(** A name made of word characters only, and one that moreover starts like
    an identifier. *)
Definition wordName (n : text) : Prop :=
  n <> [] /\ forallb isWordChar n = true.

Definition identifierName (n : text) : Prop :=
  match n with
  | c :: w => isIdentStart c = true /\ forallb isWordChar w = true
  | [] => False
  end.

Definition noDollar (v : text) : Prop :=
  forallb (fun c => negb (c =? "$")%char) v = true.

(** No value has a [$] or, as a whole token, the name of a parameter. *)
Definition selfContained (ps : list Param) : Prop :=
  forall p, In p ps ->
    noDollar (valueToString (param_value p))
    /\ forall q, In q ps ->
         ~ In (param_name q) (tokens (valueToString (param_value p))).

Definition finiteNumber (v : paramValue) : Prop :=
  match v with
  | NumberValue n => is_finite n = true
  | StringValue _ => False
  end.

(** A number that the host's [<] does not put below zero. *)
Definition notNegative (v : paramValue) : Prop :=
  match v with
  | NumberValue n => (n <? 0)%float = false
  | StringValue _ => False
  end.

(** A substitution that only replaces runs of word characters. *)
Definition wordTokensOnly (f : text -> option text) : Prop :=
  forall t v, f t = Some v ->
              match t with c :: _ => isWordChar c = true | [] => False end.

(** One step of the [forEach], on tokens. *)
Definition substStep (ts : list text) (p : Param) : list text :=
  substTokens (one (param_name p) (valueToString (param_value p))) ts.

(** Whether a token is an identifier-like one. *)
Definition startsIdentifier (t : text) : bool :=
  match t with
  | c :: _ => isIdentStart c
  | [] => false
  end.

(** The class of the last character of [s], or [prevW] when [s] is empty. *)
Definition classAfter (prevW : bool) (s : text) : bool :=
  fold_left (fun _ c => isWordChar c) s prevW.

(** The reading of the specification for the result of a formula: every
    token that is a parameter's name stands for the value of that
    parameter, as an operand of its own (its decimal text between
    parentheses), and the resulting expression is evaluated. *)
Definition operand (ps : list Param) (t : text) : option text :=
  match lookup ps t with
  | Some v => Some (chars "(" ++ v ++ chars ")")
  | None => None
  end.

Definition substituteOperands (ps : list Param) (formula : text) : text :=
  concat (map (replaced (operand ps)) (tokens formula)).

Definition arithmeticResult (ps : list Param) (formula : text)
  : option float :=
  match Arith.run (substituteOperands ps formula) with
  | Some (Normal (VNumber v)) => Some v
  | _ => None
  end.

(* ------------------------------------------------------------------ *)
(** * Notions for the facts on literals and operands *)

Unset Implicit Arguments.

(** [R] does not go on a run of characters satisfying [p]. *)
Definition stops (p : ascii -> bool) (R : text) : Prop :=
  match R with
  | c :: _ => p c = false
  | [] => True
  end.

(** A character that ends a literal whatever the literal is. *)
Definition stopper (k : ascii) : Prop :=
  isDigit k = false /\ Arith.isExponentMark k = false
  /\ (k =? ".")%char = false /\ (k =? "+")%char = false
  /\ (k =? "-")%char = false /\ (k =? "*")%char = false.

(** A text that does not go on a literal that is complete. *)
Definition safeHead (R : text) : Prop :=
  match R with
  | c :: _ => isDigit c = false /\ Arith.isExponentMark c = false
              /\ (c =? ".")%char = false
  | [] => True
  end.

(** Whether a token list ends, or starts, with a number. *)
Fixpoint lastIsNum (L : list Arith.token) : bool :=
  match L with
  | [] => false
  | [Arith.TNum _] => true
  | _ :: L' => lastIsNum L'
  end.

Definition headIsNum (L : list Arith.token) : bool :=
  match L with
  | Arith.TNum _ :: _ => true
  | _ => false
  end.

(** [R] does not double the operator it follows. *)
Definition noMerge (R : text) : Prop :=
  match R with
  | c :: _ => (c =? "+")%char = false /\ (c =? "-")%char = false
              /\ (c =? "*")%char = false
  | [] => True
  end.

(** [v] is, as a whole, the decimal literal of value [x]. *)
Definition literal (v : text) (x : float) : Prop :=
  Arith.lexNumber v = Some (x, []).

(** What may follow the integer digits of a literal: nothing or a point
    and digits, then nothing or an exponent with its sign and digits. *)
Definition fractionShape (frac : text) : Prop :=
  frac = [] \/
  exists fp, frac = "."%char :: fp /\ forallb isDigit fp = true.

Definition exponentShape (expo : text) : Prop :=
  expo = [] \/
  exists sign es,
    expo = "e"%char :: sign :: es
    /\ (sign = "+"%char \/ sign = "-"%char)
    /\ forallb isDigit es = true /\ es <> [].

Set Implicit Arguments.

(* ------------------------------------------------------------------ *)
(** * The rest of the page, the trades tab and the details tab *)

Unset Implicit Arguments.

(** The priced elements are as a recalculation against the selected
    parameters leaves them. *)
Definition recalculated {host : Host} (st : State) : Prop :=
  calculateElementCosts (selectedElements st) (selectedParameters st)
  = selectedElements st.

(** What a recalculation keeps of an element. *)
Definition unpriced (e : ElementWithValues)
  : Z * Element * TradeModule * text * text * float :=
  (id e, element e, module e, formula e, labor_formula e, markup e).

(** No two selected parameters, selected modules or custom modules share
    an id. *)
Definition uniqueIds (st : State) : Prop :=
  NoDup (map param_id (selectedParameters st))
  /\ NoDup (map module_id (selectedModules st))
  /\ NoDup (map module_id (customModules st)).

(** An action that cannot bring a repeated id in. *)
Definition bringsUniqueIds (a : action) : Prop :=
  match a with
  | TemplateSelect t =>
      NoDup (map param_id (template_parameters t))
      /\ NoDup (map module_id (template_modules t))
  | _ => True
  end.

(** [trades-tab.tsx]: [const filteredModules = [...selectedModules,
    ...customModules]], the modules the tab lists. *)
Definition filteredModules (selectedModules customModules : list TradeModule)
  : list TradeModule :=
  selectedModules ++ customModules.

(** The callback of the [map] in [handleParameterValueUpdate]. *)
Definition setValue (i : Z) (v : paramValue) (param : Param) : Param :=
  if (param_id param =? i)%Z then withValue param v else param.

(** What the total reads of an element. *)
Definition costsOf (e : ElementWithValues) : float * float * float :=
  (material_cost e, labor_cost e, markup e).

(** Whether the name of [p] is a token of [f]. *)
Definition mentions (f : text) (p : Param) : bool :=
  existsb (text_eqb (param_name p)) (tokens f).

(** The name of a parameter and the text of its value: all that the
    evaluator reads of it. *)
Definition nameAndText (p : Param) : text * text :=
  (param_name p, valueToString (param_value p)).

(* ------------------------------------------------------------------ *)
(** * The host's [parseFloat] *)

(** White space and line terminators, among the code units below 256: tab,
    line feed, vertical tab, form feed, carriage return, space and the
    no-break space. *)
Definition isWhiteSpace (c : ascii) : bool :=
  (c =? "009")%char || (c =? "010")%char || (c =? "011")%char
  || (c =? "012")%char || (c =? "013")%char || (c =? " ")%char
  || (c =? "160")%char.

Fixpoint trimStart (s : text) : text :=
  match s with
  | c :: r => if isWhiteSpace c then trimStart r else s
  | [] => []
  end.

(** [parseFloat(s)]: the value of the longest prefix of [s], its leading
    white space dropped, that is a signed decimal literal or a signed
    [Infinity]; NaN when there is none.  An exponent mark without digits is
    not part of the prefix. *)
Definition parseFloat (s : text) : float :=
  let t := trimStart s in
  let (negative, u) :=
    match t with
    | c :: r =>
        if (c =? "-")%char then (true, r)
        else if (c =? "+")%char then (false, r)
        else (false, t)
    | [] => (false, t)
    end in
  let magnitude :=
    match prefix (chars "Infinity") u with
    | Some _ => infinity
    | None =>
        let (ip, r1) := Arith.span isDigit u in
        let (fp, r2) := Arith.lexFraction r1 in
        match ip ++ fp with
        | [] => nan
        | _ :: _ =>
            let e := match Arith.lexExponent r2 with
                     | Some (e, _) => e
                     | None => 0%Z
                     end in
            Num.decimalToFloat (Num.digitsVal (ip ++ fp))
                               (e - Z.of_nat (length fp))
        end
    end in
  if negative then (- magnitude)%float else magnitude.


(* ------------------------------------------------------------------ *)
(** * [trades-tab.tsx]: the state of the tab and its handlers *)

(** The props [isUseGlobalMarkup] and [globalMarkupPercentage] are the
    page's [useGlobalMarkup] and [globalMarkupPercentage]; the page passes
    its handlers for the others. *)
Definition isUseGlobalMarkup (st : State) : bool := useGlobalMarkup st.

(** [{ id: moduleId } as Module] *)
Definition moduleOfId (moduleId : Z) : TradeModule :=
  {| module_id := moduleId; module_name := [];
     module_description := Undefined |}.

Module TradesTab.

(** The tab's [useState] cells.  [activeModuleAccordions] is read by
    module id only, [None] standing for a missing key. *)
Record Local : Type := {
  activeModuleAccordions : Z -> option bool;
  editingMarkup : option (Z * Z);
  globalMarkup : float;
  useGlobalMarkup : bool
}.

(** [useState(globalMarkupPercentage || 10)] and
    [useState(isUseGlobalMarkup || false)] *)
Definition initial (st : State) : Local := {|
  activeModuleAccordions := fun _ => None;
  editingMarkup := None;
  globalMarkup := orNumber (globalMarkupPercentage st) 10;
  useGlobalMarkup := isUseGlobalMarkup st
|}.

(** The effect that follows the two props. *)
Definition syncProps (st : State) (tab : Local) : Local := {|
  activeModuleAccordions := activeModuleAccordions tab;
  editingMarkup := editingMarkup tab;
  globalMarkup := globalMarkupPercentage st;
  useGlobalMarkup := isUseGlobalMarkup st
|}.

(** [!!activeModuleAccordions[module.id]] *)
Definition isActive (tab : Local) (moduleId : Z) : bool :=
  match activeModuleAccordions tab moduleId with
  | Some b => b
  | None => false
  end.

Definition setKey (m : Z -> option bool) (k : Z) (b : bool)
  : Z -> option bool :=
  fun j => if (j =? k)%Z then Some b else m j.

Definition setActiveModuleAccordions (tab : Local) (m : Z -> option bool)
  : Local := {|
  activeModuleAccordions := m;
  editingMarkup := editingMarkup tab;
  globalMarkup := globalMarkup tab;
  useGlobalMarkup := useGlobalMarkup tab
|}.

(** [{ ...prev, [moduleId]: !prev[moduleId] }] *)
Definition toggleModuleAccordion (tab : Local) (moduleId : Z) : Local :=
  let prev := activeModuleAccordions tab in
  setActiveModuleAccordions tab
    (setKey prev moduleId
            (negb (match prev moduleId with Some b => b | None => false end))).

(** The effect that opens the accordion of every selected module. *)
Definition openAccordions (st : State) (tab : Local) : Local :=
  setActiveModuleAccordions tab
    (fold_left (fun initialAccordionState m =>
                  setKey initialAccordionState (module_id m) true)
               (selectedModules st) (fun _ => None)).

Definition setEditingMarkup (tab : Local) (e : option (Z * Z)) : Local := {|
  activeModuleAccordions := activeModuleAccordions tab;
  editingMarkup := e;
  globalMarkup := globalMarkup tab;
  useGlobalMarkup := useGlobalMarkup tab
|}.

Definition handleEditMarkup (tab : Local) (elementId moduleId : Z) : Local :=
  setEditingMarkup tab (Some (elementId, moduleId)).

Section Handlers.

Context {host : Host}.

Definition handleMarkupChange (st : State) (tab : Local)
           (elementId moduleId : Z) (value : text) : State * Local :=
  let markupValue := parseFloat value in
  let st' :=
    if negb (is_nan markupValue)
    then handleElementValueUpdate st elementId (moduleOfId moduleId)
                                  (chars "markup") [] markupValue
    else st in
  (st', setEditingMarkup tab None).

End Handlers.

Definition handleGlobalMarkupValueChange (st : State) (tab : Local)
           (value : float) : State * Local :=
  (handleGlobalMarkupChange st (useGlobalMarkup tab) value,
   {| activeModuleAccordions := activeModuleAccordions tab;
      editingMarkup := editingMarkup tab;
      globalMarkup := value;
      useGlobalMarkup := useGlobalMarkup tab |}).

Definition handleUseGlobalMarkupChange (st : State) (tab : Local)
           (isUsed : bool) : State * Local :=
  (handleGlobalMarkupChange st isUsed (globalMarkup tab),
   {| activeModuleAccordions := activeModuleAccordions tab;
      editingMarkup := editingMarkup tab;
      globalMarkup := globalMarkup tab;
      useGlobalMarkup := isUsed |}).

(** The total the tab shows: [calculateTotalCost()] with the tab's own
    cells. *)
Definition shownTotal (st : State) (tab : Local) : float :=
  calculateTotalCost (selectedElements st) (useGlobalMarkup tab)
                     (globalMarkup tab).

(** [selectedElements.filter((el) => el.module.id === module.id)] *)
Definition moduleElements (st : State) (m : TradeModule)
  : list ElementWithValues :=
  filter (fun el => (module_id (module el) =? module_id m)%Z)
         (selectedElements st).

(** The total of a row and the subtotal of a module. *)
Definition rowTotal (tab : Local) (element : ElementWithValues) : float :=
  let materialCost := orNumber (material_cost element) 0 in
  let laborCost := orNumber (labor_cost element) 0 in
  let markup := if useGlobalMarkup tab then globalMarkup tab
                else orNumber (markup element) 10 in
  ((materialCost + laborCost) * (1 + markup / 100))%float.

Definition moduleSubtotal (tab : Local) (es : list ElementWithValues)
  : float :=
  fold_left
    (fun total element =>
       let materialCost := orNumber (material_cost element) 0 in
       let laborCost := orNumber (labor_cost element) 0 in
       let markup := if useGlobalMarkup tab then globalMarkup tab
                     else orNumber (markup element) 10 in
       (total + ((materialCost + laborCost) * (1 + markup / 100)))%float)
    es 0%float.

End TradesTab.

(** The page and the tab hold the same global markup. *)
Definition inStep (st : State) (tab : TradesTab.Local) : Prop :=
  TradesTab.useGlobalMarkup tab = useGlobalMarkup st
  /\ TradesTab.globalMarkup tab = globalMarkupPercentage st.

(** What a markup edit keeps of an element. *)
Definition unmarked (e : ElementWithValues)
  : Z * Element * TradeModule * text * text * float * float * maybeText :=
  (id e, element e, module e, formula e, labor_formula e,
   material_cost e, labor_cost e, name e).

(* ------------------------------------------------------------------ *)
(** * [proposal-details-tab.tsx] *)

Module ProposalDetailsTab.

Record Details : Type := {
  name : text;
  description : text;
  client_name : text;
  client_email : text;
  phone_number : text;
  address : text;
  image : text
}.

(** The class [[\d\s\-\+\(\)\.]], on code units below 256. *)
Definition isPhoneChar (c : ascii) : bool :=
  isDigit c || isWhiteSpace c
  || (c =? "-")%char || (c =? "+")%char || (c =? "(")%char
  || (c =? ")")%char || (c =? ".")%char.

(** [inputValue.replace(/[^\d\s\-\+\(\)\.]/g, '')] stored as the phone
    number. *)
Definition handlePhoneInput (value : Details) (inputValue : text) : Details :=
  let formattedValue := filter isPhoneChar inputValue in
  {| name := name value;
     description := description value;
     client_name := client_name value;
     client_email := client_email value;
     phone_number := formattedValue;
     address := address value;
     image := image value |}.

End ProposalDetailsTab.

(** What the user and the scheduler do to the mounted tab: its handlers
    and its two effects. *)
Inductive tabEvent : Type :=
| ValueUpdate (parameterId : Z) (value : text)
| GlobalMarkupValue (value : float)
| UseGlobalMarkup (isUsed : bool)
| EditMarkup (elementId moduleId : Z)
| MarkupChange (elementId moduleId : Z) (value : text)
| ToggleAccordion (moduleId : Z)
| SyncEffect
| AccordionEffect.

Definition tabStep {host : Host} (s : State * TradesTab.Local) (e : tabEvent)
  : State * TradesTab.Local :=
  let (st, tab) := s in
  match e with
  | ValueUpdate i value =>
      (handleParameterValueUpdate st i (StringValue value), tab)
  | GlobalMarkupValue v => TradesTab.handleGlobalMarkupValueChange st tab v
  | UseGlobalMarkup b => TradesTab.handleUseGlobalMarkupChange st tab b
  | EditMarkup i j => (st, TradesTab.handleEditMarkup tab i j)
  | MarkupChange i j value => TradesTab.handleMarkupChange st tab i j value
  | ToggleAccordion k => (st, TradesTab.toggleModuleAccordion tab k)
  | SyncEffect => (st, TradesTab.syncProps st tab)
  | AccordionEffect => (st, TradesTab.openAccordions st tab)
  end.

(** The tab once mounted: its initial cells, then its effects. *)
Definition mounted (st : State) : TradesTab.Local :=
  TradesTab.openAccordions st (TradesTab.syncProps st (TradesTab.initial st)).

(** Two numbers that are the same or are both a zero. *)
Definition upToZeroSign (x y : float) : Prop :=
  x = y \/ (is_zero x = true /\ is_zero y = true).

(** No priced element has a cost that is NaN. *)
Definition noNaNCost (st : State) : Prop :=
  forall e, In e (selectedElements st) ->
    is_nan (material_cost e) = false /\ is_nan (labor_cost e) = false.

(** [const tabSteps = ["template", "details", "trades"]] and
    [tabSteps.indexOf(activeTab)]. *)
Definition tabSteps : list text :=
  [chars "template"; chars "details"; chars "trades"].

Fixpoint indexOfFrom (i : Z) (l : list text) (x : text) : Z :=
  match l with
  | [] => (-1)%Z
  | y :: l' => if text_eqb y x then i else indexOfFrom (i + 1) l' x
  end.

Definition indexOf (l : list text) (x : text) : Z := indexOfFrom 0 l x.

Definition currentStepIndex (activeTab : text) : Z :=
  indexOf tabSteps activeTab.

(** The click on the step [tabSteps[index]]:
    [if (index <= currentStepIndex + 1) setActiveTab(step)]. *)
Definition stepClick (activeTab : text) (index : nat) (step : text) : text :=
  if (Z.of_nat index <=? currentStepIndex activeTab + 1)%Z then step
  else activeTab.

(** What the total reads of an element under the override. *)
Definition bareCosts (e : ElementWithValues) : float * float :=
  (material_cost e, labor_cost e).

(** A parameter and a module that the session has not selected. *)
Definition parameterB : Param :=
  {| param_id := 5; param_name := chars "b"; param_value := NumberValue 7;
     param_type := chars "number" |}.

Definition moduleC : TradeModule :=
  {| module_id := 3; module_name := chars "C";
     module_description := Undefined |}.

Set Implicit Arguments.
(* ================================================================== *)
(** * Properties of the evaluator *)

Lemma float_distinct (p : float -> bool) (x y : float) :
  p x = true -> p y = false -> x <> y.
Proof. intros Hx Hy E. subst y. congruence. Qed.

Section EvaluatorFacts.

Context {host : Host}.

Lemma run_of_tryBlock (c : ascii) (f : text) (ps : list Param) :
  evaluateFormula_run (Str (c :: f)) ps =
  match tryBlock (c :: f) ps with
  | (log, Normal r) => (log, Normal r)
  | (log, Throw) => (log ++ [LogError], Normal 0%float)
  end.
Proof. reflexivity. Qed.

Lemma run_completes (f : maybeText) (ps : list Param) :
  snd (evaluateFormula_run f ps) = Normal (evaluateFormula f ps).
Proof.
  unfold evaluateFormula.
  destruct f as [| |[|c s]]; try reflexivity.
  rewrite run_of_tryBlock.
  destruct (tryBlock (c :: s) ps) as [log [r|]]; reflexivity.
Qed.

Lemma tryBlock_unresolved (f t : text) (ps : list Param) :
  substituteParameters f ps = Normal t ->
  RegExp.matchIdentifiers false t <> [] ->
  tryBlock f ps = ([Warn (RegExp.matchIdentifiers false t)], Normal 0%float).
Proof.
  intros Hs Hm. unfold tryBlock. rewrite Hs.
  destruct (RegExp.matchIdentifiers false t); [contradiction|reflexivity].
Qed.

Lemma tryBlock_resolved (f t : text) (ps : list Param) :
  substituteParameters f ps = Normal t ->
  RegExp.matchIdentifiers false t = [] ->
  tryBlock f ps =
  ([Evaluate t], bind (newFunctionReturn t) validNumber).
Proof.
  intros Hs Hm. unfold tryBlock. now rewrite Hs, Hm.
Qed.

Lemma validNumber_of (r : value) (n : float) :
  ToNumber r = Normal n ->
  validNumber r = Normal (if is_nan n then 0%float else n).
Proof.
  intros H. unfold validNumber, isNaN, Number. rewrite H. simpl.
  destruct (is_nan n); reflexivity.
Qed.

(** C4.  When the text left by the substitution of the parameters still
    has an identifier-like token, the call completes normally with 0 and
    the expression is never handed to the Function constructor; for a
    non-empty formula the only thing it does is warn about exactly the
    unresolved names. *)
Theorem evaluateFormula_unresolved_name
        (f t : text) (ps : list Param) :
  substituteParameters f ps = Normal t ->
  RegExp.matchIdentifiers false t <> [] ->
  snd (evaluateFormula_run (Str f) ps) = Normal 0%float
  /\ evaluateFormula (Str f) ps = 0%float
  /\ (forall e, ~ In (Evaluate e) (fst (evaluateFormula_run (Str f) ps)))
  /\ (f <> [] ->
      fst (evaluateFormula_run (Str f) ps) =
      [Warn (RegExp.matchIdentifiers false t)]).
Proof.
  intros Hs Hm.
  destruct f as [|c f].
  - repeat split; try reflexivity.
    + intros e [].
    + intros N; now elim N.
  - unfold evaluateFormula. rewrite run_of_tryBlock.
    rewrite (tryBlock_unresolved _ _ Hs Hm). simpl.
    repeat split.
    intros e [A|[]]. discriminate.
Qed.

Lemma evaluateFormula_resolved
      (c : ascii) (f t : text) (ps : list Param) (r : value) (n : float) :
  substituteParameters (c :: f) ps = Normal t ->
  RegExp.matchIdentifiers false t = [] ->
  newFunctionReturn t = Normal r ->
  ToNumber r = Normal n ->
  evaluateFormula (Str (c :: f)) ps = (if is_nan n then 0 else n)%float.
Proof.
  intros Hs Hm Hr Hn.
  unfold evaluateFormula. rewrite run_of_tryBlock.
  rewrite (tryBlock_resolved _ _ Hs Hm), Hr. simpl.
  now rewrite (validNumber_of _ Hn).
Qed.

End EvaluatorFacts.

(** C1.  The call [evaluateFormula("10 / x", [{ name: "x", value: 0 }])]:
    the formula becomes ["10 / 0"], which has no identifier and evaluates
    to the non-finite [Infinity]; the test [isNaN(result)] on the line
    commented [Make sure the result is a valid number] lets it through,
    and the call returns [Infinity], not 0. *)
Lemma evaluateFormula_division_by_zero :
  let ps := [parameter "x" (NumberValue 0)] in
  @substituteParameters rejectingHost (chars "10 / x") ps
  = Normal (chars "10 / 0")
  /\ RegExp.matchIdentifiers false (chars "10 / 0") = []
  /\ @newFunctionReturn rejectingHost (chars "10 / 0")
     = Normal (VNumber infinity)
  /\ is_finite infinity = false
  /\ @evaluateFormula rejectingHost (Str (chars "10 / x")) ps = infinity
  /\ @evaluateFormula rejectingHost (Str (chars "10 / x")) ps <> 0%float.
Proof.
  repeat split; try (vm_compute; reflexivity).
  apply (float_distinct is_infinity); vm_compute; reflexivity.
Qed.

(** C6.  The call [evaluateFormula(loopingFormula, [])]: the text has no
    letter and no underscore, so the search for leftover identifiers finds
    none and the guard lets it through; it is not an arithmetic
    expression; and the text handed to the Function constructor, and run,
    is the formula itself.  What the call does from there on is what the
    engine does running that text. *)
Lemma evaluateFormula_runs_loopingFormula :
  existsb isIdentStart loopingFormula = false
  /\ RegExp.matchIdentifiers false loopingFormula = []
  /\ Arith.run loopingFormula = None
  /\ forall host : Host,
       @substituteParameters host loopingFormula [] = Normal loopingFormula
       /\ @newFunctionReturn host loopingFormula
          = hostFunction loopingFormula
       /\ @tryBlock host loopingFormula []
          = ([Evaluate loopingFormula],
             bind (hostFunction loopingFormula) validNumber).
Proof.
  assert (M : RegExp.matchIdentifiers false loopingFormula = [])
    by (vm_compute; reflexivity).
  assert (A : Arith.run loopingFormula = None) by (vm_compute; reflexivity).
  split; [vm_compute; reflexivity|].
  split; [exact M|]. split; [exact A|].
  intro host.
  assert (N : @newFunctionReturn host loopingFormula
              = hostFunction loopingFormula).
  { unfold newFunctionReturn. now rewrite A. }
  assert (S : @substituteParameters host loopingFormula []
              = Normal loopingFormula) by reflexivity.
  split; [exact S|]. split; [exact N|].
  unfold tryBlock. now rewrite S, M, N.
Qed.

Lemma evaluateFormula_unresolved_name_witness :
  let ps := [parameter "a" (NumberValue 2)] in
  @evaluateFormula rejectingHost (Str (chars "a + unknown")) ps = 0%float
  /\ fst (@evaluateFormula_run rejectingHost (Str (chars "a + unknown")) ps)
     = [Warn [chars "unknown"]].
Proof.
  intro ps.
  destruct (@evaluateFormula_unresolved_name rejectingHost
              (chars "a + unknown") (chars "2 + unknown") ps)
    as (_ & H0 & _ & Hw).
  - vm_compute; reflexivity.
  - vm_compute. intro N. discriminate N.
  - split; [exact H0|]. apply Hw. intro N. discriminate N.
Defined.

(* ================================================================== *)
(** * Properties of the grand total *)

Lemma fold_left_map_sum {A} (f : A -> float) (l : list A) (acc : float) :
  fold_left (fun total x => (total + f x)%float) l acc =
  fold_left (fun total x => (total + x)%float) (map f l) acc.
Proof.
  revert acc. induction l as [|a l IH]; intro acc; simpl.
  - reflexivity.
  - apply IH.
Qed.

Lemma calculateTotalCost_sum (es : list ElementWithValues) (enabled : bool)
      (percentage : float) :
  calculateTotalCost es enabled percentage =
  sumOf (map (elementTotal enabled percentage) es).
Proof.
  unfold calculateTotalCost, sumOf.
  rewrite <- fold_left_map_sum.
  reflexivity.
Qed.

Lemma elementTotal_override (percentage : float) (e : ElementWithValues) :
  elementTotal true percentage e = elementTotal_spec true percentage e.
Proof. reflexivity. Qed.

Lemma elementTotal_own (percentage : float) (e : ElementWithValues) :
  truthy (markup e) = true ->
  elementTotal false percentage e = elementTotal_spec false percentage e.
Proof.
  intro H. unfold elementTotal, elementTotal_spec, effectiveMarkup,
             effectiveMarkup_spec.
  now rewrite H.
Qed.




(* ================================================================== *)
(** * Properties of the selection *)

Lemma samePair_pairOf (i j : Z) (e : ElementWithValues) :
  samePair i j e = true <-> pairOf e = (i, j).
Proof.
  unfold samePair, pairOf. rewrite andb_true_iff, !Z.eqb_eq.
  split; [intros [-> ->]; reflexivity|intros H; now inversion H].
Qed.

Lemma samePair_false (i j : Z) (e : ElementWithValues) :
  samePair i j e = false <-> pairOf e <> (i, j).
Proof.
  rewrite <- samePair_pairOf. destruct (samePair i j e); split; congruence.
Qed.

Lemma uniquePairs_filter (keep : ElementWithValues -> bool)
      (es : list ElementWithValues) :
  uniquePairs es -> uniquePairs (filter keep es).
Proof.
  unfold uniquePairs.
  induction es as [|e es IH]; simpl; intro H; [constructor|].
  inversion H as [|? ? Hn Hd]; subst.
  destruct (keep e); simpl; [constructor|]; auto.
  intro Hin. apply Hn.
  apply in_map_iff in Hin as (x & Hx & Hin).
  apply filter_In in Hin as [Hin _].
  apply in_map_iff. now exists x.
Qed.

Lemma filter_none {A} (p : A -> bool) (l : list A) :
  (forall x, In x l -> p x = true) -> filter p l = l.
Proof.
  induction l as [|a l IH]; simpl; intro H; [reflexivity|].
  rewrite (H a (or_introl eq_refl)). f_equal. apply IH. auto.
Qed.

Lemma find_append {A} (p : A -> bool) (l l' : list A) :
  find p (l ++ l') =
  match find p l with Some x => Some x | None => find p l' end.
Proof.
  induction l as [|a l IH]; simpl; [reflexivity|].
  destruct (p a); [reflexivity|apply IH].
Qed.

Lemma setSelectedElements_same (st : State) :
  setSelectedElements st (selectedElements st) = st.
Proof. destruct st; reflexivity. Qed.

Section SelectionFacts.

Context {host : Host}.

Lemma pairOf_calculateElementCosts (es : list ElementWithValues)
      (ps : list Param) :
  map pairOf (calculateElementCosts es ps) = map pairOf es.
Proof.
  unfold calculateElementCosts. rewrite map_map. reflexivity.
Qed.

(** C8.  Toggling a selected module removes, in one transition, that module
    from the selected modules and from the priced elements exactly those
    whose module has its id; the other priced elements stay, unchanged and
    in their order, and nothing else of the state changes. *)
Theorem handleModuleToggle_deselect (st : State) (m : TradeModule) :
  (exists x, In x (selectedModules st) /\ module_id x = module_id m) ->
  let st' := handleModuleToggle st m in
  selectedElements st'
  = filter (fun el => negb (module_id (module el) =? module_id m)%Z)
           (selectedElements st)
  /\ (forall el, In el (selectedElements st') <->
                 In el (selectedElements st)
                 /\ module_id (module el) <> module_id m)
  /\ (forall x, In x (selectedModules st') <->
                In x (selectedModules st) /\ module_id x <> module_id m)
  /\ selectedParameters st' = selectedParameters st
  /\ customModules st' = customModules st
  /\ selectedTemplate st' = selectedTemplate st.
Proof.
  intros (x & Hin & Hid) st'. subst st'. unfold handleModuleToggle.
  destruct (find _ (selectedModules st)) as [y|] eqn:F.
  - simpl. split; [reflexivity|]. split; [|split].
    + intro el. rewrite filter_In, negb_true_iff, Z.eqb_neq. tauto.
    + intro z. rewrite filter_In, negb_true_iff, Z.eqb_neq. tauto.
    + repeat split.
  - exfalso. apply (find_none _ _ F) in Hin.
    apply Z.eqb_neq in Hin. contradiction.
Qed.

(** C10.  Toggling a pair that is not selected and toggling it again gives
    the state back, hence the same grand total; toggling a selected pair
    keeps exactly the priced elements of the other pairs, unchanged and in
    order, and when pairs are unique it removes exactly one instance. *)
Theorem handleElementToggle_round_trip
        (st : State) (now now' : Z) (el : Element) (m : TradeModule) :
  (find (samePair (element_id el) (module_id m)) (selectedElements st) = None ->
   handleElementToggle (handleElementToggle st now el m) now' el m = st
   /\ forall enabled percentage,
        calculateTotalCost
          (selectedElements
             (handleElementToggle (handleElementToggle st now el m) now' el m))
          enabled percentage
        = calculateTotalCost (selectedElements st) enabled percentage)
  /\ (find (samePair (element_id el) (module_id m)) (selectedElements st)
      <> None ->
      selectedElements (handleElementToggle st now el m)
      = filter (fun e => negb (samePair (element_id el) (module_id m) e))
               (selectedElements st)
      /\ (forall e, In e (selectedElements (handleElementToggle st now el m))
                    <-> In e (selectedElements st)
                        /\ pairOf e <> (element_id el, module_id m))
      /\ (uniquePairs (selectedElements st) ->
          S (length (selectedElements (handleElementToggle st now el m)))
          = length (selectedElements st))).
Proof.
  split.
  - intro F.
    assert (E : handleElementToggle (handleElementToggle st now el m) now' el m
                = st).
    { unfold handleElementToggle at 2. rewrite F.
      unfold handleElementToggle. simpl selectedElements.
      rewrite find_append, F. simpl find.
      unfold samePair at 1. simpl. rewrite !Z.eqb_refl. simpl.
      rewrite filter_app. simpl filter.
      unfold samePair at 2. simpl. rewrite !Z.eqb_refl. simpl.
      rewrite app_nil_r, filter_none.
      - destruct st; reflexivity.
      - intros x Hx. now rewrite (find_none _ _ F x Hx). }
    split; [exact E|]. intros. now rewrite E.
  - intro F. unfold handleElementToggle.
    destruct (find _ (selectedElements st)) as [y|] eqn:Fy; [|congruence].
    simpl. split; [reflexivity|]. split.
    + intro e. rewrite filter_In, negb_true_iff, samePair_false. tauto.
    + unfold uniquePairs. clear F.
      apply find_some in Fy as [Hin Hy]. apply samePair_pairOf in Hy.
      revert Hin. generalize (selectedElements st) as es.
      induction es as [|a es IH]; simpl; intros Hin Hnd; [contradiction|].
      inversion Hnd as [|? ? Hn Hd]; subst.
      destruct (samePair (element_id el) (module_id m) a) eqn:Sa; simpl.
      * apply samePair_pairOf in Sa. f_equal. f_equal.
        apply filter_none. intros x Hx.
        rewrite negb_true_iff, samePair_false. intro Ex.
        apply Hn. rewrite Sa, <- Ex. now apply in_map.
      * f_equal. apply IH; [|assumption].
        destruct Hin as [->|]; [|assumption].
        apply samePair_false in Sa. contradiction.
Qed.

End SelectionFacts.

Section InvariantFacts.

Context {host : Host}.

Lemma uniquePairs_calculateElementCosts (es : list ElementWithValues)
      (ps : list Param) :
  uniquePairs (calculateElementCosts es ps) <-> uniquePairs es.
Proof.
  unfold uniquePairs. now rewrite pairOf_calculateElementCosts.
Qed.

Lemma pairOf_setField (i j : Z) (field f : text) (v : float)
      (es : list ElementWithValues) :
  map pairOf
      (map (fun e => if samePair i j e then setField e field f v else e) es)
  = map pairOf es.
Proof.
  rewrite map_map. apply map_ext. intro e.
  destruct (samePair i j e); reflexivity.
Qed.

Lemma pairOf_fromTemplate (st : State) (t : Template) :
  map pairOf (selectedElements (handleTemplateSelect st t))
  = map templatePairOf (template_elements t).
Proof.
  unfold handleTemplateSelect. simpl selectedElements.
  rewrite pairOf_calculateElementCosts, map_map. reflexivity.
Qed.

Lemma uniquePairs_handleModuleToggle (st : State) (m : TradeModule) :
  uniquePairs (selectedElements st) ->
  uniquePairs (selectedElements (handleModuleToggle st m)).
Proof.
  intro H. unfold handleModuleToggle.
  destruct (find _ (selectedModules st)); simpl; [|exact H].
  now apply uniquePairs_filter.
Qed.

Lemma uniquePairs_handleElementToggle (st : State) (now : Z) (el : Element)
      (m : TradeModule) :
  uniquePairs (selectedElements st) ->
  uniquePairs (selectedElements (handleElementToggle st now el m)).
Proof.
  intro H. unfold handleElementToggle.
  destruct (find _ (selectedElements st)) eqn:F; simpl.
  - now apply uniquePairs_filter.
  - unfold uniquePairs. rewrite map_app. simpl.
    apply NoDup_app_remove_l with (l := []).
    simpl. apply NoDup_Add with (a := (element_id el, module_id m))
                                (l := map pairOf (selectedElements st)).
    + replace (map pairOf (selectedElements st))
        with (map pairOf (selectedElements st) ++ []) at 1
        by apply app_nil_r.
      apply Add_app.
    + split; [exact H|].
      intro Hin. apply in_map_iff in Hin as (x & Hx & Hin).
      apply (find_none _ _ F) in Hin.
      apply samePair_false in Hin. contradiction.
Qed.

(** C9 (amended).  Every action keeps the (elementId, moduleId) pairs of
    the priced elements pairwise distinct, provided a selected template
    does not itself list a pair twice and a value update does not write
    the element, the module, the id or the name of an instance; after a
    template selection the pairs are distinct exactly when those of the
    template are. *)
Theorem uniquePairs_preserved (st : State) (a : action) :
  bringsNoDuplicate a ->
  keepsShape a ->
  uniquePairs (selectedElements st) ->
  uniquePairs (selectedElements (perform st a))
  /\ forall t, uniquePairs (selectedElements (handleTemplateSelect st t))
               <-> NoDup (map templatePairOf (template_elements t)).
Proof.
  intros Ha _ H. split.
  - destruct a as [t|m|m|i v|p|now el m|i m field f v|u p];
      cbn [perform bringsNoDuplicate] in *.
    + unfold uniquePairs. now rewrite pairOf_fromTemplate.
    + now apply uniquePairs_handleModuleToggle.
    + unfold handleAddCustomModule.
      destruct (existsb _ (customModules st));
        now apply uniquePairs_handleModuleToggle.
    + now apply uniquePairs_calculateElementCosts.
    + now apply uniquePairs_calculateElementCosts.
    + now apply uniquePairs_handleElementToggle.
    + unfold handleElementValueUpdate.
      destruct (_ || _); simpl.
      * apply uniquePairs_calculateElementCosts.
        unfold uniquePairs. now rewrite pairOf_setField.
      * unfold uniquePairs. now rewrite pairOf_setField.
    + exact H.
  - intro t. unfold uniquePairs. now rewrite pairOf_fromTemplate.
Qed.

Lemma calculateElementCosts_follow (es : list ElementWithValues)
      (ps : list Param) (e : ElementWithValues) :
  In e (calculateElementCosts es ps) ->
  material_cost e = evaluateFormula (Str (materialFormula e)) ps
  /\ labor_cost e = evaluateFormula (Str (laborFormula e)) ps.
Proof.
  unfold calculateElementCosts. intro H.
  apply in_map_iff in H as (x & <- & _). split; reflexivity.
Qed.

Lemma parameters_handleElementValueUpdate (st : State) (i : Z)
      (m : TradeModule) (field f : text) (v : float) :
  selectedParameters (handleElementValueUpdate st i m field f v)
  = selectedParameters st.
Proof.
  unfold handleElementValueUpdate. destruct (_ || _); reflexivity.
Qed.

Lemma orText_idem (a : maybeText) :
  orText (Str (orText a [])) (orText a []) = orText a [].
Proof. destruct a as [| |[|c s]]; reflexivity. Qed.

Lemma text_eqb_neq (a b : text) : a <> b -> text_eqb a b = false.
Proof.
  intro H. unfold text_eqb. destruct (text_eq_dec a b); congruence.
Qed.

Lemma text_eqb_eq (a b : text) : text_eqb a b = true -> a = b.
Proof.
  unfold text_eqb. destruct (text_eq_dec a b); congruence.
Qed.

(** C7 (amended).  The costs of every priced element are the evaluator's
    output for its pricing formulas (its own formula when not empty, the
    one of the element definition otherwise) against the selected
    parameters: this holds initially and after every action that writes
    neither a cost field nor the element, the module, the id or the name
    of an instance; a template selection, a parameter update or toggle and
    a formula edit establish it whatever the state was. *)
Theorem costsFollowFormulas_preserved (st : State) (a : action) :
  writesNoCost a ->
  keepsShape a ->
  costsFollowFormulas st ->
  costsFollowFormulas (perform st a)
  /\ costsFollowFormulas initialState
  /\ (forall st0 t, costsFollowFormulas (handleTemplateSelect st0 t))
  /\ (forall st0 i v, costsFollowFormulas (handleParameterValueUpdate st0 i v))
  /\ (forall st0 p, costsFollowFormulas (handleParameterToggle st0 p))
  /\ (forall st0 i m f v,
        costsFollowFormulas
          (handleElementValueUpdate st0 i m (chars "formula") f v)
        /\ costsFollowFormulas
             (handleElementValueUpdate st0 i m (chars "labor_formula") f v)).
Proof.
  intros Ha _ H.
  assert (T : forall st0 t, costsFollowFormulas (handleTemplateSelect st0 t)).
  { intros st0 t e He. now apply calculateElementCosts_follow in He. }
  assert (U : forall st0 i v,
             costsFollowFormulas (handleParameterValueUpdate st0 i v)).
  { intros st0 i v e He. now apply calculateElementCosts_follow in He. }
  assert (P : forall st0 p, costsFollowFormulas (handleParameterToggle st0 p)).
  { intros st0 p e He. now apply calculateElementCosts_follow in He. }
  assert (F : forall st0 i m field f v,
             text_eqb field (chars "formula")
             || text_eqb field (chars "labor_formula") = true ->
             costsFollowFormulas
               (handleElementValueUpdate st0 i m field f v)).
  { intros st0 i m field f v E e He. unfold handleElementValueUpdate in *.
    rewrite E in *.
    cbn [selectedElements selectedParameters setSelectedElements] in *.
    now apply calculateElementCosts_follow in He. }
  split; [|split; [intros e []|split; [exact T|split; [exact U|split;
    [exact P|]]]]].
  2: { intros st0 i m f v. split; apply F; reflexivity. }
  destruct a as [t|m|m|i v|p|now el m|i m field f v|u p];
    cbn [perform writesNoCost] in *.
  - apply T.
  - intros e He. unfold handleModuleToggle in *.
    destruct (find _ (selectedModules st)); simpl in *.
    + apply filter_In in He as [He _]. now apply H.
    + now apply H.
  - intros e He. unfold handleAddCustomModule, handleModuleToggle in *.
    destruct (existsb _ (customModules st)); simpl in *;
      match type of He with
      | context [find ?p ?l] => destruct (find p l)
      end; simpl in *;
      try (apply filter_In in He as [He _]); now apply H.
  - apply U.
  - apply P.
  - intros e He. unfold handleElementToggle in *.
    destruct (find _ (selectedElements st)); simpl in *.
    + apply filter_In in He as [He _]. now apply H.
    + apply in_app_or in He as [He|[<-|[]]]; [now apply H|].
      unfold materialFormula, laborFormula.
      cbn [formula labor_formula element element_formula
           element_labor_formula material_cost labor_cost].
      now rewrite !orText_idem.
  - destruct (text_eqb field (chars "formula")
              || text_eqb field (chars "labor_formula")) eqn:E;
      [now apply F|].
    intros e He. rewrite parameters_handleElementValueUpdate.
    unfold handleElementValueUpdate in He. rewrite E in He.
    simpl in He. apply in_map_iff in He as (x & <- & Hx).
    apply orb_false_iff in E as [E1 E2]. destruct Ha as [N1 N2].
    destruct (samePair i (module_id m) x); [|now apply H].
    destruct (H x Hx) as [Hm Hl].
    unfold materialFormula, laborFormula, setField.
    cbn [formula labor_formula element material_cost labor_cost].
    rewrite E1, E2, (text_eqb_neq N1), (text_eqb_neq N2). now split.
  - exact H.
Qed.

End InvariantFacts.

(* ------------------------------------------------------------------ *)
(** ** The properties on a concrete session *)

Lemma handleModuleToggle_deselect_witness :
  (exists x, In x (selectedModules session) /\ module_id x = module_id moduleA)
  /\ map pairOf (selectedElements session) = [(1, 1); (2, 1); (3, 2)]%Z
  /\ map pairOf
         (selectedElements
            (handleModuleToggle session moduleA)) = [(3, 2)]%Z
  /\ selectedElements (handleModuleToggle session moduleA)
     = filter (fun el => negb (module_id (module el) =? 1)%Z)
              (selectedElements session).
Proof.
  assert (H : exists x, In x (selectedModules session)
                        /\ module_id x = module_id moduleA).
  { exists moduleA. split; [left; reflexivity|reflexivity]. }
  split; [exact H|].
  split; [vm_compute; reflexivity|].
  split; [vm_compute; reflexivity|].
  exact (proj1 (@handleModuleToggle_deselect session moduleA H)).
Defined.

Lemma handleElementToggle_round_trip_witness :
  find (samePair 3 1) (selectedElements session) = None
  /\ handleElementToggle (host := rejectingHost)
       (handleElementToggle (host := rejectingHost) session 1004
                            (elementOf 3 "a") moduleA)
       1005 (elementOf 3 "a") moduleA
     = session.
Proof.
  assert (H : find (samePair 3 1) (selectedElements session) = None)
    by (vm_compute; reflexivity).
  split; [exact H|].
  exact (proj1 (proj1 (@handleElementToggle_round_trip rejectingHost
                         session 1004 1005 (elementOf 3 "a") moduleA) H)).
Defined.

(** C9, as stated, fails for a template selection: a template that lists a
    pair twice yields two priced elements with that pair. *)
Lemma handleTemplateSelect_repeated_pair :
  uniquePairs (selectedElements initialState)
  /\ map pairOf (selectedElements
                   (perform (host := rejectingHost) initialState
                            (TemplateSelect repeatingTemplate)))
     = [(1, 1); (1, 1)]%Z
  /\ ~ uniquePairs (selectedElements
                      (perform (host := rejectingHost) initialState
                               (TemplateSelect repeatingTemplate))).
Proof.
  split; [constructor|]. split; [reflexivity|].
  intro H. inversion H as [|x l Hn Hd]. apply Hn. left. reflexivity.
Qed.

Lemma uniquePairs_preserved_witness :
  let a := ElementValueUpdate 3 moduleB (chars "markup") [] 25 in
  bringsNoDuplicate a
  /\ keepsShape a
  /\ uniquePairs (selectedElements session)
  /\ uniquePairs (selectedElements (perform (host := rejectingHost) session a)).
Proof.
  intro a.
  assert (H : uniquePairs (selectedElements session)).
  { unfold uniquePairs.
    change (map pairOf (selectedElements session))
      with [(1, 1); (2, 1); (3, 2)]%Z.
    repeat (constructor; [simpl; intuition congruence|]). constructor. }
  assert (K : keepsShape a) by reflexivity.
  split; [exact I|]. split; [exact K|]. split; [exact H|].
  exact (proj1 (@uniquePairs_preserved rejectingHost session a I K H)).
Defined.

Lemma session_costsFollowFormulas :
  costsFollowFormulas (host := rejectingHost) session.
Proof.
  intros e He. vm_compute in He.
  destruct He as [<-|[<-|[<-|[]]]]; split; vm_compute; reflexivity.
Qed.

(** C7, as stated, fails for a formula edit: in the session every cost is
    the evaluator's output for the instance's own formulas; once the
    formula of the element of module B is cleared, its material cost is
    still 2, the value of the formula ["a"] of the element definition,
    while its own, empty formula evaluates to 0. *)
Lemma clearFormula_keeps_cost :
  costsFollowOwnFormulas (host := rejectingHost) session
  /\ ~ costsFollowOwnFormulas (host := rejectingHost)
       (perform (host := rejectingHost) session clearFormula).
Proof.
  split.
  - intros e He. vm_compute in He.
    destruct He as [<-|[<-|[<-|[]]]]; split; vm_compute; reflexivity.
  - intro H.
    destruct (H (nth 2 (selectedElements
                          (perform (host := rejectingHost) session
                                   clearFormula))
                    (priced 0 0 0))) as [Hm _].
    + vm_compute. right. right. left. reflexivity.
    + vm_compute in Hm. revert Hm.
      apply (float_distinct (fun x => (x =? 2)%float)); vm_compute;
        reflexivity.
Qed.

Lemma costsFollowFormulas_preserved_witness :
  writesNoCost clearFormula
  /\ keepsShape clearFormula
  /\ costsFollowFormulas (host := rejectingHost) session
  /\ costsFollowFormulas (host := rejectingHost)
       (perform (host := rejectingHost) session clearFormula).
Proof.
  assert (W : writesNoCost clearFormula).
  { split; intro N; discriminate N. }
  assert (K : keepsShape clearFormula) by reflexivity.
  split; [exact W|]. split; [exact K|].
  split; [exact session_costsFollowFormulas|].
  exact (proj1 (@costsFollowFormulas_preserved rejectingHost
                  session clearFormula W K session_costsFollowFormulas)).
Defined.

(* ------------------------------------------------------------------ *)
(** * Tokens and the substitution *)

Lemma wordChar_not_syntax (c : ascii) :
  isWordChar c = true -> RegExp.isSyntaxChar c = false.
Proof.
  destruct c as [[] [] [] [] [] [] [] []]; vm_compute; congruence.
Qed.

Lemma identStart_wordChar (c : ascii) :
  isIdentStart c = true -> isWordChar c = true.
Proof. unfold isWordChar. now intros ->. Qed.

Lemma wordName_literal (n : text) :
  forallb isWordChar n = true -> RegExp.isLiteralPattern n = true.
Proof.
  unfold RegExp.isLiteralPattern. rewrite !forallb_forall.
  intros H c Hc. now rewrite (wordChar_not_syntax _ (H c Hc)).
Qed.

Lemma identifierName_wordName (n : text) : identifierName n -> wordName n.
Proof.
  destruct n as [|c w]; [intros []|]. intros [Hc Hw].
  split; [discriminate|]. simpl. now rewrite (identStart_wordChar _ Hc).
Qed.

Lemma prefix_spec (p s r : text) : prefix p s = Some r <-> s = p ++ r.
Proof.
  revert s. induction p as [|a p IH]; intros s; simpl.
  - split; [now intros [= ->]|now intros ->].
  - destruct s as [|b s]; [split; discriminate|].
    destruct (Ascii.eqb_spec a b) as [->|N].
    + rewrite IH. split; [now intros ->|now intros [= ->]].
    + split; [discriminate|intros [= E]; congruence].
Qed.

Lemma wordRun_dropRun (s : text) : RegExp.wordRun s ++ dropRun s = s.
Proof.
  induction s as [|c s IH]; simpl; [reflexivity|].
  destruct (isWordChar c); simpl; [now rewrite IH|reflexivity].
Qed.

Lemma wordRun_words (s : text) : forallb isWordChar (RegExp.wordRun s) = true.
Proof.
  induction s as [|c s IH]; simpl; [reflexivity|].
  destruct (isWordChar c) eqn:E; simpl; [now rewrite E|reflexivity].
Qed.

Lemma wordRun_app (w r : text) :
  forallb isWordChar w = true ->
  RegExp.wordRun (w ++ r) = w ++ RegExp.wordRun r.
Proof.
  induction w as [|c w IH]; simpl; [reflexivity|].
  intro H. apply andb_true_iff in H as [Hc Hw]. now rewrite Hc, IH.
Qed.

Lemma dropRun_app (w r : text) :
  forallb isWordChar w = true -> dropRun (w ++ r) = dropRun r.
Proof.
  induction w as [|c w IH]; simpl; [reflexivity|].
  intro H. apply andb_true_iff in H as [Hc Hw]. now rewrite Hc, IH.
Qed.

Lemma tokensFrom_inside (w r : text) :
  forallb isWordChar w = true ->
  tokensFrom true (w ++ r) = tokensFrom true r.
Proof.
  induction w as [|c w IH]; simpl; [reflexivity|].
  intro H. apply andb_true_iff in H as [Hc Hw]. now rewrite Hc, IH.
Qed.

Lemma concat_tokensFrom (prevW : bool) (s : text) :
  concat (tokensFrom prevW s) = if prevW then dropRun s else s.
Proof.
  revert prevW. induction s as [|c s IH]; intro p; simpl.
  - now destruct p.
  - destruct (isWordChar c) eqn:E.
    + destruct p; simpl; rewrite IH; [reflexivity|].
      now rewrite wordRun_dropRun.
    + simpl. rewrite IH. now destruct p.
Qed.

Lemma concat_tokens (s : text) : concat (tokens s) = s.
Proof. apply (concat_tokensFrom false). Qed.

Lemma getSubstitution_plain (matched before after repl : text) :
  noDollar repl ->
  RegExp.getSubstitution matched before after repl = repl.
Proof.
  unfold noDollar. induction repl as [|c r IH]; simpl; [reflexivity|].
  intro H. apply andb_true_iff in H as [Hc Hr].
  apply negb_true_iff in Hc. rewrite Hc. now rewrite IH.
Qed.

Section OneName.

Variables (name0 : ascii) (name' repl : text).
Hypothesis name_words : forallb isWordChar (name0 :: name') = true.
Hypothesis repl_plain : noDollar repl.

Local Abbreviation name := (name0 :: name').

Lemma name0_word : isWordChar name0 = true.
Proof. simpl in name_words. now apply andb_true_iff in name_words. Qed.

Lemma name'_words : forallb isWordChar name' = true.
Proof. simpl in name_words. now apply andb_true_iff in name_words. Qed.

Lemma matchAt_end (prevW : bool) : RegExp.matchAt name prevW [] = None.
Proof. unfold RegExp.matchAt. now destruct (RegExp.boundary prevW []). Qed.

Lemma matchAt_separator (prevW : bool) (c : ascii) (s : text) :
  isWordChar c = false -> RegExp.matchAt name prevW (c :: s) = None.
Proof.
  intro Hc. unfold RegExp.matchAt.
  destruct (RegExp.boundary prevW (c :: s)); [|reflexivity].
  simpl. destruct (Ascii.eqb_spec name0 c) as [E|N]; [|reflexivity].
  rewrite <- E, name0_word in Hc. discriminate.
Qed.

Lemma matchAt_inside (c : ascii) (s : text) :
  isWordChar c = true -> RegExp.matchAt name true (c :: s) = None.
Proof.
  intro Hc. unfold RegExp.matchAt, RegExp.boundary. now rewrite Hc.
Qed.

Lemma endsInWord_name (prevW : bool) : RegExp.endsInWord prevW name = true.
Proof.
  unfold RegExp.endsInWord.
  destruct (rev name) as [|c r] eqn:E.
  - apply (f_equal (@length _)) in E. rewrite length_rev in E. discriminate.
  - assert (In c name) by (apply in_rev; rewrite E; now left).
    now apply (proj1 (forallb_forall _ _) name_words).
Qed.

(** At the start of a run, [\bNAME\b] matches exactly when the run is
    [name]. *)
Lemma matchAt_start (c : ascii) (s : text) :
  isWordChar c = true ->
  match RegExp.matchAt name false (c :: s) with
  | Some rest => c :: RegExp.wordRun s = name /\ c :: s = name ++ rest
                 /\ RegExp.wordRun rest = []
  | None => c :: RegExp.wordRun s <> name
  end.
Proof.
  intro Hc. unfold RegExp.matchAt.
  replace (RegExp.boundary false (c :: s)) with true
    by (unfold RegExp.boundary; now rewrite Hc).
  rewrite endsInWord_name.
  destruct (prefix name (c :: s)) as [rest|] eqn:P.
  - apply prefix_spec in P.
    assert (W : RegExp.wordRun (c :: s) = name ++ RegExp.wordRun rest)
      by (rewrite P; now apply wordRun_app).
    cbn [RegExp.wordRun] in W. rewrite Hc in W.
    unfold RegExp.boundary.
    destruct rest as [|d rest].
    + cbn [RegExp.wordRun] in *. rewrite app_nil_r in W. simpl xorb.
      now repeat split.
    + cbn [RegExp.wordRun] in *.
      destruct (isWordChar d) eqn:Hd; simpl xorb.
      * intro E. rewrite E in W.
        apply (f_equal (@length _)) in W. rewrite length_app in W.
        simpl in W. lia.
      * rewrite app_nil_r in W. cbn [RegExp.wordRun]. rewrite Hd.
        now repeat split.
  - intro E.
    assert (c :: s = name ++ dropRun s).
    { rewrite <- E. simpl. now rewrite wordRun_dropRun. }
    apply prefix_spec in H. congruence.
Qed.

Lemma replaceFrom_skip (pre rest before : text) (prevW : bool) :
  forallb isWordChar pre = true ->
  exists before',
    RegExp.replaceFrom name repl (length pre) before prevW (pre ++ rest)
    = RegExp.replaceFrom name repl 0 before'
                         (match pre with [] => prevW | _ :: _ => true end)
                         rest.
Proof.
  revert before prevW. induction pre as [|c pre IH]; intros before p H.
  - now exists before.
  - simpl in H. apply andb_true_iff in H as [Hc Hp].
    destruct (IH (c :: before) (isWordChar c) Hp) as [b' E].
    exists b'. simpl. rewrite E, Hc. now destruct pre.
Qed.

Local Abbreviation sub1 := (replaced (one name repl)).

Lemma sub1_separator (c : ascii) : isWordChar c = false -> sub1 [c] = [c].
Proof.
  intro Hc. unfold replaced, one, text_eqb.
  destruct (text_eq_dec [c] name) as [E|]; [|reflexivity].
  injection E as E _. rewrite E, name0_word in Hc. discriminate.
Qed.

Lemma replaceFrom_tokens (n : nat) :
  forall (s : text), (length s <= n)%nat -> forall before,
    RegExp.replaceFrom name repl 0 before true s
    = RegExp.wordRun s ++ concat (map sub1 (tokensFrom true s))
    /\ RegExp.replaceFrom name repl 0 before false s
       = concat (map sub1 (tokensFrom false s)).
Proof.
  induction n as [|n IH]; intros [|c s] Hlen before;
    try (simpl in Hlen; lia);
    try (cbn [RegExp.replaceFrom]; rewrite !matchAt_end; now split).
  assert (Hs : (length s <= n)%nat) by (simpl in Hlen; lia).
  destruct (isWordChar c) eqn:Hc.
  - split.
    + cbn [RegExp.replaceFrom]. rewrite matchAt_inside, Hc by exact Hc.
      rewrite (proj1 (IH s Hs _)). simpl. now rewrite Hc.
    + cbn [RegExp.replaceFrom].
      pose proof (@matchAt_start c s Hc) as M.
      destruct (RegExp.matchAt name false (c :: s)) as [rest|].
      * destruct M as (Hrun & Hsplit & Hrest).
        rewrite getSubstitution_plain by exact repl_plain.
        injection Hsplit as -> ->.
        destruct (@replaceFrom_skip name' rest (name0 :: before)
                    (isWordChar name0) name'_words) as [b' E].
        rewrite E.
        replace (match name' with [] => isWordChar name0 | _ :: _ => true end)
          with true by (rewrite name0_word; now destruct name').
        assert (Hr : (length rest <= n)%nat)
          by (rewrite length_app in Hs; lia).
        rewrite (proj1 (IH rest Hr _)), Hrest. simpl.
        rewrite name0_word. simpl.
        rewrite tokensFrom_inside by exact name'_words.
        f_equal. unfold replaced, one.
        rewrite Hrun. unfold text_eqb.
        now destruct (text_eq_dec name name).
      * rewrite Hc, (proj1 (IH s Hs _)). simpl. rewrite Hc. simpl.
        unfold replaced at 2. unfold one, text_eqb.
        destruct (text_eq_dec (c :: RegExp.wordRun s) name); [contradiction|].
        reflexivity.
  - cbn [RegExp.replaceFrom]. rewrite !matchAt_separator by exact Hc.
    rewrite Hc, (proj2 (IH s Hs _)). simpl. rewrite Hc. simpl.
    rewrite sub1_separator by exact Hc. now split.
Qed.

Lemma replaceAll_tokens (s : text) :
  RegExp.replaceAll name repl s = concat (map sub1 (tokens s)).
Proof.
  unfold RegExp.replaceAll.
  exact (proj2 (@replaceFrom_tokens (length s) s (le_n _) [])).
Qed.

End OneName.

(** ** Token lists in canonical form *)

Lemma wellFormed_weaken (ts : list text) :
  wellFormed true ts = true -> wellFormed false ts = true.
Proof.
  destruct ts as [|[|c w] ts]; simpl; try congruence.
  destruct (isWordChar c); simpl; congruence.
Qed.

Lemma wellFormed_true_run (ts : list text) :
  wellFormed true ts = true -> RegExp.wordRun (concat ts) = [].
Proof.
  destruct ts as [|[|c w] ts]; simpl; try congruence.
  destruct (isWordChar c); simpl; [discriminate|].
  destruct w; [reflexivity|discriminate].
Qed.

Lemma wellFormed_tokensFrom (prevW : bool) (s : text) :
  wellFormed prevW (tokensFrom prevW s) = true.
Proof.
  revert prevW. induction s as [|c s IH]; intro p; simpl; [reflexivity|].
  destruct (isWordChar c) eqn:Hc.
  - destruct p; [apply IH|]. simpl. now rewrite Hc, wordRun_words, IH.
  - simpl. rewrite Hc. apply IH.
Qed.

Lemma tokensFrom_concat (prevW : bool) (ts : list text) :
  wellFormed prevW ts = true -> tokensFrom prevW (concat ts) = ts.
Proof.
  revert prevW. induction ts as [|[|c w] ts IH]; intros p H; simpl in *;
    try congruence.
  destruct (isWordChar c) eqn:Hc.
  - apply andb_true_iff in H as [H Hts].
    apply andb_true_iff in H as [Hp Hw].
    apply negb_true_iff in Hp. subst p.
    rewrite wordRun_app, (wellFormed_true_run _ Hts), app_nil_r by exact Hw.
    rewrite tokensFrom_inside by exact Hw. now rewrite IH.
  - destruct w; [|discriminate]. simpl. now rewrite IH.
Qed.

Lemma wellFormed_app (p : bool) (a b : list text) :
  wellFormed p a = true -> wellFormed true b = true ->
  wellFormed p (a ++ b) = true.
Proof.
  revert p. induction a as [|[|c w] a IH]; intros p Ha Hb; simpl in *;
    try congruence.
  - destruct p; [exact Hb|now apply wellFormed_weaken].
  - destruct (isWordChar c).
    + apply andb_true_iff in Ha as [H Ha]. rewrite H. now apply IH.
    + destruct w; [now apply IH|discriminate].
Qed.

Lemma wellFormed_substTokens (f : text -> option text) (p : bool)
      (ts : list text) :
  wordTokensOnly f ->
  wellFormed p ts = true -> wellFormed p (substTokens f ts) = true.
Proof.
  intro Hf. revert p. induction ts as [|[|c w] ts IH]; intros p H;
    simpl in *; try congruence.
  destruct (isWordChar c) eqn:Hc.
  - apply andb_true_iff in H as [H Hts].
    apply andb_true_iff in H as [Hp Hw].
    apply negb_true_iff in Hp. subst p.
    destruct (f (c :: w)) as [v|].
    + apply wellFormed_app; [apply wellFormed_tokensFrom|now apply IH].
    + simpl. now rewrite Hc, Hw, IH.
  - destruct w; [|discriminate].
    destruct (f [c]) as [v|] eqn:E.
    + apply Hf in E. congruence.
    + simpl. rewrite Hc. now apply IH.
Qed.

Lemma concat_substTokens (f : text -> option text) (ts : list text) :
  concat (substTokens f ts) = concat (map (replaced f) ts).
Proof.
  unfold substTokens, replaced.
  induction ts as [|t ts IH]; simpl; [reflexivity|].
  rewrite concat_app, IH. f_equal.
  destruct (f t); [apply concat_tokens|apply app_nil_r].
Qed.

Lemma one_wordTokensOnly (n v : text) : wordName n -> wordTokensOnly (one n v).
Proof.
  intros [Hn Hw] t u. unfold one, text_eqb.
  destruct (text_eq_dec t n) as [->|]; [|discriminate].
  intros _. destruct n as [|c n]; [congruence|].
  simpl in Hw. now apply andb_true_iff in Hw.
Qed.

Lemma lookup_wordTokensOnly (ps : list Param) :
  Forall (fun p => wordName (param_name p)) ps -> wordTokensOnly (lookup ps).
Proof.
  intros H t v. unfold lookup.
  destruct (find _ ps) as [p|] eqn:F; [|discriminate]. intros _.
  apply find_some in F as [Hin E].
  unfold text_eqb in E. destruct (text_eq_dec t (param_name p)) as [->|];
    [|discriminate].
  rewrite Forall_forall in H. destruct (H p Hin) as [Hn Hw].
  destruct (param_name p) as [|c n]; [congruence|].
  simpl in Hw. now apply andb_true_iff in Hw.
Qed.

(** ** The substitution of the parameters, one after the other *)

Section Sequential.

Context {host : Host}.

Lemma replaceParameter_tokens (n v : text) (ts : list text) :
  wordName n -> noDollar v -> wellFormed false ts = true ->
  replaceParameter n v (concat ts)
  = Normal (concat (substTokens (one n v) ts)).
Proof.
  intros [Hn Hw] Hv Hts. unfold replaceParameter.
  rewrite wordName_literal by exact Hw.
  destruct n as [|c n]; [congruence|].
  rewrite replaceAll_tokens by assumption.
  unfold tokens. rewrite tokensFrom_concat by exact Hts.
  now rewrite concat_substTokens.
Qed.

Lemma substituteParameters_tokens (ps : list Param) (ts : list text) :
  Forall (fun p => wordName (param_name p)) ps ->
  Forall (fun p => noDollar (valueToString (param_value p))) ps ->
  wellFormed false ts = true ->
  substituteParameters (concat ts) ps
  = Normal (concat (fold_left substStep ps ts)).
Proof.
  unfold substituteParameters.
  revert ts. induction ps as [|p ps IH]; intros ts Hn Hv Hts; simpl;
    [reflexivity|].
  inversion Hn as [|? ? Hn1 Hn2]; inversion Hv as [|? ? Hv1 Hv2]; subst.
  rewrite replaceParameter_tokens by assumption.
  apply IH; try assumption.
  apply wellFormed_substTokens; [now apply one_wordTokensOnly|assumption].
Qed.

End Sequential.

Lemma substTokens_none (f : text -> option text) (ts : list text) :
  (forall t, In t ts -> f t = None) -> substTokens f ts = ts.
Proof.
  unfold substTokens. induction ts as [|t ts IH]; simpl; intro H;
    [reflexivity|].
  rewrite (H t (or_introl eq_refl)). simpl. f_equal. apply IH. auto.
Qed.

Lemma substTokens_app (f : text -> option text) (a b : list text) :
  substTokens f (a ++ b) = substTokens f a ++ substTokens f b.
Proof. unfold substTokens. apply flat_map_app. Qed.

Lemma lookup_none (ps : list Param) (t : text) :
  ~ In t (map param_name ps) -> lookup ps t = None.
Proof.
  intro H. unfold lookup.
  destruct (find _ ps) as [p|] eqn:F; [|reflexivity].
  apply find_some in F as [Hin E]. exfalso. apply H.
  unfold text_eqb in E. destruct (text_eq_dec t (param_name p)) as [->|];
    [|discriminate].
  now apply in_map.
Qed.

(** When no value holds the name of a later parameter as a token, replacing
    the parameters in turn is replacing them all at once. *)
Lemma sequential_simultaneous (ps : list Param) (ts : list text) :
  (forall p q, In p ps -> In q ps ->
     ~ In (param_name q) (tokens (valueToString (param_value p)))) ->
  fold_left substStep ps ts = substTokens (lookup ps) ts.
Proof.
  revert ts. induction ps as [|p ps IH]; intros ts H; simpl.
  - symmetry. now apply substTokens_none.
  - rewrite IH by (intros; apply H; now right).
    unfold substStep.
    induction ts as [|t ts IHts]; [reflexivity|].
    change (substTokens ?f (t :: ts))
      with ((match f t with Some v => tokens v | None => [t] end)
              ++ substTokens f ts).
    rewrite substTokens_app, IHts. f_equal.
    unfold one, lookup. cbn [find].
    destruct (text_eqb t (param_name p)).
    + apply substTokens_none. intros u Hu. apply lookup_none.
      intro Hin. apply in_map_iff in Hin as (q & <- & Hq).
      apply (H p q); [now left|now right|exact Hu].
    + unfold substTokens. simpl. apply app_nil_r.
Qed.

Lemma lookup_permutation (ps ps' : list Param) (t : text) :
  NoDup (map param_name ps) -> Permutation ps ps' ->
  lookup ps' t = lookup ps t.
Proof.
  intros Hnd Hp. induction Hp as [|p l l' Hp IH|p q l|l l' l'' H1 IH1 H2 IH2].
  - reflexivity.
  - inversion Hnd; subst. unfold lookup in *. cbn [find].
    destruct (text_eqb t (param_name p)); [reflexivity|now apply IH].
  - unfold lookup. cbn [find].
    destruct (text_eqb t (param_name p)) eqn:Ep;
      destruct (text_eqb t (param_name q)) eqn:Eq; try reflexivity.
    apply text_eqb_eq in Ep, Eq. exfalso.
    simpl in Hnd. inversion Hnd as [|? ? Hn _]; subst.
    apply Hn. left. congruence.
  - rewrite IH2, IH1; [reflexivity|assumption|].
    apply (Permutation_NoDup (Permutation_map param_name H1) Hnd).
Qed.

(** ** Identifiers are tokens *)

Lemma separator_not_identStart (c : ascii) :
  isWordChar c = false -> isIdentStart c = false.
Proof.
  intro H. destruct (isIdentStart c) eqn:E; [|reflexivity].
  apply identStart_wordChar in E. congruence.
Qed.

Lemma matchIdentifiers_tokens (prevW : bool) (s : text) :
  RegExp.matchIdentifiers prevW s
  = filter startsIdentifier (tokensFrom prevW s).
Proof.
  revert prevW. induction s as [|c s IH]; intro p; simpl; [reflexivity|].
  destruct (isWordChar c) eqn:Hc.
  - destruct p; simpl; [apply IH|].
    destruct (isIdentStart c); now rewrite IH.
  - rewrite (separator_not_identStart _ Hc), andb_false_r. simpl.
    rewrite (separator_not_identStart _ Hc). apply IH.
Qed.

Lemma filter_substTokens (f : text -> option text) (ts : list text) :
  (forall t v, In t ts -> f t = Some v ->
               filter startsIdentifier (tokens v) = []) ->
  (forall t, In t ts -> f t = None -> startsIdentifier t = false) ->
  filter startsIdentifier (substTokens f ts) = [].
Proof.
  unfold substTokens. induction ts as [|t ts IH]; intros Hs Hn; simpl;
    [reflexivity|].
  rewrite filter_app, IH by (intros; eauto using in_cons).
  rewrite app_nil_r.
  destruct (f t) as [v|] eqn:E.
  - apply (Hs t); [now left|exact E].
  - simpl. now rewrite (Hn t (or_introl eq_refl) E).
Qed.

(** ** The text of a finite number *)

Lemma matchIdentifiers_app (p : bool) (a b : text) :
  RegExp.matchIdentifiers p a = [] ->
  RegExp.matchIdentifiers (classAfter p a) b = [] ->
  RegExp.matchIdentifiers p (a ++ b) = [].
Proof.
  revert p. induction a as [|c a IH]; intros p Ha Hb; simpl in *;
    [exact Hb|].
  destruct (negb p && isIdentStart c); [discriminate|]. now apply IH.
Qed.

Lemma digit_class (c : ascii) :
  isDigit c = true -> isIdentStart c = false /\ isWordChar c = true.
Proof.
  destruct c as [[] [] [] [] [] [] [] []]; vm_compute; intuition congruence.
Qed.

Lemma matchIdentifiers_digits (p : bool) (ds : text) :
  forallb isDigit ds = true -> RegExp.matchIdentifiers p ds = [].
Proof.
  revert p. induction ds as [|d ds IH]; intros p H; simpl in *;
    [reflexivity|].
  apply andb_true_iff in H as [Hd Hds].
  destruct (digit_class _ Hd) as [-> _]. rewrite andb_false_r. now apply IH.
Qed.

Lemma classAfter_digits (p : bool) (ds : text) :
  forallb isDigit ds = true -> ds <> [] -> classAfter p ds = true.
Proof.
  intros H N. destruct ds as [|d ds]; [congruence|]. clear N.
  unfold classAfter. revert p d H.
  induction ds as [|e ds IH]; intros p d H; simpl in *.
  - rewrite andb_true_r in H. now apply digit_class.
  - apply andb_true_iff in H as [_ H]. apply (IH true e H).
Qed.

Lemma digitChar_digit (d : Z) : (0 <= d < 10)%Z -> isDigit (Num.digitChar d) = true.
Proof.
  intro H.
  assert (E : (d = 0 \/ d = 1 \/ d = 2 \/ d = 3 \/ d = 4 \/ d = 5 \/ d = 6
               \/ d = 7 \/ d = 8 \/ d = 9)%Z) by lia.
  repeat destruct E as [->|E]; try subst d; reflexivity.
Qed.

Lemma digitsOf_digits (fuel : nat) (n : Z) (acc : text) :
  forallb isDigit acc = true ->
  forallb isDigit (Num.digitsOf fuel n acc) = true.
Proof.
  revert n acc. induction fuel as [|fuel IH]; intros n acc H; simpl;
    [exact H|].
  assert (H' : forallb isDigit (Num.digitChar (n mod 10) :: acc) = true).
  { simpl. rewrite H, digitChar_digit; [reflexivity|].
    apply Z.mod_pos_bound. lia. }
  destruct (n <? 10)%Z; [exact H'|now apply IH].
Qed.

Lemma digitsOf_nonempty (fuel : nat) (n : Z) (acc : text) :
  acc <> [] -> Num.digitsOf fuel n acc <> [].
Proof.
  revert n acc. induction fuel as [|fuel IH]; intros n acc H; simpl;
    [exact H|].
  destruct (n <? 10)%Z; [discriminate|]. apply IH. discriminate.
Qed.

Lemma decimal_digits (n : Z) :
  forallb isDigit (Num.decimal n) = true /\ Num.decimal n <> [].
Proof.
  unfold Num.decimal. split.
  - now apply digitsOf_digits.
  - simpl. destruct (n <? 10)%Z; [discriminate|].
    apply digitsOf_nonempty. discriminate.
Qed.

Lemma zeros_digits (n : Z) : forallb isDigit (Num.zeros n) = true.
Proof.
  unfold Num.zeros. induction (Z.to_nat n); simpl; [reflexivity|assumption].
Qed.

Lemma forallb_digits_app (a b : text) :
  forallb isDigit a = true -> forallb isDigit b = true ->
  forallb isDigit (a ++ b) = true.
Proof. intros. rewrite forallb_app. now apply andb_true_iff. Qed.

Lemma forallb_firstn (n : nat) (ds : text) :
  forallb isDigit ds = true -> forallb isDigit (firstn n ds) = true.
Proof.
  intro H. rewrite <- (firstn_skipn n ds), forallb_app in H.
  now apply andb_true_iff in H.
Qed.

Lemma forallb_skipn (n : nat) (ds : text) :
  forallb isDigit ds = true -> forallb isDigit (skipn n ds) = true.
Proof.
  intro H. rewrite <- (firstn_skipn n ds), forallb_app in H.
  now apply andb_true_iff in H.
Qed.

(** Digits, then possibly a point and digits, then possibly an exponent:
    no identifier starts in such a text, whatever precedes it. *)
Lemma matchIdentifiers_exponent (sign : ascii) (ds : text) :
  sign = "+"%char \/ sign = "-"%char ->
  forallb isDigit ds = true ->
  RegExp.matchIdentifiers true ("e"%char :: sign :: ds) = [].
Proof.
  intros [->| ->] H; simpl; now apply matchIdentifiers_digits.
Qed.

Lemma matchIdentifiers_layout (p : bool) (ds : text) (n : Z) :
  forallb isDigit ds = true -> ds <> [] ->
  RegExp.matchIdentifiers p (Num.layout ds n) = [].
Proof.
  intros H N. unfold Num.layout.
  destruct (_ && _).
  { apply matchIdentifiers_digits, forallb_digits_app;
      [exact H|apply zeros_digits]. }
  destruct (_ && _).
  { apply matchIdentifiers_app.
    - now apply matchIdentifiers_digits, forallb_firstn.
    - simpl. rewrite andb_false_r.
      now apply matchIdentifiers_digits, forallb_skipn. }
  destruct (_ && _).
  { simpl. rewrite !andb_false_r.
    apply matchIdentifiers_digits, forallb_digits_app;
      [apply zeros_digits|exact H]. }
  assert (S : (if (0 <=? n - 1)%Z then "+"%char else "-"%char) = "+"%char
              \/ (if (0 <=? n - 1)%Z then "+"%char else "-"%char) = "-"%char)
    by (destruct (0 <=? n - 1)%Z; auto).
  pose proof (proj1 (decimal_digits (Z.abs (n - 1)))) as D.
  destruct ds as [|d [|d' rest]]; [congruence| |].
  - simpl in H. rewrite andb_true_r in H.
    destruct (digit_class _ H) as [Hi Hw].
    cbn [RegExp.matchIdentifiers]. rewrite Hi, andb_false_r, Hw.
    now apply matchIdentifiers_exponent.
  - simpl in H. apply andb_true_iff in H as [Hd H].
    destruct (digit_class _ Hd) as [Hi Hw].
    cbn [RegExp.matchIdentifiers]. rewrite Hi, andb_false_r.
    replace (negb (isWordChar d) && isIdentStart "."%char) with false
      by now rewrite andb_false_r.
    replace (isWordChar "."%char) with false by reflexivity.
    apply matchIdentifiers_app.
    + now apply matchIdentifiers_digits.
    + rewrite classAfter_digits by (assumption || discriminate).
      now apply matchIdentifiers_exponent.
Qed.

Lemma digit_plain (c : ascii) :
  isDigit c = true -> negb (c =? "$")%char = true.
Proof.
  destruct c as [[] [] [] [] [] [] [] []]; vm_compute; congruence.
Qed.

Lemma noDollar_digits (ds : text) : forallb isDigit ds = true -> noDollar ds.
Proof.
  unfold noDollar. rewrite !forallb_forall. intros H c Hc.
  now apply digit_plain, H.
Qed.

Lemma noDollar_app (a b : text) : noDollar a -> noDollar b -> noDollar (a ++ b).
Proof.
  unfold noDollar. intros Ha Hb. rewrite forallb_app. now rewrite Ha, Hb.
Qed.

Lemma noDollar_cons (c : ascii) (a : text) :
  negb (c =? "$")%char = true -> noDollar a -> noDollar (c :: a).
Proof. unfold noDollar. simpl. now intros -> ->. Qed.

Lemma noDollar_layout (ds : text) (n : Z) :
  forallb isDigit ds = true -> noDollar (Num.layout ds n).
Proof.
  intro H. unfold Num.layout.
  pose proof (noDollar_digits _ H) as P.
  pose proof (noDollar_digits _ (zeros_digits (n - Z.of_nat (length ds)))).
  pose proof (noDollar_digits _ (zeros_digits (- n))).
  pose proof (noDollar_digits _ (forallb_firstn (Z.to_nat n) _ H)).
  pose proof (noDollar_digits _ (forallb_skipn (Z.to_nat n) _ H)).
  pose proof (noDollar_digits _ (proj1 (decimal_digits (Z.abs (n - 1))))) as D.
  assert (E : noDollar ("e"%char
                :: (if (0 <=? n - 1)%Z then "+"%char else "-"%char)
                :: Num.decimal (Z.abs (n - 1)))).
  { apply noDollar_cons; [reflexivity|].
    apply noDollar_cons; [now destruct (0 <=? n - 1)%Z|exact D]. }
  repeat match goal with
         | |- context [if ?b then _ else _] =>
             lazymatch b with
             | (_ && _) => destruct b
             end
         end;
    repeat first [ assumption | apply noDollar_app
                 | apply noDollar_cons; [reflexivity|] ].
  destruct ds as [|d [|d' rest]]; [exact E| |].
  - apply noDollar_cons; [|exact E].
    simpl in H. rewrite andb_true_r in H. now apply digit_plain.
  - simpl in H. apply andb_true_iff in H as [Hd H].
    apply noDollar_cons; [now apply digit_plain|].
    apply noDollar_cons; [reflexivity|].
    apply noDollar_app; [now apply noDollar_digits|exact E].
Qed.

Lemma toString_finite (x : float) :
  is_finite x = true ->
  RegExp.matchIdentifiers false (Num.toString x) = []
  /\ noDollar (Num.toString x).
Proof.
  unfold is_finite. intro H. apply negb_true_iff, orb_false_iff in H.
  destruct H as [Hn Hi]. unfold Num.toString. rewrite Hn, Hi.
  destruct (is_zero x); [split; reflexivity|].
  unfold Num.digitsText.
  destruct (Num.toRatio (abs x)) as [p q].
  destruct (Num.shortest _ _ _ _ _ _) as [s n].
  destruct (decimal_digits s) as [D N].
  destruct (x <? 0)%float; simpl app.
  - split.
    + cbn [RegExp.matchIdentifiers]. simpl negb. simpl andb.
      now apply matchIdentifiers_layout.
    + apply noDollar_cons; [reflexivity|now apply noDollar_layout].
  - split; [now apply matchIdentifiers_layout|now apply noDollar_layout].
Qed.

Lemma identifier_token (n : text) (v : text) :
  identifierName n -> RegExp.matchIdentifiers false v = [] ->
  ~ In n (tokens v).
Proof.
  intros Hn Hv Hin. rewrite matchIdentifiers_tokens in Hv.
  assert (In n (filter startsIdentifier (tokensFrom false v))).
  { apply filter_In. split; [exact Hin|].
    destruct n as [|c w]; [contradiction|]. now destruct Hn. }
  rewrite Hv in H. contradiction.
Qed.

(** Finite numbers under identifier names are self-contained. *)
Lemma finite_selfContained (ps : list Param) :
  Forall (fun p => identifierName (param_name p)) ps ->
  Forall (fun p => finiteNumber (param_value p)) ps ->
  selfContained ps.
Proof.
  rewrite !Forall_forall. intros Hn Hv p Hp.
  specialize (Hv p Hp). destruct (param_value p) as [x|s]; [|contradiction].
  destruct (toString_finite _ Hv) as [Hm Hd].
  split; [exact Hd|]. intros q Hq.
  apply identifier_token; [now apply Hn|exact Hm].
Qed.

Unset Implicit Arguments.

(* ------------------------------------------------------------------ *)
(** * Values spliced as text and values as operands *)

(** ** The lexer *)

Lemma lexFrom_fuel (n : nat) :
  forall (s : text) (f1 f2 : nat),
    (length s <= n)%nat -> (length s < f1)%nat -> (length s < f2)%nat ->
    Arith.lexFrom f1 s = Arith.lexFrom f2 s.
Proof.
  induction n as [|n IH]; intros [|c r] [|f1] [|f2] Hn H1 H2;
    simpl in *; try lia; try reflexivity.
  destruct (Arith.isBlank c); [apply IH; lia|].
  destruct (Arith.nextToken c r) as [[t r']|]; [|reflexivity].
  destruct (Nat.leb (length r') (length r)) eqn:E; [|reflexivity].
  apply Nat.leb_le in E. f_equal. apply IH; lia.
Qed.

Lemma lex_nil : Arith.lex [] = Some [].
Proof. reflexivity. Qed.

Lemma lexFrom_cons (f : nat) (c : ascii) (r : text) :
  Arith.lexFrom (S f) (c :: r) =
  if Arith.isBlank c then Arith.lexFrom f r
  else match Arith.nextToken c r with
       | Some (t, r') =>
           if Nat.leb (length r') (length r)
           then option_map (cons t) (Arith.lexFrom f r')
           else None
       | None => None
       end.
Proof. reflexivity. Qed.

Lemma lex_cons (c : ascii) (r : text) :
  Arith.lex (c :: r) =
  if Arith.isBlank c then Arith.lex r
  else match Arith.nextToken c r with
       | Some (t, r') =>
           if Nat.leb (length r') (length r)
           then option_map (cons t) (Arith.lex r')
           else None
       | None => None
       end.
Proof.
  unfold Arith.lex. change (length (c :: r)) with (S (length r)).
  rewrite lexFrom_cons.
  destruct (Arith.isBlank c).
  - apply (lexFrom_fuel (length r)); lia.
  - destruct (Arith.nextToken c r) as [[t r']|]; [|reflexivity].
    destruct (Nat.leb (length r') (length r)) eqn:E; [|reflexivity].
    apply Nat.leb_le in E. f_equal. apply (lexFrom_fuel (length r')); lia.
Qed.

(** ** Literals followed by more text *)

Lemma span_app (p : ascii -> bool) (s R a b : text) :
  Arith.span p s = (a, b) -> b <> [] \/ stops p R ->
  Arith.span p (s ++ R) = (a, b ++ R).
Proof.
  revert a b. induction s as [|c s IH]; intros a b H HR; simpl in *.
  - injection H as <- <-. destruct HR as [N|HR]; [congruence|].
    destruct R as [|d R]; [reflexivity|]. simpl in *. now rewrite HR.
  - destruct (p c).
    + destruct (Arith.span p s) as [a' b'] eqn:E. injection H as <- <-.
      now rewrite (IH a' b' eq_refl HR).
    + now injection H as <- <-.
Qed.

Lemma span_length (p : ascii -> bool) (s a b : text) :
  Arith.span p s = (a, b) -> s = a ++ b.
Proof.
  revert a b. induction s as [|c s IH]; intros a b H; simpl in *.
  - now injection H as <- <-.
  - destruct (p c).
    + destruct (Arith.span p s) as [a' b'] eqn:E. injection H as <- <-.
      simpl. f_equal. now apply IH.
    + now injection H as <- <-.
Qed.

Lemma safeHead_stops (R : text) : safeHead R -> stops isDigit R.
Proof. destruct R; simpl; tauto. Qed.

Lemma lexExponent_app (s R rest : text) (e : Z) :
  Arith.lexExponent s = Some (e, rest) -> rest <> [] \/ safeHead R ->
  Arith.lexExponent (s ++ R) = Some (e, rest ++ R).
Proof.
  intros H HR. destruct s as [|c r]; simpl in *.
  - injection H as <- <-. destruct HR as [N|HR]; [congruence|].
    destruct R as [|d R]; [reflexivity|]. simpl in *.
    destruct HR as (_ & -> & _). reflexivity.
  - destruct (Arith.isExponentMark c); [|now injection H as <- <-].
    assert (G : forall r1 neg,
               (let (ds, r2) := Arith.span isDigit r1 in
                match ds with
                | [] => None
                | _ :: _ => Some (if neg : bool then (- Num.digitsVal ds)%Z
                                  else Num.digitsVal ds, r2)
                end) = Some (e, rest) ->
               (let (ds, r2) := Arith.span isDigit (r1 ++ R) in
                match ds with
                | [] => None
                | _ :: _ => Some (if neg then (- Num.digitsVal ds)%Z
                                  else Num.digitsVal ds, r2)
                end) = Some (e, rest ++ R)).
    { intros r1 neg G. destruct (Arith.span isDigit r1) as [ds r2] eqn:E.
      destruct ds as [|d ds]; [discriminate|]. injection G as <- <-.
      rewrite (span_app _ _ R _ _ E); [reflexivity|].
      destruct HR as [N|HR]; [now left|right; now apply safeHead_stops]. }
    destruct r as [|d r']; simpl in *; [discriminate|].
    destruct (d =? "-")%char; [exact (G r' true H)|].
    destruct (d =? "+")%char; [exact (G r' false H)|exact (G (d :: r') false H)].
Qed.

Lemma lexExponent_stopper (k : ascii) (s R : text) :
  stopper k ->
  Arith.lexExponent (s ++ k :: R) =
  match Arith.lexExponent s with
  | Some (e, rest) => Some (e, rest ++ k :: R)
  | None => None
  end.
Proof.
  intros (Kd & Ke & Kp & Kplus & Kminus & Kstar).
  destruct s as [|c r]; simpl.
  - now rewrite Ke.
  - destruct (Arith.isExponentMark c); [|reflexivity].
    assert (G : forall r1 neg,
               (let (ds, r2) := Arith.span isDigit (r1 ++ k :: R) in
                match ds with
                | [] => None
                | _ :: _ => Some (if neg : bool then (- Num.digitsVal ds)%Z
                                  else Num.digitsVal ds, r2)
                end) =
               match (let (ds, r2) := Arith.span isDigit r1 in
                      match ds with
                      | [] => None
                      | _ :: _ => Some (if neg then (- Num.digitsVal ds)%Z
                                        else Num.digitsVal ds, r2)
                      end) with
               | Some (e, rest) => Some (e, rest ++ k :: R)
               | None => None
               end).
    { intros r1 neg. destruct (Arith.span isDigit r1) as [ds r2] eqn:E.
      rewrite (span_app _ _ (k :: R) _ _ E) by (right; exact Kd).
      now destruct ds. }
    destruct r as [|d r']; simpl.
    + rewrite Kminus, Kplus. exact (G [] false).
    + destruct (d =? "-")%char; [exact (G r' true)|].
      destruct (d =? "+")%char; [exact (G r' false)|exact (G (d :: r') false)].
Qed.

Lemma lexFraction_app (r1 R fp r2 : text) :
  Arith.lexFraction r1 = (fp, r2) -> r2 <> [] \/ safeHead R ->
  Arith.lexFraction (r1 ++ R) = (fp, r2 ++ R).
Proof.
  intros H HR. destruct r1 as [|c r]; simpl in *.
  - injection H as <- <-. destruct HR as [N|HR]; [congruence|].
    destruct R as [|d R]; [reflexivity|]. simpl in *.
    destruct HR as (_ & _ & ->). reflexivity.
  - destruct (c =? ".")%char; [|now injection H as <- <-].
    apply span_app; [exact H|].
    destruct HR as [N|HR]; [now left|right; now apply safeHead_stops].
Qed.

Lemma lexFraction_stopper (k : ascii) (r1 R : text) :
  stopper k ->
  Arith.lexFraction (r1 ++ k :: R) =
  (fst (Arith.lexFraction r1), snd (Arith.lexFraction r1) ++ k :: R).
Proof.
  intros (Kd & Ke & Kp & _). destruct r1 as [|c r]; simpl.
  - now rewrite Kp.
  - destruct (c =? ".")%char; [|reflexivity].
    destruct (Arith.span isDigit r) as [fp r2] eqn:E.
    now rewrite (span_app _ _ (k :: R) _ _ E) by (right; exact Kd).
Qed.

Lemma literalOf_app (ip fp r2 R rest : text) (x : float) :
  Arith.literalOf ip fp r2 = Some (x, rest) -> rest <> [] \/ safeHead R ->
  Arith.literalOf ip fp (r2 ++ R) = Some (x, rest ++ R).
Proof.
  unfold Arith.literalOf. intros H HR.
  destruct (ip ++ fp); [discriminate|].
  destruct (Arith.leadingZero ip); [discriminate|].
  destruct (Arith.lexExponent r2) as [[e r3]|] eqn:E; [|discriminate].
  injection H as <- <-. now rewrite (lexExponent_app _ R _ _ E HR).
Qed.

Lemma literalOf_stopper (k : ascii) (ip fp r2 R : text) :
  stopper k ->
  Arith.literalOf ip fp (r2 ++ k :: R) =
  match Arith.literalOf ip fp r2 with
  | Some (x, rest) => Some (x, rest ++ k :: R)
  | None => None
  end.
Proof.
  intro K. unfold Arith.literalOf.
  destruct (ip ++ fp); [reflexivity|].
  destruct (Arith.leadingZero ip); [reflexivity|].
  rewrite (lexExponent_stopper _ _ _ K).
  now destruct (Arith.lexExponent r2) as [[e r3]|].
Qed.

Lemma literalOf_rest (ip fp rest : text) (x : float) :
  Arith.literalOf ip fp [] = Some (x, rest) -> rest = [].
Proof.
  unfold Arith.literalOf.
  destruct (ip ++ fp); [discriminate|].
  destruct (Arith.leadingZero ip); [discriminate|].
  simpl. now intros [= _ <-].
Qed.

(** A literal read from [s] is read the same from [s ++ R] when it ends
    before the end of [s] or [R] does not go on it. *)
Lemma lexNumber_app (s R rest : text) (x : float) :
  Arith.lexNumber s = Some (x, rest) -> rest <> [] \/ safeHead R ->
  Arith.lexNumber (s ++ R) = Some (x, rest ++ R).
Proof.
  unfold Arith.lexNumber. intros H HR.
  destruct (Arith.span isDigit s) as [ip r1] eqn:E1.
  destruct (Arith.lexFraction r1) as [fp r2] eqn:E2.
  assert (H2 : r2 <> [] \/ safeHead R).
  { destruct r2; [|left; discriminate].
    apply literalOf_rest in H. subst rest. exact HR. }
  assert (H1 : r1 <> [] \/ stops isDigit R).
  { destruct r1; [|left; discriminate].
    simpl in E2. injection E2 as <- <-.
    destruct H2 as [N|S]; [congruence|right; now apply safeHead_stops]. }
  rewrite (span_app _ _ R _ _ E1 H1), (lexFraction_app _ R _ _ E2 H2).
  now apply literalOf_app.
Qed.

Lemma lexNumber_stopper (k : ascii) (s R : text) :
  stopper k ->
  Arith.lexNumber (s ++ k :: R) =
  match Arith.lexNumber s with
  | Some (x, rest) => Some (x, rest ++ k :: R)
  | None => None
  end.
Proof.
  intro K. unfold Arith.lexNumber.
  destruct (Arith.span isDigit s) as [ip r1] eqn:E1.
  rewrite (span_app _ _ (k :: R) _ _ E1) by (right; apply K).
  rewrite (lexFraction_stopper _ _ _ K).
  destruct (Arith.lexFraction r1) as [fp r2]. simpl.
  now apply literalOf_stopper.
Qed.

(** ** Tokens of a text in two parts *)

Lemma nextToken_stopper (k c : ascii) (r R : text) :
  stopper k ->
  Arith.nextToken c (r ++ k :: R) =
  match Arith.nextToken c r with
  | Some (t, r') => Some (t, r' ++ k :: R)
  | None => None
  end.
Proof.
  intros K. pose proof K as (Kd & Ke & Kp & Kplus & Kminus & Kstar).
  unfold Arith.nextToken.
  destruct (isDigit c || (c =? ".")%char).
  { change (c :: r ++ k :: R) with ((c :: r) ++ k :: R).
    rewrite (lexNumber_stopper _ _ _ K).
    now destruct (Arith.lexNumber (c :: r)) as [[x rest]|]. }
  destruct (c =? "+")%char.
  { destruct r as [|d r]; simpl; [now rewrite Kplus|].
    now destruct (d =? "+")%char. }
  destruct (c =? "-")%char.
  { destruct r as [|d r]; simpl; [now rewrite Kminus|].
    now destruct (d =? "-")%char. }
  destruct (c =? "*")%char.
  { destruct r as [|d r]; simpl; [now rewrite Kstar|].
    now destruct (d =? "*")%char. }
  repeat match goal with |- context [if ?b then _ else _] => destruct b end;
    reflexivity.
Qed.

Lemma lex_stopper (k : ascii) (R : text) (n : nat) :
  stopper k ->
  forall A, (length A <= n)%nat ->
    Arith.lex (A ++ k :: R) =
    match Arith.lex A with
    | Some LA => option_map (app LA) (Arith.lex (k :: R))
    | None => None
    end.
Proof.
  intro K. induction n as [|n IH]; intros [|c r] Hn; simpl in Hn; try lia.
  - rewrite lex_nil. simpl. now destruct (Arith.lex (k :: R)).
  - rewrite lex_nil. simpl. now destruct (Arith.lex (k :: R)).
  - change ((c :: r) ++ k :: R) with (c :: (r ++ k :: R)).
    rewrite (lex_cons c r), (lex_cons c (r ++ k :: R)).
    destruct (Arith.isBlank c); [apply IH; lia|].
    rewrite (nextToken_stopper _ _ _ _ K).
    destruct (Arith.nextToken c r) as [[t r']|]; [|reflexivity].
    rewrite !length_app. simpl length.
    replace (Nat.leb (length r' + S (length R)) (length r + S (length R)))
      with (Nat.leb (length r') (length r)).
    2:{ destruct (Nat.leb_spec (length r') (length r));
        symmetry; [apply Nat.leb_le|apply Nat.leb_gt]; lia. }
    destruct (Nat.leb (length r') (length r)) eqn:E; [|reflexivity].
    apply Nat.leb_le in E. rewrite IH by lia.
    destruct (Arith.lex r') as [L'|]; [|reflexivity]. simpl.
    now destruct (Arith.lex (k :: R)).
Qed.

Lemma stopper_open : stopper "("%char.
Proof. repeat split. Qed.

Lemma stopper_close : stopper ")"%char.
Proof. repeat split. Qed.

Lemma lex_open (R : text) :
  Arith.lex ("("%char :: R) = option_map (cons Arith.TLParen) (Arith.lex R).
Proof. rewrite lex_cons. simpl. now rewrite Nat.leb_refl. Qed.

Lemma lex_close (R : text) :
  Arith.lex (")"%char :: R) = option_map (cons Arith.TRParen) (Arith.lex R).
Proof. rewrite lex_cons. simpl. now rewrite Nat.leb_refl. Qed.

Lemma nextToken_app (c : ascii) (r R r' : text) (t : Arith.token) :
  Arith.nextToken c r = Some (t, r') ->
  r' <> [] \/ (headIsNum [t] = false /\ noMerge R) ->
  Arith.nextToken c (r ++ R) = Some (t, r' ++ R).
Proof.
  unfold Arith.nextToken. intros H HR.
  destruct (isDigit c || (c =? ".")%char).
  { destruct (Arith.lexNumber (c :: r)) as [[x rest]|] eqn:E; [|discriminate].
    injection H as <- <-.
    change (c :: r ++ R) with ((c :: r) ++ R).
    rewrite (lexNumber_app _ R _ _ E); [reflexivity|].
    destruct HR as [N|[F _]]; [now left|discriminate]. }
  assert (M : r = [] -> noMerge R).
  { intros ->.
    destruct HR as [N|[_ M]]; [|exact M]. exfalso. apply N.
    repeat match type of H with
           | context [if ?b then _ else _] => destruct b
           end; now inversion H. }
  destruct (c =? "+")%char.
  { destruct r as [|d r].
    - injection H as <- <-. specialize (M eq_refl).
      destruct R as [|e R]; [reflexivity|]. simpl in *.
      destruct M as (-> & _). reflexivity.
    - simpl. destruct (d =? "+")%char; now injection H as <- <-. }
  destruct (c =? "-")%char.
  { destruct r as [|d r].
    - injection H as <- <-. specialize (M eq_refl).
      destruct R as [|e R]; [reflexivity|]. simpl in *.
      destruct M as (_ & -> & _). reflexivity.
    - simpl. destruct (d =? "-")%char; now injection H as <- <-. }
  destruct (c =? "*")%char.
  { destruct r as [|d r].
    - injection H as <- <-. specialize (M eq_refl).
      destruct R as [|e R]; [reflexivity|]. simpl in *.
      destruct M as (_ & _ & ->). reflexivity.
    - simpl. destruct (d =? "*")%char; now injection H as <- <-. }
  repeat match type of H with
         | context [if ?b then _ else _] => destruct b
         end; now inversion H.
Qed.

Lemma lastIsNum_cons (t : Arith.token) (L : list Arith.token) :
  lastIsNum (t :: L) = false ->
  lastIsNum L = false /\ (L = [] -> headIsNum [t] = false).
Proof.
  destruct L as [|u L]; [|now destruct t].
  destruct t; simpl; intuition congruence.
Qed.

Lemma lex_app (R : text) (n : nat) :
  noMerge R ->
  forall A LA, (length A <= n)%nat ->
    Arith.lex A = Some LA -> lastIsNum LA = false ->
    Arith.lex (A ++ R) = option_map (app LA) (Arith.lex R).
Proof.
  intro M. induction n as [|n IH]; intros [|c r] LA Hn HA HL;
    simpl in Hn; try lia.
  - rewrite lex_nil in HA. injection HA as <-. simpl.
    now destruct (Arith.lex R).
  - rewrite lex_nil in HA. injection HA as <-. simpl.
    now destruct (Arith.lex R).
  - change ((c :: r) ++ R) with (c :: (r ++ R)).
    rewrite lex_cons in HA. rewrite lex_cons.
    destruct (Arith.isBlank c); [apply IH; (lia || assumption)|].
    destruct (Arith.nextToken c r) as [[t r']|] eqn:T; [|discriminate].
    destruct (Nat.leb (length r') (length r)) eqn:E; [|discriminate].
    apply Nat.leb_le in E.
    destruct (Arith.lex r') as [L'|] eqn:HL'; [|discriminate].
    injection HA as <-.
    destruct (lastIsNum_cons _ _ HL) as [HL1 HL2].
    rewrite (nextToken_app _ _ R _ _ T).
    + rewrite !length_app.
      replace (Nat.leb (length r' + length R) (length r + length R))
        with true by (symmetry; apply Nat.leb_le; lia).
      rewrite (IH r' L') by (lia || assumption).
      now destruct (Arith.lex R).
    + destruct r' as [|d r']; [right|left; discriminate].
      rewrite lex_nil in HL'. injection HL' as <-.
      split; [now apply HL2|exact M].
Qed.

(** ** A literal in a text *)

Lemma literal_head (v : text) (x : float) :
  literal v x ->
  exists c v', v = c :: v' /\ isDigit c || (c =? ".")%char = true.
Proof.
  unfold literal, Arith.lexNumber. destruct v as [|c v']; [discriminate|].
  intro H. exists c, v'. split; [reflexivity|].
  destruct (isDigit c) eqn:D; [reflexivity|].
  destruct (c =? ".")%char eqn:P; [reflexivity|].
  simpl in H. rewrite D in H. simpl in H. rewrite P in H. discriminate.
Qed.

Lemma number_start (c : ascii) :
  isDigit c || (c =? ".")%char = true ->
  Arith.isBlank c = false /\ (c =? "+")%char = false
  /\ (c =? "-")%char = false /\ (c =? "*")%char = false.
Proof.
  destruct c as [[] [] [] [] [] [] [] []]; vm_compute; intuition congruence.
Qed.

Lemma literal_noMerge (v B : text) (x : float) :
  literal v x -> noMerge (v ++ B).
Proof.
  intro H. destruct (literal_head _ _ H) as (c & v' & -> & Hc).
  simpl. now apply number_start.
Qed.

Lemma lex_literal (v B : text) (x : float) :
  literal v x -> safeHead B ->
  Arith.lex (v ++ B) = option_map (cons (Arith.TNum x)) (Arith.lex B).
Proof.
  intros H S. pose proof (lexNumber_app _ B _ _ H (or_intror S)) as E.
  destruct (literal_head _ _ H) as (c & v' & -> & Hc).
  change ((c :: v') ++ B) with (c :: (v' ++ B)) in *.
  rewrite lex_cons. rewrite (proj1 (number_start _ Hc)).
  unfold Arith.nextToken. rewrite Hc, E. simpl app.
  replace (Nat.leb (length B) (length (v' ++ B))) with true; [reflexivity|].
  symmetry. apply Nat.leb_le. rewrite length_app. lia.
Qed.

Lemma blank_safe (c : ascii) :
  Arith.isBlank c = true ->
  isDigit c = false /\ Arith.isExponentMark c = false
  /\ (c =? ".")%char = false.
Proof.
  destruct c as [[] [] [] [] [] [] [] []]; vm_compute; intuition congruence.
Qed.

Lemma nextToken_exponentMark (c : ascii) (r : text) :
  Arith.isExponentMark c = true -> Arith.nextToken c r = None.
Proof.
  unfold Arith.isExponentMark. intro H. apply orb_true_iff in H.
  destruct H as [H|H]; apply Ascii.eqb_eq in H; subst c; reflexivity.
Qed.

Lemma lex_safeHead (B : text) (LB : list Arith.token) :
  Arith.lex B = Some LB -> headIsNum LB = false -> safeHead B.
Proof.
  destruct B as [|c r]; [intros; exact I|].
  rewrite lex_cons. intros H N. simpl.
  destruct (Arith.isBlank c) eqn:Bc; [now apply blank_safe|].
  destruct (Arith.isExponentMark c) eqn:Ec.
  { now rewrite nextToken_exponentMark in H. }
  unfold Arith.nextToken in H.
  destruct (isDigit c || (c =? ".")%char) eqn:Dc.
  - exfalso.
    destruct (Arith.lexNumber (c :: r)) as [[x r']|]; [|discriminate].
    destruct (Nat.leb _ _); [|discriminate].
    destruct (Arith.lex r'); [|discriminate].
    injection H as <-. discriminate.
  - apply orb_false_iff in Dc as [-> ->]. now repeat split.
Qed.

(** ** The parser *)

Section ParserFacts.

Import Arith.

Lemma parseUnary_eq (n : nat) (ts : list token) :
  parseUnary (S n) ts =
  match ts with
  | TNum v :: r => Some (ENum v, r)
  | TPlus :: r =>
      match parseUnary n r with
      | Some (e, r') => Some (EPos e, r')
      | None => None
      end
  | TMinus :: r =>
      match parseUnary n r with
      | Some (e, r') => Some (ENeg e, r')
      | None => None
      end
  | TLParen :: r =>
      match parseSum n r with
      | Some (e, TRParen :: r') => Some (e, r')
      | _ => None
      end
  | _ => None
  end.
Proof. reflexivity. Qed.

Lemma parseSum_eq (n : nat) (ts : list token) :
  parseSum (S n) ts =
  match parseProduct n ts with
  | Some (e, r) => sumTail n e r
  | None => None
  end.
Proof. reflexivity. Qed.

Lemma sumTail_eq (n : nat) (acc : expr) (ts : list token) :
  sumTail (S n) acc ts =
  match ts with
  | TPlus :: r =>
      match parseProduct n r with
      | Some (e, r') => sumTail n (EAdd acc e) r'
      | None => None
      end
  | TMinus :: r =>
      match parseProduct n r with
      | Some (e, r') => sumTail n (ESub acc e) r'
      | None => None
      end
  | _ => Some (acc, ts)
  end.
Proof. reflexivity. Qed.

Lemma parseProduct_eq (n : nat) (ts : list token) :
  parseProduct (S n) ts =
  match parseUnary n ts with
  | Some (e, r) => productTail n e r
  | None => None
  end.
Proof. reflexivity. Qed.

Lemma productTail_eq (n : nat) (acc : expr) (ts : list token) :
  productTail (S n) acc ts =
  match ts with
  | TStar :: r =>
      match parseUnary n r with
      | Some (e, r') => productTail n (EMul acc e) r'
      | None => None
      end
  | TSlash :: r =>
      match parseUnary n r with
      | Some (e, r') => productTail n (EDiv acc e) r'
      | None => None
      end
  | _ => Some (acc, ts)
  end.
Proof. reflexivity. Qed.

Lemma scan_app (a : bool) (u v : list token) :
  scan a (u ++ v) =
  match scan a u with Some b => scan b v | None => None end.
Proof.
  revert a. induction u as [|t u IH]; intro a; simpl; [reflexivity|].
  destruct (scanStep a t); [apply IH|reflexivity].
Qed.

Lemma reads_trans (a : bool) (ts mid rest : list token) :
  reads a ts mid -> reads true mid rest -> reads a ts rest.
Proof.
  intros (u1 & -> & S1) (u2 & -> & S2). exists (u1 ++ u2).
  split; [apply app_assoc|]. now rewrite scan_app, S1.
Qed.

Lemma reads_cons (a b : bool) (t : token) (ts rest : list token) :
  scanStep a t = Some b -> reads b ts rest -> reads a (t :: ts) rest.
Proof.
  intros St (u & -> & S1). exists (t :: u). split; [reflexivity|].
  simpl. now rewrite St.
Qed.

Lemma parser_reads (n : nat) :
  holds (fun ts _ rest => reads false ts rest)
        (fun ts _ rest => reads true ts rest) n.
Proof.
  induction n as [|n (IU & IP & IS & IPT & IST)];
    [repeat split; intros; discriminate|].
  assert (T0 : forall ts, reads true ts ts)
    by (intro ts; now exists []).
  repeat split.
  - intros ts e rest. rewrite parseUnary_eq.
    destruct ts as [|[] r]; try discriminate.
    + intros [= <- <-]. exists [TNum v]. now split.
    + destruct (parseUnary n r) as [[e' r']|] eqn:E; [|discriminate].
      intros [= <- <-]. apply (reads_cons false false); [reflexivity|].
      now apply (IU _ _ _ E).
    + destruct (parseUnary n r) as [[e' r']|] eqn:E; [|discriminate].
      intros [= <- <-]. apply (reads_cons false false); [reflexivity|].
      now apply (IU _ _ _ E).
    + destruct (parseSum n r) as [[e' [|[] r']]|] eqn:E; try discriminate.
      intros [= <- <-]. apply (reads_cons false false); [reflexivity|].
      apply (reads_trans _ _ (TRParen :: r')); [now apply (IS _ _ _ E)|].
      apply (reads_cons true true); [reflexivity|apply T0].
  - intros ts e rest. rewrite parseProduct_eq.
    destruct (parseUnary n ts) as [[e' r']|] eqn:E; [|discriminate].
    intro H. apply (reads_trans _ _ r'); [now apply (IU _ _ _ E)|].
    now apply (IPT _ _ _ _ H).
  - intros ts e rest. rewrite parseSum_eq.
    destruct (parseProduct n ts) as [[e' r']|] eqn:E; [|discriminate].
    intro H. apply (reads_trans _ _ r'); [now apply (IP _ _ _ E)|].
    now apply (IST _ _ _ _ H).
  - intros acc ts e rest. rewrite productTail_eq.
    destruct ts as [|[] r]; try (intros [= <- <-]; apply T0).
    + destruct (parseUnary n r) as [[e' r']|] eqn:E; [|discriminate].
      intro H. apply (reads_cons true false); [reflexivity|].
      apply (reads_trans _ _ r'); [now apply (IU _ _ _ E)|].
      now apply (IPT _ _ _ _ H).
    + destruct (parseUnary n r) as [[e' r']|] eqn:E; [|discriminate].
      intro H. apply (reads_cons true false); [reflexivity|].
      apply (reads_trans _ _ r'); [now apply (IU _ _ _ E)|].
      now apply (IPT _ _ _ _ H).
  - intros acc ts e rest. rewrite sumTail_eq.
    destruct ts as [|[] r]; try (intros [= <- <-]; apply T0).
    + destruct (parseProduct n r) as [[e' r']|] eqn:E; [|discriminate].
      intro H. apply (reads_cons true false); [reflexivity|].
      apply (reads_trans _ _ r'); [now apply (IP _ _ _ E)|].
      now apply (IST _ _ _ _ H).
    + destruct (parseProduct n r) as [[e' r']|] eqn:E; [|discriminate].
      intro H. apply (reads_cons true false); [reflexivity|].
      apply (reads_trans _ _ r'); [now apply (IP _ _ _ E)|].
      now apply (IST _ _ _ _ H).
Qed.

Lemma parse_scan (ts : list token) (e : expr) :
  parse ts = Some e -> scan false ts = Some true.
Proof.
  unfold parse.
  destruct (parseSum _ ts) as [[e' [|t r]]|] eqn:E; try discriminate.
  intros _. destruct (parser_reads (4 * length ts + 4)) as (_ & _ & S & _).
  destruct (S _ _ _ E) as (u & -> & Hu). now rewrite app_nil_r.
Qed.

Lemma scan_lastIsNum (a : bool) (L : list token) :
  scan a L = Some false -> lastIsNum L = false.
Proof.
  revert a. induction L as [|t L IH]; intros a H; [reflexivity|].
  simpl in H. destruct (scanStep a t) as [b|] eqn:St; [|discriminate].
  destruct L as [|u L].
  - simpl in H. injection H as ->. destruct t; try reflexivity.
    simpl in St. now destruct a.
  - transitivity (lastIsNum (u :: L)); [now destruct t|].
    now apply (IH b).
Qed.

(** Around an operand between parentheses there is no number. *)
Lemma scan_around (LA LB : list token) (x : float) :
  scan false (LA ++ TLParen :: TNum x :: TRParen :: LB) = Some true ->
  lastIsNum LA = false /\ headIsNum LB = false.
Proof.
  rewrite scan_app. destruct (scan false LA) as [[]|] eqn:E;
    try discriminate.
  simpl. intro H. split; [now apply (scan_lastIsNum false)|].
  now destruct LB as [|[] LB].
Qed.

Lemma strip_app (LA LB : list token) (x : float) :
  strip (LA ++ TLParen :: TNum x :: TRParen :: LB) (LA ++ TNum x :: LB).
Proof.
  induction LA as [|t LA IH]; simpl; [constructor|now constructor].
Qed.

Lemma parseSum_number (n : nat) (x : float) (B : list token) (e : expr)
      (r : list token) :
  parseSum n (TNum x :: TRParen :: B) = Some (e, r) ->
  e = ENum x /\ r = TRParen :: B.
Proof.
  destruct n as [|[|[|n]]]; simpl; try discriminate.
  now intros [= <- <-].
Qed.

Lemma parser_stripped (n : nat) : stripped n.
Proof.
  induction n as [|n (IU & IP & IS & IPT & IST)];
    [repeat split; intros; discriminate|].
  repeat split.
  - intros ts ts' e rest St. rewrite !parseUnary_eq.
    inversion St as [x B|t A A' St'|A]; subst.
    + destruct (parseSum n (TNum x :: TRParen :: B)) as [[e' r]|] eqn:E;
        [|discriminate].
      destruct (parseSum_number _ _ _ _ _ E) as [-> ->].
      intros [= <- <-]. exists B. split; [reflexivity|constructor].
    + destruct t; try discriminate.
      * intros [= <- <-]. now exists A'.
      * destruct (parseUnary n A) as [[e' r]|] eqn:E; [|discriminate].
        intros [= <- <-].
        destruct (IU _ _ _ _ St' E) as (r' & -> & Sr). now exists r'.
      * destruct (parseUnary n A) as [[e' r]|] eqn:E; [|discriminate].
        intros [= <- <-].
        destruct (IU _ _ _ _ St' E) as (r' & -> & Sr). now exists r'.
      * destruct (parseSum n A) as [[e' [|[] r]]|] eqn:E; try discriminate.
        intros [= <- <-].
        destruct (IS _ _ _ _ St' E) as (r' & -> & Sr).
        inversion Sr; subst; eexists; split;
          (reflexivity || eassumption || constructor).
    + intro H. exists rest. split; [exact H|constructor].
  - intros ts ts' e rest St. rewrite !parseProduct_eq.
    destruct (parseUnary n ts) as [[e1 r1]|] eqn:E; [|discriminate].
    destruct (IU _ _ _ _ St E) as (r1' & -> & S1). now apply IPT.
  - intros ts ts' e rest St. rewrite !parseSum_eq.
    destruct (parseProduct n ts) as [[e1 r1]|] eqn:E; [|discriminate].
    destruct (IP _ _ _ _ St E) as (r1' & -> & S1). now apply IST.
  - intros acc ts ts' e rest St. rewrite !productTail_eq.
    inversion St as [x B|t A A' St'|A]; subst.
    + intros [= <- <-]. eexists. split; [reflexivity|exact St].
    + destruct t;
        try (intros [= <- <-]; eexists; split; [reflexivity|exact St]).
      * destruct (parseUnary n A) as [[e1 r1]|] eqn:E; [|discriminate].
        destruct (IU _ _ _ _ St' E) as (r1' & -> & S1). now apply IPT.
      * destruct (parseUnary n A) as [[e1 r1]|] eqn:E; [|discriminate].
        destruct (IU _ _ _ _ St' E) as (r1' & -> & S1). now apply IPT.
    + intro H. exists rest. split; [exact H|constructor].
  - intros acc ts ts' e rest St. rewrite !sumTail_eq.
    inversion St as [x B|t A A' St'|A]; subst.
    + intros [= <- <-]. eexists. split; [reflexivity|exact St].
    + destruct t;
        try (intros [= <- <-]; eexists; split; [reflexivity|exact St]).
      * destruct (parseProduct n A) as [[e1 r1]|] eqn:E; [|discriminate].
        destruct (IP _ _ _ _ St' E) as (r1' & -> & S1). now apply IST.
      * destruct (parseProduct n A) as [[e1 r1]|] eqn:E; [|discriminate].
        destruct (IP _ _ _ _ St' E) as (r1' & -> & S1). now apply IST.
    + intro H. exists rest. split; [exact H|constructor].
Qed.

Lemma parser_enough (n : nat) : enough n.
Proof.
  induction n as [|n (IU & IP & IS & IPT & IST)];
    [repeat split; intros; discriminate|].
  split; [|split; [|split; [|split]]].
  - intros ts e rest. rewrite parseUnary_eq.
    destruct ts as [|[] r]; try discriminate.
    + intros [= <- <-]. split; [cbn [length]; lia|].
      intros [|m] Hm; [cbn [length] in Hm; lia|reflexivity].
    + destruct (parseUnary n r) as [[e' r']|] eqn:E; [|discriminate].
      intros [= <- <-]. destruct (IU _ _ _ E) as [L M].
      split; [cbn [length]; lia|].
      intros [|m] Hm; [cbn [length] in Hm; lia|].
      rewrite parseUnary_eq, M; [reflexivity|cbn [length] in Hm; lia].
    + destruct (parseUnary n r) as [[e' r']|] eqn:E; [|discriminate].
      intros [= <- <-]. destruct (IU _ _ _ E) as [L M].
      split; [cbn [length]; lia|].
      intros [|m] Hm; [cbn [length] in Hm; lia|].
      rewrite parseUnary_eq, M; [reflexivity|cbn [length] in Hm; lia].
    + destruct (parseSum n r) as [[e' [|[] r']]|] eqn:E; try discriminate.
      intros [= <- <-]. destruct (IS _ _ _ E) as [L M]. cbn [length] in L.
      split; [cbn [length]; lia|].
      intros [|m] Hm; [cbn [length] in Hm; lia|].
      rewrite parseUnary_eq, M; [reflexivity|cbn [length] in *; lia].
  - intros ts e rest. rewrite parseProduct_eq.
    destruct (parseUnary n ts) as [[e1 r1]|] eqn:E; [|discriminate].
    intro H. destruct (IU _ _ _ E) as [L1 M1].
    destruct (IPT _ _ _ _ H) as [L2 M2].
    split; [lia|].
    intros [|m] Hm; [lia|].
    rewrite parseProduct_eq, M1 by lia. apply M2. lia.
  - intros ts e rest. rewrite parseSum_eq.
    destruct (parseProduct n ts) as [[e1 r1]|] eqn:E; [|discriminate].
    intro H. destruct (IP _ _ _ E) as [L1 M1].
    destruct (IST _ _ _ _ H) as [L2 M2].
    split; [lia|].
    intros [|m] Hm; [lia|].
    rewrite parseSum_eq, M1 by lia. apply M2. lia.
  - intros acc ts e rest. rewrite productTail_eq.
    assert (D : Some (acc, ts) = Some (e, rest) ->
                (length rest <= length ts)%nat
                /\ forall m, (2 * (length ts - length rest) + 1 <= m)%nat ->
                             match ts with
                             | TStar :: _ | TSlash :: _ => True
                             | _ => productTail m acc ts = Some (e, rest)
                             end).
    { intros [= <- <-]. split; [lia|].
      intros [|m] Hm; [lia|]. now destruct ts as [|[] r]. }
    destruct ts as [|[] r];
      try (intro H; destruct (D H) as [L M]; split; [exact L|exact M]).
    + destruct (parseUnary n r) as [[e1 r1]|] eqn:E; [|discriminate].
      intro H. destruct (IU _ _ _ E) as [L1 M1].
      destruct (IPT _ _ _ _ H) as [L2 M2].
      split; [cbn [length]; lia|].
      intros [|m] Hm; [cbn [length] in Hm; lia|].
      rewrite productTail_eq, M1 by (cbn [length] in Hm; lia).
      apply M2. cbn [length] in Hm. lia.
    + destruct (parseUnary n r) as [[e1 r1]|] eqn:E; [|discriminate].
      intro H. destruct (IU _ _ _ E) as [L1 M1].
      destruct (IPT _ _ _ _ H) as [L2 M2].
      split; [cbn [length]; lia|].
      intros [|m] Hm; [cbn [length] in Hm; lia|].
      rewrite productTail_eq, M1 by (cbn [length] in Hm; lia).
      apply M2. cbn [length] in Hm. lia.
  - intros acc ts e rest. rewrite sumTail_eq.
    assert (D : Some (acc, ts) = Some (e, rest) ->
                (length rest <= length ts)%nat
                /\ forall m, (2 * (length ts - length rest) + 1 <= m)%nat ->
                             match ts with
                             | TPlus :: _ | TMinus :: _ => True
                             | _ => sumTail m acc ts = Some (e, rest)
                             end).
    { intros [= <- <-]. split; [lia|].
      intros [|m] Hm; [lia|]. now destruct ts as [|[] r]. }
    destruct ts as [|[] r];
      try (intro H; destruct (D H) as [L M]; split; [exact L|exact M]).
    + destruct (parseProduct n r) as [[e1 r1]|] eqn:E; [|discriminate].
      intro H. destruct (IP _ _ _ E) as [L1 M1].
      destruct (IST _ _ _ _ H) as [L2 M2].
      split; [cbn [length]; lia|].
      intros [|m] Hm; [cbn [length] in Hm; lia|].
      rewrite sumTail_eq, M1 by (cbn [length] in Hm; lia).
      apply M2. cbn [length] in Hm. lia.
    + destruct (parseProduct n r) as [[e1 r1]|] eqn:E; [|discriminate].
      intro H. destruct (IP _ _ _ E) as [L1 M1].
      destruct (IST _ _ _ _ H) as [L2 M2].
      split; [cbn [length]; lia|].
      intros [|m] Hm; [cbn [length] in Hm; lia|].
      rewrite sumTail_eq, M1 by (cbn [length] in Hm; lia).
      apply M2. cbn [length] in Hm. lia.
Qed.

(** Freeing a number from its parentheses changes nothing to the
    expression. *)
Lemma parse_strip (ts ts' : list token) (e : expr) :
  strip ts ts' -> parse ts = Some e -> parse ts' = Some e.
Proof.
  intros St. unfold parse.
  destruct (parseSum (4 * length ts + 4) ts) as [[e' [|t r]]|] eqn:E;
    try discriminate.
  intros [= ->].
  destruct (parser_stripped (4 * length ts + 4)) as (_ & _ & S & _).
  destruct (S _ _ _ _ St E) as (rest' & E' & Sr).
  inversion Sr; subst.
  destruct (parser_enough (4 * length ts + 4)) as (_ & _ & N & _).
  destruct (N _ _ _ E') as [_ M].
  rewrite M; [reflexivity|]. simpl. lia.
Qed.

(** ** An operand between parentheses and the same spliced as text *)

Lemma run_number (s : text) (r : float) :
  run s = Some (Normal (VNumber r)) <->
  exists ts e, lex s = Some ts /\ existsb (isTok TPow) ts = false
               /\ parse ts = Some e /\ eval e = r.
Proof.
  unfold run. split.
  - destruct (lex s) as [[|t ts]|]; try discriminate.
    destruct (existsb (isTok TPow) (t :: ts)) eqn:P; [discriminate|].
    destruct (parse (t :: ts)) as [e|] eqn:E.
    + intros [= <-]. now exists (t :: ts), e.
    + intro H. destruct (existsb (isTok TSlash) (t :: ts)); discriminate H.
  - intros (ts & e & -> & P & E & <-).
    destruct ts as [|t ts]; [cbv in E; discriminate E|]. now rewrite P, E.
Qed.

Lemma safeHead_close (B : text) : safeHead (")"%char :: B).
Proof. repeat split. Qed.

(** The tokens of a text with an operand between parentheses. *)
Lemma lex_operand (A v B : text) (x : float) :
  literal v x ->
  lex (A ++ "("%char :: v ++ ")"%char :: B) =
  match lex A, lex B with
  | Some LA, Some LB => Some (LA ++ TLParen :: TNum x :: TRParen :: LB)
  | _, _ => None
  end.
Proof.
  intro H.
  rewrite (lex_stopper _ _ (length A) stopper_open A (le_n _)).
  rewrite lex_open, (lex_literal _ _ _ H (safeHead_close B)), lex_close.
  destruct (lex A) as [LA|]; [|reflexivity].
  now destruct (lex B) as [LB|].
Qed.

Lemma existsb_operand (p : token -> bool) (LA LB : list token) (x : float) :
  p TLParen = false -> p TRParen = false ->
  existsb p (LA ++ TLParen :: TNum x :: TRParen :: LB)
  = existsb p (LA ++ TNum x :: LB).
Proof.
  intros Ho Hc. rewrite !existsb_app. simpl. now rewrite Ho, Hc.
Qed.

(** If the text with the operand between parentheses has a value, the text
    with the bare literal has the same. *)
Lemma run_operand (A v B : text) (x r : float) :
  literal v x ->
  run (A ++ "("%char :: v ++ ")"%char :: B) = Some (Normal (VNumber r)) ->
  run (A ++ v ++ B) = Some (Normal (VNumber r)).
Proof.
  intros H R. apply run_number in R as (ts & e & L & P & E & V).
  rewrite (lex_operand _ _ _ _ H) in L.
  destruct (lex A) as [LA|] eqn:HA; [|discriminate].
  destruct (lex B) as [LB|] eqn:HB; [|discriminate].
  injection L as <-.
  destruct (scan_around _ _ _ (parse_scan _ _ E)) as [NA NB].
  apply run_number. exists (LA ++ TNum x :: LB), e.
  split; [|split; [|split]].
  - rewrite (lex_app _ (length A) (literal_noMerge _ _ _ H) A LA (le_n _) HA NA).
    rewrite (lex_literal _ _ _ H (lex_safeHead _ _ HB NB)), HB. reflexivity.
  - now rewrite <- (existsb_operand (isTok TPow)).
  - exact (parse_strip _ _ _ (strip_app LA LB x) E).
  - exact V.
Qed.

Lemma replaced_operand (ps : list Param) (t : text) :
  replaced (operand ps) t =
  match lookup ps t with
  | Some v => "("%char :: v ++ [")"%char]
  | None => t
  end.
Proof. unfold replaced, operand. now destruct (lookup ps t). Qed.

(** The same for all the operands of a formula. *)
Lemma run_operands (ps : list Param) (r : float) :
  (forall t v, lookup ps t = Some v -> exists x, literal v x) ->
  forall (ts : list text) (A : text),
    run (A ++ concat (map (replaced (operand ps)) ts))
    = Some (Normal (VNumber r)) ->
    run (A ++ concat (map (replaced (lookup ps)) ts))
    = Some (Normal (VNumber r)).
Proof.
  intros Hl. induction ts as [|t ts IH]; intros A; [trivial|].
  simpl concat. rewrite replaced_operand. unfold replaced at 2.
  destruct (lookup ps t) as [v|] eqn:L.
  - destruct (Hl _ _ L) as [x Hx]. intro R.
    rewrite app_assoc. apply IH. rewrite <- app_assoc.
    apply (run_operand _ _ _ _ _ Hx). rewrite <- R.
    f_equal. f_equal. simpl. f_equal. now rewrite <- app_assoc.
  - intro R. rewrite app_assoc. apply IH. now rewrite <- app_assoc.
Qed.

Lemma arithmeticResult_plain (ps : list Param) (formula : text) (r : float) :
  (forall p, In p ps -> exists x, literal (valueToString (param_value p)) x) ->
  arithmeticResult ps formula = Some r ->
  run (substituteTokens ps formula) = Some (Normal (VNumber r)).
Proof.
  intros Hl. unfold arithmeticResult, substituteOperands, substituteTokens.
  destruct (run _) as [[[| |]|]|] eqn:R; try discriminate.
  intros [= ->].
  apply (run_operands ps r) with (A := []); [|exact R].
  intros t v L. unfold lookup in L.
  destruct (find _ ps) as [p|] eqn:F; [|discriminate].
  injection L as <-. apply Hl. now apply find_some in F.
Qed.

End ParserFacts.

(** ** The text of a number that is not negative *)

Lemma span_digits (ds R : text) :
  forallb isDigit ds = true -> stops isDigit R ->
  Arith.span isDigit (ds ++ R) = (ds, R).
Proof.
  intros D HR. induction ds as [|c ds IH]; cbn [app forallb Arith.span] in *.
  - destruct R as [|d R]; [reflexivity|].
    unfold stops in HR. cbn [Arith.span]. now rewrite HR.
  - apply andb_true_iff in D as [Dc D]. rewrite Dc, (IH D). reflexivity.
Qed.

Lemma lexExponent_shape (expo : text) :
  exponentShape expo -> exists e, Arith.lexExponent expo = Some (e, []).
Proof.
  intros [->|(sign & es & -> & S & D & N)]; [now exists 0%Z|].
  pose proof (span_digits es [] D I) as E. rewrite app_nil_r in E.
  destruct es as [|d es]; [congruence|].
  destruct S as [->| ->]; unfold Arith.lexExponent;
    cbn [Arith.isExponentMark Ascii.eqb Bool.eqb orb];
    rewrite E; eexists; reflexivity.
Qed.

Lemma literal_shape (ip frac expo : text) :
  forallb isDigit ip = true -> ip <> [] -> Arith.leadingZero ip = false ->
  fractionShape frac -> exponentShape expo ->
  exists y, literal (ip ++ frac ++ expo) y.
Proof.
  intros D N Z F X. unfold literal, Arith.lexNumber.
  assert (S : stops isDigit (frac ++ expo)).
  { destruct F as [->|(fp & -> & _)]; [|reflexivity].
    destruct X as [->|(sign & es & -> & _)]; reflexivity. }
  rewrite (span_digits ip (frac ++ expo) D S).
  assert (L : exists fp, Arith.lexFraction (frac ++ expo) = (fp, expo)).
  { destruct F as [->|(fp & -> & Dp)].
    - exists []. destruct X as [->|(sign & es & -> & _)]; reflexivity.
    - exists fp. cbn [app Arith.lexFraction Ascii.eqb Bool.eqb].
      apply span_digits; [exact Dp|].
      destruct X as [->|(sign & es & -> & _)]; reflexivity. }
  destruct L as [fp ->]. unfold Arith.literalOf.
  destruct ip as [|c ip]; [congruence|]. cbn [app].
  rewrite Z. destruct (lexExponent_shape expo X) as [e ->].
  eexists; reflexivity.
Qed.

Lemma digitChar_nonzero (d : Z) :
  (1 <= d < 10)%Z -> (Num.digitChar d =? "0")%char = false.
Proof.
  intros H.
  assert (C : (d = 1 \/ d = 2 \/ d = 3 \/ d = 4 \/ d = 5 \/ d = 6
              \/ d = 7 \/ d = 8 \/ d = 9)%Z) by lia.
  repeat (destruct C as [->|C]; [reflexivity|]). now subst.
Qed.

Lemma digitsOf_head (fuel : nat) :
  forall (n : Z) (acc : text),
    (1 <= n)%Z -> (n < 2 ^ Z.of_nat fuel)%Z ->
    exists d ds, Num.digitsOf fuel n acc = d :: ds
                 /\ (d =? "0")%char = false.
Proof.
  induction fuel as [|fuel IH]; intros n acc Hn Hl.
  - simpl in Hl. lia.
  - cbn [Num.digitsOf]. destruct (n <? 10)%Z eqn:E.
    + apply Z.ltb_lt in E. rewrite Z.mod_small by lia.
      eexists; eexists; split; [reflexivity|]. apply digitChar_nonzero. lia.
    + apply Z.ltb_ge in E. apply IH.
      * apply Z.div_le_lower_bound; lia.
      * rewrite Nat2Z.inj_succ, Z.pow_succ_r in Hl by lia.
        apply Z.div_lt_upper_bound; lia.
Qed.

Lemma decimal_head (n : Z) :
  (1 <= n)%Z ->
  exists d ds, Num.decimal n = d :: ds /\ (d =? "0")%char = false.
Proof.
  intros H. apply digitsOf_head; [exact H|].
  rewrite Nat2Z.inj_succ, Z2Nat.id by apply Z.log2_nonneg.
  apply Z.log2_spec. lia.
Qed.

Lemma candidate_positive (x : float) (p q n k s n' : Z) :
  (1 <= k)%Z -> Num.candidate x p q n k = Some (s, n') -> (1 <= s)%Z.
Proof.
  intros Hk. unfold Num.candidate.
  assert (P : (1 <= 10 ^ (k - 1))%Z).
  { assert (0 < 10 ^ (k - 1))%Z by (apply Z.pow_pos_nonneg; lia). lia. }
  destruct (if (0 <=? n - k)%Z then _ else _) as [num den].
  set (lo := (num / den)%Z).
  assert (N : forall t, (10 ^ (k - 1) <= t)%Z ->
                        (if (t =? 10 ^ k)%Z then (10 ^ (k - 1), n + 1)
                         else (t, n))%Z = (s, n') -> (1 <= s)%Z).
  { intros t Ht E. destruct (t =? 10 ^ k)%Z; injection E as <- <-; lia. }
  destruct ((10 ^ (k - 1) <=? lo)%Z) eqn:A;
    destruct ((10 ^ (k - 1) <=? lo + 1)%Z) eqn:B;
    cbn [andb];
    try apply Z.leb_le in A; try apply Z.leb_le in B;
    repeat match goal with
           | |- context [if ?c then _ else _] =>
               lazymatch c with
               | (_ =? 10 ^ k)%Z => fail
               | _ => destruct c
               end
           | |- context [match ?c with Eq => _ | Lt => _ | Gt => _ end] =>
               destruct c
           end;
    cbn [andb]; intros E; try discriminate E;
    injection E as E; revert E;
    first [apply (N lo A) | apply (N (lo + 1)%Z B)].
Qed.

Lemma shortest_positive (x : float) (p q n : Z) (fuel : nat) :
  forall k s n', (1 <= k)%Z ->
                 Num.shortest fuel x p q n k = (s, n') -> (1 <= s)%Z.
Proof.
  induction fuel as [|fuel IH]; intros k s n' Hk E; simpl in E.
  - injection E as <- <-. lia.
  - destruct (Num.candidate x p q n k) as [[s0 n0]|] eqn:C.
    + injection E as <- <-. exact (candidate_positive x p q n k _ _ Hk C).
    + apply (IH (k + 1)%Z s n'); [lia|exact E].
Qed.

Lemma layout_literal (d : ascii) (ds : text) (n : Z) :
  forallb isDigit (d :: ds) = true -> (d =? "0")%char = false ->
  exists y, literal (Num.layout (d :: ds) n) y.
Proof.
  intros D N. unfold Num.layout.
  set (k := Z.of_nat (length (d :: ds))).
  destruct ((k <=? n)%Z && (n <=? 21)%Z).
  { rewrite <- (app_nil_r (_ ++ _)).
    apply (literal_shape ((d :: ds) ++ Num.zeros (n - k)) [] []).
    - now rewrite forallb_app, D, zeros_digits.
    - discriminate.
    - simpl. rewrite N. now destruct (ds ++ _).
    - now left.
    - now left. }
  destruct ((0 <? n)%Z && (n <=? 21)%Z) eqn:E2.
  { apply andb_true_iff in E2 as [E2 _]. apply Z.ltb_lt in E2.
    destruct (Z.to_nat n) as [|m] eqn:Em; [lia|].
    pose proof (firstn_skipn (S m) (d :: ds)) as FS.
    rewrite <- FS, forallb_app in D. apply andb_true_iff in D as [D1 D2].
    rewrite <- (app_nil_r (skipn _ _)).
    apply (literal_shape (firstn (S m) (d :: ds))
                         ("."%char :: skipn (S m) (d :: ds)) []).
    - exact D1.
    - discriminate.
    - simpl. rewrite N. now destruct (firstn m ds).
    - right. now exists (skipn (S m) (d :: ds)).
    - now left. }
  destruct ((-6 <? n)%Z && (n <=? 0)%Z).
  { change (exists y, literal (["0"%char]
              ++ ("."%char :: Num.zeros (- n) ++ d :: ds)) y).
    rewrite <- (app_nil_r ("."%char :: _)).
    apply literal_shape; try reflexivity; try discriminate.
    - right. eexists; split; [reflexivity|].
      now rewrite forallb_app, D, zeros_digits.
    - now left. }
  set (sign := if (0 <=? n - 1)%Z then "+"%char else "-"%char).
  assert (X : exponentShape
                 ("e"%char :: sign :: Num.decimal (Z.abs (n - 1)))).
  { right. exists sign, (Num.decimal (Z.abs (n - 1))).
    split; [reflexivity|]. split.
    - unfold sign. destruct (0 <=? n - 1)%Z; [now left|now right].
    - apply decimal_digits. }
  simpl in D. apply andb_true_iff in D as [Dd D].
  destruct ds as [|c rest].
  - apply (literal_shape [d] [] _); try reflexivity; try discriminate.
    + simpl. now rewrite Dd.
    + now left.
    + exact X.
  - apply (literal_shape [d] ("."%char :: c :: rest) _);
      try reflexivity; try discriminate.
    + simpl. now rewrite Dd.
    + right. now exists (c :: rest).
    + exact X.
Qed.

(** The text of a finite number that is not negative is a decimal
    literal. *)
Lemma toString_literal (x : float) :
  is_finite x = true -> (x <? 0)%float = false ->
  exists y, literal (Num.toString x) y.
Proof.
  intros F P. unfold is_finite in F.
  apply negb_true_iff, orb_false_iff in F as [Fn Fi].
  unfold Num.toString. rewrite Fn, P, Fi.
  destruct (is_zero x); [eexists; reflexivity|].
  cbn [app]. unfold Num.digitsText.
  destruct (Num.toRatio (abs x)) as [p q].
  destruct (Num.shortest 17 (abs x) p q (Num.decimalExponent p q) 1)
    as [s n'] eqn:E.
  pose proof (shortest_positive (abs x) p q _ 17 1 s n' ltac:(lia) E) as Hs.
  destruct (decimal_head s Hs) as (d & ds & Ed & Nd).
  pose proof (proj1 (decimal_digits s)) as Dd.
  rewrite Ed in *. now apply layout_literal.
Qed.

Set Implicit Arguments.

Section Substitution.

Context {host : Host}.

Lemma substituteParameters_simultaneous (formula : text) (ps : list Param) :
  Forall (fun p => wordName (param_name p)) ps ->
  selfContained ps ->
  substituteParameters formula ps = Normal (substituteTokens ps formula).
Proof.
  intros Hn Hs.
  rewrite <- (concat_tokens formula) at 1.
  rewrite substituteParameters_tokens.
  - rewrite sequential_simultaneous by (intros p q Hp Hq; now apply Hs).
    unfold substituteTokens. now rewrite concat_substTokens.
  - exact Hn.
  - apply Forall_forall. intros p Hp. now apply Hs.
  - apply wellFormed_tokensFrom.
Qed.

Lemma run_depends_on_substitution (f : maybeText) (ps ps' : list Param) :
  (forall s, substituteParameters s ps' = substituteParameters s ps) ->
  evaluateFormula_run f ps' = evaluateFormula_run f ps.
Proof.
  intro H. destruct f as [| |[|c s]]; try reflexivity.
  unfold evaluateFormula_run, tryBlock. now rewrite H.
Qed.

(** C5 (amended).  When the names are made of word characters and no value
    has a [$] or, as a whole token, the name of a parameter (as is the case
    of finite numbers under identifier names), the substitution replaces
    exactly the tokens that are a parameter's name, each by the text of the
    value of the first parameter of that name, and leaves every other
    token as it is; with pairwise distinct names neither the substituted
    text nor the result of the evaluation depends on the order of the
    parameters. *)
Theorem substitution_whole_tokens (formula : text) (ps ps' : list Param) :
  Forall (fun p => wordName (param_name p)) ps ->
  selfContained ps ->
  substituteParameters formula ps = Normal (substituteTokens ps formula)
  /\ (NoDup (map param_name ps) -> Permutation ps ps' ->
      substituteParameters formula ps' = substituteParameters formula ps
      /\ forall f, evaluateFormula_run f ps' = evaluateFormula_run f ps).
Proof.
  intros Hn Hs.
  split; [now apply substituteParameters_simultaneous|].
  intros Hd Hp.
  assert (Hn' : Forall (fun p => wordName (param_name p)) ps')
    by (eapply Permutation_Forall; eassumption).
  assert (Hs' : selfContained ps').
  { intros p Hin. apply (Permutation_in _ (Permutation_sym Hp)) in Hin.
    destruct (Hs p Hin) as [A B]. split; [exact A|].
    intros q Hq. apply B. now apply (Permutation_in _ (Permutation_sym Hp)). }
  assert (E : forall s, substituteParameters s ps'
                        = substituteParameters s ps).
  { intro s. rewrite !substituteParameters_simultaneous by assumption.
    unfold substituteTokens. do 2 f_equal. apply map_ext. intro t.
    unfold replaced. now rewrite (lookup_permutation t Hd Hp). }
  split; [apply E|]. intro f. now apply run_depends_on_substitution.
Qed.


End Substitution.

(* ------------------------------------------------------------------ *)
(** ** The substitution on concrete formulas *)

(** C5, as stated, fails for the order of the parameters: with the text
    value ["b"] for [a] and the number 3 for [b], the formula ["a"] becomes
    ["b"] and then ["3"] in this order, whereas in the other order it stops
    at ["b"], an unresolved name, and evaluates to 0. *)
Lemma substitution_order_matters :
  let ps := [parameter "a" (StringValue (chars "b"));
             parameter "b" (NumberValue 3)] in
  NoDup (map param_name ps)
  /\ Permutation ps (rev ps)
  /\ @evaluateFormula rejectingHost (Str (chars "a")) ps = 3%float
  /\ @evaluateFormula rejectingHost (Str (chars "a")) (rev ps) = 0%float
  /\ @evaluateFormula rejectingHost (Str (chars "a")) (rev ps)
     <> @evaluateFormula rejectingHost (Str (chars "a")) ps.
Proof.
  intro ps. split; [|split; [|split; [|split]]].
  - repeat (constructor; [simpl; intuition discriminate|]). constructor.
  - apply Permutation_rev.
  - vm_compute. reflexivity.
  - vm_compute. reflexivity.
  - apply not_eq_sym, (float_distinct (fun x => (x =? 3)%float));
      vm_compute; reflexivity.
Qed.

Lemma substitution_whole_tokens_witness :
  let ps := [parameter "w" (NumberValue 9); parameter "width" (NumberValue 5)] in
  let ps' := [parameter "width" (NumberValue 5); parameter "w" (NumberValue 9)] in
  Forall (fun p => wordName (param_name p)) ps
  /\ selfContained ps
  /\ NoDup (map param_name ps)
  /\ Permutation ps ps'
  /\ @substituteParameters rejectingHost (chars "width * 2") ps
     = Normal (chars "5 * 2")
  /\ @evaluateFormula_run rejectingHost (Str (chars "width * 2")) ps'
     = @evaluateFormula_run rejectingHost (Str (chars "width * 2")) ps
  /\ @evaluateFormula rejectingHost (Str (chars "width * 2")) ps = 10%float.
Proof.
  intros ps ps'.
  assert (Hi : Forall (fun p => identifierName (param_name p)) ps)
    by (repeat constructor).
  assert (Hw : Forall (fun p => wordName (param_name p)) ps)
    by (repeat constructor; discriminate).
  assert (Hs : selfContained ps)
    by (apply finite_selfContained; [exact Hi|repeat constructor]).
  assert (Hd : NoDup (map param_name ps))
    by (repeat (constructor; [simpl; intuition discriminate|]); constructor).
  assert (Hp : Permutation ps ps') by apply perm_swap.
  destruct (@substitution_whole_tokens rejectingHost (chars "width * 2")
              ps ps' Hw Hs) as [E O].
  destruct (O Hd Hp) as [_ R].
  split; [exact Hw|]. split; [exact Hs|]. split; [exact Hd|].
  split; [exact Hp|]. split; [exact E|]. split; [apply R|].
  reflexivity.
Defined.



(* ------------------------------------------------------------------ *)
(** * Properties of the rest of the page and of the tabs *)

Unset Implicit Arguments.

Section EvaluatorMore.

Context {host : Host}.

Lemma run_primitive (t : text) (r : completion value) :
  Arith.run t = Some r ->
  r = Throw \/ r = Normal VUndefined \/ exists n, r = Normal (VNumber n).
Proof.
  unfold Arith.run.
  destruct (Arith.lex t) as [[|tok ts]|]; [| |discriminate].
  - intros [= <-]. right. now left.
  - destruct (existsb _ _); [discriminate|].
    destruct (Arith.parse (tok :: ts)) as [e|].
    + intros [= <-]. right. right. now exists (Arith.eval e).
    + destruct (existsb _ _); [discriminate|]. intros [= <-]. now left.
Qed.

Lemma validNumber_primitive (r : completion value) :
  r = Throw \/ r = Normal VUndefined \/ (exists n, r = Normal (VNumber n)) ->
  bind r validNumber = Throw
  \/ exists n, bind r validNumber = Normal n /\ is_nan n = false.
Proof.
  intros [->|[->|[n ->]]].
  - now left.
  - right. exists 0%float. split; reflexivity.
  - right. cbn [bind]. unfold validNumber, isNaN, Number. cbn [ToNumber bind].
    destruct (is_nan n) eqn:N; [exists 0%float|exists n]; now split.
Qed.

(** X1.  When the call does not hand the Function constructor a text
    outside the arithmetic fragment (it returns before, or the substituted
    text is one [Arith.run] decides), it completes with a number that is
    not NaN: a NaN result, as of [0 / 0], has been turned into 0. *)
Theorem evaluateFormula_never_nan (f : maybeText) (ps : list Param) :
  (forall s t, f = Str s -> substituteParameters s ps = Normal t ->
               RegExp.matchIdentifiers false t = [] ->
               Arith.run t <> None) ->
  is_nan (evaluateFormula f ps) = false
  /\ exists n, snd (evaluateFormula_run f ps) = Normal n
               /\ is_nan n = false.
Proof.
  intro A.
  assert (E : is_nan (evaluateFormula f ps) = false).
  { unfold evaluateFormula, evaluateFormula_run.
    destruct (falsy f); [reflexivity|].
    destruct f as [| |s]; try reflexivity.
    unfold tryBlock.
    destruct (substituteParameters s ps) as [t|] eqn:S; [|reflexivity].
    destruct (RegExp.matchIdentifiers false t) eqn:M; [|reflexivity].
    specialize (A s t eq_refl S M).
    unfold newFunctionReturn.
    destruct (Arith.run t) as [r|] eqn:R; [|now elim A].
    destruct (validNumber_primitive r (run_primitive t r R))
      as [->|[n [-> N]]]; [reflexivity|exact N]. }
  split; [exact E|].
  exists (evaluateFormula f ps). split; [apply run_completes|exact E].
Qed.

End EvaluatorMore.

Lemma find_none_filter {A} (p : A -> bool) (l : list A) :
  find p l = None -> filter (fun x => negb (p x)) l = l.
Proof.
  intro F. apply filter_none. intros x Hx.
  now rewrite (find_none _ _ F x Hx).
Qed.

Lemma In_map_filter {A B} (f : A -> B) (keep : A -> bool) (l : list A) (b : B) :
  In b (map f (filter keep l)) -> In b (map f l).
Proof.
  intro H. apply in_map_iff in H as (x & <- & Hx).
  apply filter_In in Hx as [Hx _]. now apply in_map.
Qed.

Lemma ids_filter {A} (f : A -> Z) (keep : A -> bool) (l : list A) :
  NoDup (map f l) -> NoDup (map f (filter keep l)).
Proof.
  induction l as [|a l IH]; intro H; simpl; [constructor|].
  inversion H as [|? ? Hn Hd]; subst.
  destruct (keep a); [|now apply IH].
  simpl. constructor; [|now apply IH].
  intro Hin. apply Hn. now apply In_map_filter in Hin.
Qed.

Lemma ids_snoc {A} (f : A -> Z) (l : list A) (a : A) :
  NoDup (map f l) -> find (fun x => (f x =? f a)%Z) l = None ->
  NoDup (map f (l ++ [a])).
Proof.
  intros H F. rewrite map_app. simpl.
  apply NoDup_app; [exact H|repeat constructor; intros []|].
  intros b Hb [<-|[]]. apply in_map_iff in Hb as (x & E & Hx).
  apply (find_none _ _ F) in Hx. apply Z.eqb_neq in Hx. congruence.
Qed.

Section HandlersMore.

Context {host : Host}.

Lemma calculateElementCosts_again (es : list ElementWithValues)
      (ps ps' : list Param) :
  calculateElementCosts (calculateElementCosts es ps) ps'
  = calculateElementCosts es ps'.
Proof.
  unfold calculateElementCosts. rewrite map_map. apply map_ext.
  intro e. reflexivity.
Qed.

Lemma unpriced_calculateElementCosts (es : list ElementWithValues)
      (ps : list Param) :
  map unpriced (calculateElementCosts es ps) = map unpriced es.
Proof.
  unfold calculateElementCosts. rewrite map_map. reflexivity.
Qed.

Lemma find_fresh {A} (f : A -> Z) (i : Z) (l : list A) :
  ~ In i (map f l) -> find (fun x => (f x =? i)%Z) l = None.
Proof.
  intro H. destruct (find _ l) as [x|] eqn:F; [|reflexivity].
  apply find_some in F as [Hx E]. apply Z.eqb_eq in E.
  exfalso. apply H. rewrite <- E. now apply in_map.
Qed.

Lemma filter_snoc_out {A} (f : A -> Z) (l : list A) (a : A) :
  ~ In (f a) (map f l) ->
  filter (fun x => negb (f x =? f a)%Z) (l ++ [a]) = l.
Proof.
  intro H. rewrite filter_app. simpl. rewrite Z.eqb_refl. simpl.
  rewrite app_nil_r. apply filter_none. intros x Hx.
  apply negb_true_iff, Z.eqb_neq. intro E. apply H. rewrite <- E.
  now apply in_map.
Qed.

Lemma find_snoc_in {A} (f : A -> Z) (l : list A) (a : A) :
  ~ In (f a) (map f l) ->
  find (fun x => (f x =? f a)%Z) (l ++ [a]) = Some a.
Proof.
  intro H. rewrite find_append, (find_fresh f (f a) l H). simpl.
  now rewrite Z.eqb_refl.
Qed.

Lemma existsb_fresh {A} (f : A -> Z) (i : Z) (l : list A) :
  ~ In i (map f l) -> existsb (fun x => (f x =? i)%Z) l = false.
Proof.
  intro H. destruct (existsb _ l) eqn:E; [|reflexivity].
  apply existsb_exists in E as (x & Hx & E). apply Z.eqb_eq in E.
  exfalso. apply H. rewrite <- E. now apply in_map.
Qed.

Lemma existsb_find {A} (p : A -> bool) (l : list A) :
  existsb p l = false -> find p l = None.
Proof.
  induction l as [|a l IH]; simpl; [reflexivity|].
  destruct (p a); [discriminate|exact IH].
Qed.

(** X6.  A recalculation forgets the costs of an earlier one (so
    recalculating twice against the same parameters is recalculating once)
    and keeps the ids, the element, the module, the formulas and the markup
    of every element, in order. *)
Theorem calculateElementCosts_recalculation
        (es : list ElementWithValues) (ps ps' : list Param) :
  calculateElementCosts (calculateElementCosts es ps) ps'
  = calculateElementCosts es ps'
  /\ map unpriced (calculateElementCosts es ps) = map unpriced es
  /\ length (calculateElementCosts es ps) = length es.
Proof.
  split; [apply calculateElementCosts_again|].
  split; [apply unpriced_calculateElementCosts|].
  unfold calculateElementCosts. apply length_map.
Qed.

(** X8.  Toggling a parameter whose id is not selected appends it, and
    toggling it again gives the state back with the costs recalculated
    against the original parameters, that is the state itself when its
    elements are as a recalculation leaves them. *)
Theorem handleParameterToggle_round_trip (st : State) (p : Param) :
  ~ In (param_id p) (map param_id (selectedParameters st)) ->
  selectedParameters (handleParameterToggle st p)
  = selectedParameters st ++ [p]
  /\ handleParameterToggle (handleParameterToggle st p) p
     = setSelectedElements st
         (calculateElementCosts (selectedElements st) (selectedParameters st))
  /\ (recalculated st ->
      handleParameterToggle (handleParameterToggle st p) p = st).
Proof.
  intro H.
  assert (E1 : handleParameterToggle st p
               = setSelectedParameters
                   (setSelectedElements st
                      (calculateElementCosts (selectedElements st)
                         (selectedParameters st ++ [p])))
                   (selectedParameters st ++ [p])).
  { unfold handleParameterToggle.
    now rewrite (find_fresh param_id (param_id p) _ H). }
  assert (E2 : handleParameterToggle (handleParameterToggle st p) p
               = setSelectedElements st
                   (calculateElementCosts (selectedElements st)
                      (selectedParameters st))).
  { rewrite E1. unfold handleParameterToggle.
    cbn [selectedParameters selectedElements setSelectedParameters
         setSelectedElements].
    rewrite (find_snoc_in param_id _ p H), (filter_snoc_out param_id _ p H).
    rewrite calculateElementCosts_again. now destruct st. }
  split; [now rewrite E1|]. split; [exact E2|].
  intro P. rewrite E2. unfold recalculated in P. rewrite P. now destruct st.
Qed.

Lemma ids_valueUpdate (i : Z) (v : paramValue) (ps : list Param) :
  map param_id
      (map (fun param => if (param_id param =? i)%Z then withValue param v
                         else param) ps)
  = map param_id ps.
Proof.
  rewrite map_map. apply map_ext. intro q.
  now destruct (param_id q =? i)%Z.
Qed.

Lemma uniqueIds_handleModuleToggle (st : State) (m : TradeModule) :
  uniqueIds st -> uniqueIds (handleModuleToggle st m).
Proof.
  intros (P & M & C). unfold handleModuleToggle, uniqueIds.
  destruct (find _ (selectedModules st)) eqn:F;
    cbn [selectedParameters selectedModules customModules
         setSelectedModules setSelectedElements].
  - split; [exact P|]. split; [now apply ids_filter|exact C].
  - split; [exact P|]. split; [now apply ids_snoc|exact C].
Qed.

(** X13.  No two selected parameters, no two selected modules and no two
    custom modules share an id: this holds initially and is kept by every
    action, a template being one that repeats no parameter id and no module
    id. *)
Theorem uniqueIds_preserved (st : State) (a : action) :
  bringsUniqueIds a -> uniqueIds st ->
  uniqueIds (perform st a) /\ uniqueIds initialState.
Proof.
  intros Ha H. split; [|repeat split; constructor].
  destruct a as [t|m|m|i v|p|now el m|i m field f v|u q];
    cbn [perform bringsUniqueIds] in *.
  - destruct H as (_ & _ & C). destruct Ha as [P M].
    split; [exact P|]. split; [exact M|exact C].
  - now apply uniqueIds_handleModuleToggle.
  - unfold handleAddCustomModule.
    destruct (existsb _ (customModules st)) eqn:E;
      apply uniqueIds_handleModuleToggle; [exact H|].
    destruct H as (P & M & C). split; [exact P|]. split; [exact M|].
    cbn [customModules]. apply ids_snoc; [exact C|].
    now apply existsb_find.
  - destruct H as (P & M & C). unfold handleParameterValueUpdate, uniqueIds.
    cbn [selectedParameters selectedModules customModules
         setSelectedParameters setSelectedElements].
    rewrite ids_valueUpdate. now repeat split.
  - destruct H as (P & M & C). unfold handleParameterToggle, uniqueIds.
    cbn [selectedParameters selectedModules customModules
         setSelectedParameters setSelectedElements].
    split; [|now split].
    destruct (find _ (selectedParameters st)) eqn:F;
      [now apply ids_filter|now apply ids_snoc].
  - unfold handleElementToggle.
    destruct (find _ (selectedElements st)); exact H.
  - unfold handleElementValueUpdate. destruct (_ || _); exact H.
  - exact H.
Qed.

(** X11.  Toggling a module whose id is not selected appends it and
    touches nothing else; toggling it again gives the state back without
    the priced elements of that module id, that is the state itself when
    there was none. *)
Theorem handleModuleToggle_round_trip (st : State) (m : TradeModule) :
  ~ In (module_id m) (map module_id (selectedModules st)) ->
  handleModuleToggle st m
  = setSelectedModules st (selectedModules st ++ [m])
  /\ handleModuleToggle (handleModuleToggle st m) m
     = setSelectedElements st
         (filter (fun el => negb (module_id (module el) =? module_id m)%Z)
                 (selectedElements st))
  /\ ((forall el, In el (selectedElements st) ->
                  module_id (module el) <> module_id m) ->
      handleModuleToggle (handleModuleToggle st m) m = st).
Proof.
  intro H.
  assert (E1 : handleModuleToggle st m
               = setSelectedModules st (selectedModules st ++ [m])).
  { unfold handleModuleToggle.
    now rewrite (find_fresh module_id (module_id m) _ H). }
  assert (E2 : handleModuleToggle (handleModuleToggle st m) m
               = setSelectedElements st
                   (filter (fun el =>
                              negb (module_id (module el) =? module_id m)%Z)
                           (selectedElements st))).
  { rewrite E1. unfold handleModuleToggle.
    cbn [selectedModules selectedElements setSelectedModules
         setSelectedElements].
    rewrite (find_snoc_in module_id _ m H), (filter_snoc_out module_id _ m H).
    now destruct st. }
  split; [exact E1|]. split; [exact E2|].
  intro N. rewrite E2, filter_none; [now destruct st|].
  intros el Hel. apply negb_true_iff, Z.eqb_neq. now apply N.
Qed.

(** X12.  Adding a custom module with a new id appends it to the custom
    modules and to the selected ones, so the list of the tab shows it
    twice; adding it a second time leaves it custom but deselects it and
    drops the priced elements of its id. *)
Theorem handleAddCustomModule_twice (st : State) (m : TradeModule) :
  ~ In (module_id m) (map module_id (selectedModules st)) ->
  ~ In (module_id m) (map module_id (customModules st)) ->
  let st1 := handleAddCustomModule st m in
  let st2 := handleAddCustomModule st1 m in
  selectedModules st1 = selectedModules st ++ [m]
  /\ customModules st1 = customModules st ++ [m]
  /\ selectedElements st1 = selectedElements st
  /\ filteredModules (selectedModules st1) (customModules st1)
     = selectedModules st ++ [m] ++ customModules st ++ [m]
  /\ selectedModules st2 = selectedModules st
  /\ customModules st2 = customModules st ++ [m]
  /\ selectedElements st2
     = filter (fun el => negb (module_id (module el) =? module_id m)%Z)
              (selectedElements st).
Proof.
  intros Hs Hc st1 st2.
  assert (E1 : st1 = {| selectedTemplate := selectedTemplate st;
                        selectedModules := selectedModules st ++ [m];
                        customModules := customModules st ++ [m];
                        selectedParameters := selectedParameters st;
                        selectedElements := selectedElements st;
                        useGlobalMarkup := useGlobalMarkup st;
                        globalMarkupPercentage := globalMarkupPercentage st |}).
  { subst st1. unfold handleAddCustomModule.
    rewrite (existsb_fresh module_id (module_id m) _ Hc).
    unfold handleModuleToggle. cbn [selectedModules].
    now rewrite (find_fresh module_id (module_id m) _ Hs). }
  assert (X : existsb (fun x => (module_id x =? module_id m)%Z)
                      (customModules st ++ [m]) = true).
  { rewrite existsb_app. simpl. rewrite Z.eqb_refl. apply orb_true_r. }
  assert (E2 : st2 = {| selectedTemplate := selectedTemplate st;
                        selectedModules := selectedModules st;
                        customModules := customModules st ++ [m];
                        selectedParameters := selectedParameters st;
                        selectedElements :=
                          filter (fun el =>
                                    negb (module_id (module el)
                                          =? module_id m)%Z)
                                 (selectedElements st);
                        useGlobalMarkup := useGlobalMarkup st;
                        globalMarkupPercentage := globalMarkupPercentage st |}).
  { subst st2. rewrite E1. unfold handleAddCustomModule.
    cbn [customModules]. rewrite X. unfold handleModuleToggle.
    cbn [selectedModules selectedElements].
    rewrite (find_snoc_in module_id _ m Hs).
    cbn [setSelectedModules setSelectedElements selectedTemplate
         selectedModules customModules selectedParameters selectedElements
         useGlobalMarkup globalMarkupPercentage].
    now rewrite (filter_snoc_out module_id _ m Hs). }
  rewrite E1, E2. cbn. unfold filteredModules.
  repeat split. now rewrite <- app_assoc.
Qed.


Lemma handleParameterValueUpdate_eq (st : State) (i : Z) (v : paramValue) :
  handleParameterValueUpdate st i v
  = {| selectedTemplate := selectedTemplate st;
       selectedModules := selectedModules st;
       customModules := customModules st;
       selectedParameters := map (setValue i v) (selectedParameters st);
       selectedElements :=
         calculateElementCosts (selectedElements st)
           (map (setValue i v) (selectedParameters st));
       useGlobalMarkup := useGlobalMarkup st;
       globalMarkupPercentage := globalMarkupPercentage st |}.
Proof. reflexivity. Qed.

Lemma setValue_twice (i : Z) (v w : paramValue) (q : Param) :
  setValue i w (setValue i v q) = setValue i w q.
Proof.
  unfold setValue. destruct (param_id q =? i)%Z eqn:E;
    cbn [param_id withValue]; now rewrite E.
Qed.

Lemma setValue_swap (i j : Z) (v w : paramValue) (q : Param) :
  i <> j -> setValue j w (setValue i v q) = setValue i v (setValue j w q).
Proof.
  intro N. unfold setValue.
  destruct (param_id q =? i)%Z eqn:Ei; destruct (param_id q =? j)%Z eqn:Ej;
    cbn [param_id withValue]; rewrite ?Ei, ?Ej; try reflexivity.
  apply Z.eqb_eq in Ei, Ej. congruence.
Qed.

(** X10.  A value update keeps the ids and the names of the parameters, in
    order, and sets the value of those with the given id; the last of two
    updates of one id wins, updates of different ids commute, and an update
    of an id that is not selected leaves the parameters as they are. *)
Theorem handleParameterValueUpdate_composes
        (st : State) (i j : Z) (v w : paramValue) :
  let upd := handleParameterValueUpdate in
  map param_id (selectedParameters (upd st i v))
  = map param_id (selectedParameters st)
  /\ map param_name (selectedParameters (upd st i v))
     = map param_name (selectedParameters st)
  /\ (forall q, In q (selectedParameters (upd st i v)) ->
                param_id q = i -> param_value q = v)
  /\ upd (upd st i v) i w = upd st i w
  /\ (i <> j -> upd (upd st i v) j w = upd (upd st j w) i v)
  /\ (~ In i (map param_id (selectedParameters st)) ->
      selectedParameters (upd st i v) = selectedParameters st).
Proof.
  intro upd. subst upd. rewrite !handleParameterValueUpdate_eq.
  cbn [selectedParameters selectedElements selectedTemplate selectedModules
       customModules useGlobalMarkup globalMarkupPercentage].
  split; [apply ids_valueUpdate|].
  split.
  { rewrite map_map. apply map_ext. intro q. unfold setValue.
    now destruct (param_id q =? i)%Z. }
  split.
  { intros q Hq Hi. apply in_map_iff in Hq as (x & <- & _).
    unfold setValue in *.
    destruct (param_id x =? i)%Z eqn:E; [reflexivity|].
    apply Z.eqb_neq in E. contradiction. }
  split.
  { rewrite calculateElementCosts_again, map_map.
    now rewrite (map_ext _ _ (setValue_twice i v w)). }
  split.
  { intro N. rewrite !calculateElementCosts_again, !map_map.
    now rewrite (map_ext _ _ (fun q => setValue_swap i j v w q N)). }
  intro N. rewrite <- (map_id (selectedParameters st)) at 2.
  apply map_ext_in. intros q Hq. unfold setValue.
  destruct (param_id q =? i)%Z eqn:E; [|reflexivity].
  apply Z.eqb_eq in E. exfalso. apply N. rewrite <- E. now apply in_map.
Qed.

End HandlersMore.

Lemma text_eqb_refl (a : text) : text_eqb a a = true.
Proof. unfold text_eqb. now destruct (text_eq_dec a a). Qed.

Lemma mentions_token (f : text) (p : Param) :
  In (param_name p) (tokens f) -> mentions f p = true.
Proof.
  intro H. apply existsb_exists. exists (param_name p).
  split; [exact H|apply text_eqb_refl].
Qed.

Lemma mentions_false (f : text) (p : Param) :
  ~ In (param_name p) (tokens f) -> mentions f p = false.
Proof.
  intro H. destruct (mentions f p) eqn:M; [|reflexivity].
  apply existsb_exists in M as (t & Ht & E).
  apply text_eqb_eq in E. subst t. contradiction.
Qed.

Lemma find_filter_same {A} (p q : A -> bool) (l : list A) :
  (forall x, p x = true -> q x = true) -> find p (filter q l) = find p l.
Proof.
  intro H. induction l as [|a l IH]; simpl; [reflexivity|].
  destruct (q a) eqn:Q; simpl.
  - now rewrite IH.
  - destruct (p a) eqn:P; [|exact IH].
    rewrite (H a P) in Q. discriminate.
Qed.

Lemma lookup_mentioned (f : text) (ps : list Param) (t : text) :
  In t (tokens f) -> lookup (filter (mentions f) ps) t = lookup ps t.
Proof.
  intro Ht. unfold lookup. rewrite find_filter_same; [reflexivity|].
  intros x E. apply text_eqb_eq in E. subst t. now apply mentions_token.
Qed.

Lemma selfContained_incl (l l' : list Param) :
  (forall x, In x l' -> In x l) -> selfContained l -> selfContained l'.
Proof.
  intros I H q Hq. destruct (H q (I q Hq)) as [A B]. split; [exact A|].
  intros r Hr. apply B. now apply I.
Qed.

Lemma blank_not_word (c : ascii) :
  Arith.isBlank c = true -> isWordChar c = false.
Proof.
  destruct c as [[] [] [] [] [] [] [] []]; vm_compute; congruence.
Qed.

Lemma replaceFrom_separators (name0 : ascii) (name' repl s : text) :
  forallb isWordChar (name0 :: name') = true ->
  forallb (fun c => negb (isWordChar c)) s = true ->
  forall before prevW,
    RegExp.replaceFrom (name0 :: name') repl 0 before prevW s = s.
Proof.
  intros Hn. induction s as [|c s IH]; intros Hs before prevW.
  - cbn [RegExp.replaceFrom]. now rewrite matchAt_end.
  - cbn [forallb] in Hs. apply andb_true_iff in Hs as [Hc Hs].
    apply negb_true_iff in Hc. cbn [RegExp.replaceFrom].
    rewrite (matchAt_separator _ _ Hn _ _ _ Hc). f_equal. now apply IH.
Qed.

Lemma lex_blank (f : text) :
  forallb Arith.isBlank f = true -> Arith.lex f = Some [].
Proof.
  induction f as [|c f IH]; intro H; [reflexivity|].
  cbn [forallb] in H. apply andb_true_iff in H as [Hc Hf].
  rewrite lex_cons, Hc. now apply IH.
Qed.

Section EvaluatorMore2.

Context {host : Host}.

Lemma substituteParameters_separators (f : text) (ps : list Param) :
  Forall (fun p => wordName (param_name p)) ps ->
  forallb (fun c => negb (isWordChar c)) f = true ->
  substituteParameters f ps = Normal f.
Proof.
  intros Hn Hf. unfold substituteParameters.
  induction Hn as [|p ps [Hp Hw] _ IH]; [reflexivity|].
  cbn [fold_left bind]. unfold replaceParameter at 2.
  rewrite (wordName_literal _ Hw).
  destruct (param_name p) as [|c n]; [congruence|].
  unfold RegExp.replaceAll. rewrite (replaceFrom_separators _ _ _ _ Hw Hf).
  exact IH.
Qed.

(** X3.  A formula made of blanks only (spaces and tabs) is not empty, so
    it is evaluated: under names made of word characters it is handed over
    as it is, the function returns [undefined], and the call returns 0
    without reporting an error. *)
Theorem evaluateFormula_blank (f : text) (ps : list Param) :
  Forall (fun p => wordName (param_name p)) ps ->
  f <> [] -> forallb Arith.isBlank f = true ->
  evaluateFormula_run (Str f) ps = ([Evaluate f], Normal 0%float)
  /\ evaluateFormula (Str f) ps = 0%float.
Proof.
  intros Hn Hf Hb.
  assert (S : forallb (fun c => negb (isWordChar c)) f = true).
  { apply forallb_forall. intros c Hc. apply negb_true_iff, blank_not_word.
    now apply (proj1 (forallb_forall _ _) Hb). }
  assert (M : RegExp.matchIdentifiers false f = []).
  { rewrite matchIdentifiers_tokens.
    assert (G : forall prevW, filter startsIdentifier (tokensFrom prevW f) = []).
    { clear Hf Hb. induction f as [|c f IH]; intro prevW; [reflexivity|].
      cbn [forallb] in S. apply andb_true_iff in S as [Sc Sf].
      apply negb_true_iff in Sc. cbn [tokensFrom]. rewrite Sc.
      cbn [filter startsIdentifier].
      unfold isWordChar in Sc. apply orb_false_iff in Sc as [Sc _].
      rewrite Sc. now apply IH. }
    apply G. }
  assert (E : evaluateFormula_run (Str f) ps = ([Evaluate f], Normal 0%float)).
  { destruct f as [|c f]; [congruence|].
    unfold evaluateFormula_run. cbn [falsy]. unfold tryBlock.
    rewrite (substituteParameters_separators _ _ Hn S), M.
    unfold newFunctionReturn, Arith.run. rewrite (lex_blank _ Hb).
    reflexivity. }
  split; [exact E|]. unfold evaluateFormula. now rewrite E.
Qed.

(** X4.  Only the parameters that the formula mentions matter: under the
    conditions of the whole-token substitution, the call does and returns
    the same with the parameters whose name is no token of the formula
    left out. *)
Theorem evaluateFormula_mentioned_parameters
        (f : text) (ps : list Param) :
  Forall (fun p => wordName (param_name p)) ps ->
  selfContained ps ->
  evaluateFormula_run (Str f) ps
  = evaluateFormula_run (Str f) (filter (mentions f) ps)
  /\ evaluateFormula (Str f) ps
     = evaluateFormula (Str f) (filter (mentions f) ps).
Proof.
  intros Hw Hs.
  assert (I : forall x, In x (filter (mentions f) ps) -> In x ps).
  { intros x Hx. now apply filter_In in Hx. }
  assert (Hw' : Forall (fun p => wordName (param_name p))
                       (filter (mentions f) ps)).
  { apply Forall_forall. intros x Hx.
    exact (proj1 (Forall_forall _ _) Hw x (I x Hx)). }
  assert (S : substituteParameters f ps
              = substituteParameters f (filter (mentions f) ps)).
  { rewrite (substituteParameters_simultaneous f Hw Hs).
    rewrite (substituteParameters_simultaneous f Hw'
               (selfContained_incl _ _ I Hs)).
    unfold substituteTokens. do 2 f_equal. apply map_ext_in. intros t Ht.
    unfold replaced. now rewrite lookup_mentioned. }
  assert (E : evaluateFormula_run (Str f) ps
              = evaluateFormula_run (Str f) (filter (mentions f) ps)).
  { unfold evaluateFormula_run, tryBlock. now rewrite S. }
  split; [exact E|]. unfold evaluateFormula. now rewrite E.
Qed.

Lemma evaluateFormula_skip (f : text) (ps : list Param) (p : Param) :
  Forall (fun q => wordName (param_name q)) (ps ++ [p]) ->
  selfContained (ps ++ [p]) ->
  mentions f p = false ->
  evaluateFormula (Str f) (ps ++ [p]) = evaluateFormula (Str f) ps.
Proof.
  intros Hw Hs Hm.
  assert (I : forall x, In x ps -> In x (ps ++ [p])).
  { intros x Hx. apply in_or_app. now left. }
  assert (Hw' : Forall (fun q => wordName (param_name q)) ps).
  { now apply Forall_app in Hw. }
  assert (S : substituteParameters f (ps ++ [p]) = substituteParameters f ps).
  { rewrite (substituteParameters_simultaneous f Hw Hs).
    rewrite (substituteParameters_simultaneous f Hw'
               (selfContained_incl _ _ I Hs)).
    unfold substituteTokens. do 2 f_equal. apply map_ext_in. intros t Ht.
    unfold replaced.
    rewrite <- (lookup_mentioned f (ps ++ [p]) t Ht).
    rewrite <- (lookup_mentioned f ps t Ht).
    rewrite filter_app. cbn [filter]. now rewrite Hm, app_nil_r. }
  unfold evaluateFormula, evaluateFormula_run, tryBlock. now rewrite S.
Qed.

Lemma calculateTotalCost_costs (es es' : list ElementWithValues)
      (enabled : bool) (percentage : float) :
  map costsOf es = map costsOf es' ->
  calculateTotalCost es enabled percentage
  = calculateTotalCost es' enabled percentage.
Proof.
  unfold calculateTotalCost. generalize 0%float.
  revert es'. induction es as [|e es IH]; intros [|e' es'] acc H;
    try discriminate; [reflexivity|].
  cbn [map] in H. unfold costsOf at 1 2 in H.
  injection H as Hm Hl Hk Ht. cbn [fold_left].
  rewrite Hm, Hl, Hk. now apply IH.
Qed.

(** X9.  Selecting a parameter that no pricing formula of a selected
    element mentions changes no cost and no markup, hence no total, when
    the costs are in step with the formulas. *)
Theorem handleParameterToggle_unmentioned (st : State) (p : Param) :
  ~ In (param_id p) (map param_id (selectedParameters st)) ->
  Forall (fun q => wordName (param_name q)) (selectedParameters st ++ [p]) ->
  selfContained (selectedParameters st ++ [p]) ->
  (forall e, In e (selectedElements st) ->
             mentions (materialFormula e) p = false
             /\ mentions (laborFormula e) p = false) ->
  costsFollowFormulas st ->
  map costsOf (selectedElements (handleParameterToggle st p))
  = map costsOf (selectedElements st)
  /\ forall enabled percentage,
       calculateTotalCost (selectedElements (handleParameterToggle st p))
                          enabled percentage
       = calculateTotalCost (selectedElements st) enabled percentage.
Proof.
  intros Hi Hw Hs Hm P.
  assert (E : map costsOf (selectedElements (handleParameterToggle st p))
              = map costsOf (selectedElements st)).
  { unfold handleParameterToggle.
    rewrite (find_fresh param_id (param_id p) _ Hi).
    cbn [selectedElements setSelectedParameters setSelectedElements].
    unfold calculateElementCosts. rewrite map_map.
    apply map_ext_in. intros e He.
    destruct (Hm e He) as [M L]. destruct (P e He) as [Pm Pl].
    unfold costsOf. cbn [material_cost labor_cost markup].
    now rewrite (evaluateFormula_skip _ _ _ Hw Hs M),
                (evaluateFormula_skip _ _ _ Hw Hs L), <- Pm, <- Pl. }
  split; [exact E|]. intros. now apply calculateTotalCost_costs.
Qed.

End EvaluatorMore2.

Lemma truthy_orNumber (m : float) : truthy (orNumber m 10) = true.
Proof. unfold orNumber. destruct (truthy m) eqn:T; [exact T|reflexivity]. Qed.

Lemma fold_left_snoc {A B} (f : A -> B -> A) (l : list B) (b : B) (a : A) :
  fold_left f (l ++ [b]) a = f (fold_left f l a) b.
Proof. now rewrite fold_left_app. Qed.

Section MoreHandlers.

Context {host : Host}.

Lemma substituteParameters_nameAndText (ps ps' : list Param) :
  map nameAndText ps = map nameAndText ps' ->
  forall acc,
    fold_left
      (fun acc param =>
         bind acc (replaceParameter (param_name param)
                                    (valueToString (param_value param))))
      ps acc
    = fold_left
        (fun acc param =>
           bind acc (replaceParameter (param_name param)
                                      (valueToString (param_value param))))
        ps' acc.
Proof.
  revert ps'. induction ps as [|p ps IH]; intros [|p' ps'] H acc;
    try discriminate; [reflexivity|].
  cbn [map] in H. unfold nameAndText at 1 2 in H.
  injection H as Hn Hv Ht. cbn [fold_left]. rewrite Hn, Hv. now apply IH.
Qed.

(** X5.  The evaluator reads of the parameters their names and the texts
    of their values only: a value typed as text gives the same result, and
    the same costs, as the number with that text. *)
Theorem evaluateFormula_reads_value_text
        (f : maybeText) (ps ps' : list Param) :
  map nameAndText ps = map nameAndText ps' ->
  evaluateFormula_run f ps = evaluateFormula_run f ps'
  /\ evaluateFormula f ps = evaluateFormula f ps'
  /\ forall es, map costsOf (calculateElementCosts es ps)
                = map costsOf (calculateElementCosts es ps').
Proof.
  intro H.
  assert (R : forall g, evaluateFormula_run g ps = evaluateFormula_run g ps').
  { intro g. unfold evaluateFormula_run, tryBlock, substituteParameters.
    destruct (falsy g); [reflexivity|]. destruct g as [| |s]; try reflexivity.
    now rewrite (substituteParameters_nameAndText ps ps' H). }
  assert (E : forall g, evaluateFormula g ps = evaluateFormula g ps').
  { intro g. unfold evaluateFormula. now rewrite R. }
  split; [apply R|]. split; [apply E|].
  intro es. unfold calculateElementCosts. rewrite !map_map.
  apply map_ext. intro e. unfold costsOf.
  cbn [material_cost labor_cost markup]. now rewrite !E.
Qed.

(** X14.  Selecting a template replaces the selection: the result depends
    on the earlier state through its custom modules and its global markup
    only, selecting the same template again changes nothing, there is one
    priced element per template element, and none has a markup of 0 or
    NaN. *)
Theorem handleTemplateSelect_replaces (st st' : State) (t : Template) :
  (customModules st = customModules st' ->
   useGlobalMarkup st = useGlobalMarkup st' ->
   globalMarkupPercentage st = globalMarkupPercentage st' ->
   handleTemplateSelect st t = handleTemplateSelect st' t)
  /\ handleTemplateSelect (handleTemplateSelect st t) t
     = handleTemplateSelect st t
  /\ length (selectedElements (handleTemplateSelect st t))
     = length (template_elements t)
  /\ (forall e, In e (selectedElements (handleTemplateSelect st t)) ->
                truthy (markup e) = true).
Proof.
  split; [|split; [|split]].
  - intros C U G. unfold handleTemplateSelect. now rewrite C, U, G.
  - reflexivity.
  - unfold handleTemplateSelect, calculateElementCosts.
    cbn [selectedElements]. now rewrite !length_map.
  - intros e He. unfold handleTemplateSelect, calculateElementCosts in He.
    cbn [selectedElements] in He. rewrite map_map in He.
    apply in_map_iff in He as (te & <- & _). cbn [markup].
    destruct (te_markup te); [apply truthy_orNumber|reflexivity].
Qed.

(** X15.  Toggling in a pair that is not selected raises the total by the
    amount of the new element: its two evaluated costs, marked up by the
    global percentage under the override and by 10 otherwise. *)
Theorem handleElementToggle_adds_term
        (st : State) (now : Z) (el : Element) (m : TradeModule)
        (enabled : bool) (percentage : float) :
  find (samePair (element_id el) (module_id m)) (selectedElements st) = None ->
  calculateTotalCost (selectedElements (handleElementToggle st now el m))
                     enabled percentage
  = (calculateTotalCost (selectedElements st) enabled percentage
     + (evaluateFormula (Str (orText (element_formula el) []))
                        (selectedParameters st)
        + evaluateFormula (Str (orText (element_labor_formula el) []))
                          (selectedParameters st))
       * (1 + (if enabled then percentage else 10) / 100))%float.
Proof.
  intro F. unfold handleElementToggle. rewrite F.
  cbn [selectedElements setSelectedElements].
  unfold calculateTotalCost. rewrite fold_left_snoc.
  cbn [material_cost labor_cost markup]. reflexivity.
Qed.

End MoreHandlers.

Section TabFacts.

Context {host : Host}.

Lemma unmarked_markup (i j : Z) (v : float) (es : list ElementWithValues) :
  map unmarked
      (map (fun e => if samePair i j e
                     then setField e (chars "markup") [] v else e) es)
  = map unmarked es.
Proof.
  rewrite map_map. apply map_ext. intro e.
  now destruct (samePair i j e).
Qed.

(** X16.  A markup edit always ends the editing; it changes neither the
    parameters, nor the modules, nor anything of an element but its markup;
    a text that [parseFloat] reads as NaN changes nothing at all, and
    otherwise the elements of the pair get the number read as markup and
    the others stay. *)
Theorem handleMarkupChange_effect
        (st : State) (tab : TradesTab.Local) (i j : Z) (value : text) :
  let st' := fst (TradesTab.handleMarkupChange st tab i j value) in
  let tab' := snd (TradesTab.handleMarkupChange st tab i j value) in
  TradesTab.editingMarkup tab' = None
  /\ map unmarked (selectedElements st') = map unmarked (selectedElements st)
  /\ selectedParameters st' = selectedParameters st
  /\ selectedModules st' = selectedModules st
  /\ (is_nan (parseFloat value) = true -> st' = st)
  /\ (is_nan (parseFloat value) = false ->
      forall e, In e (selectedElements st') ->
        if samePair i j e then markup e = parseFloat value
        else In e (selectedElements st)).
Proof.
  intros st' tab'. subst st' tab'. unfold TradesTab.handleMarkupChange.
  cbn [fst snd]. split; [reflexivity|].
  destruct (is_nan (parseFloat value)) eqn:N; cbn [negb].
  - repeat split; try reflexivity. discriminate.
  - unfold handleElementValueUpdate, moduleOfId.
    cbn [module_id orb selectedElements selectedParameters selectedModules
         setSelectedElements].
    change (text_eqb (chars "markup") (chars "formula")) with false.
    change (text_eqb (chars "markup") (chars "labor_formula")) with false.
    cbn [orb selectedElements selectedParameters selectedModules
         setSelectedElements].
    split; [apply unmarked_markup|].
    repeat split; try discriminate.
    intros _ e He. apply in_map_iff in He as (x & <- & Hx).
    destruct (samePair i j x) eqn:S.
    + assert (S' : samePair i j (setField x (chars "markup") [] (parseFloat value)) = true)
        by exact S.
      rewrite S'. reflexivity.
    + now rewrite S.
Qed.


Lemma handleMarkupChange_globalMarkup
      (st : State) (tab : TradesTab.Local) (i j : Z) (value : text) :
  useGlobalMarkup (fst (TradesTab.handleMarkupChange st tab i j value))
  = useGlobalMarkup st
  /\ globalMarkupPercentage
       (fst (TradesTab.handleMarkupChange st tab i j value))
     = globalMarkupPercentage st.
Proof.
  unfold TradesTab.handleMarkupChange. cbn [fst].
  destruct (negb _); [|now split].
  unfold handleElementValueUpdate. destruct (_ || _); now split.
Qed.

Lemma inStep_tabStep (s : State * TradesTab.Local) (e : tabEvent) :
  inStep (fst s) (snd s) -> inStep (fst (tabStep s e)) (snd (tabStep s e)).
Proof.
  destruct s as [st tab]. cbn [fst snd]. intros [U G].
  destruct e as [i value|v|b|i j|i j value|k| |]; cbn [tabStep].
  - split; [exact U|exact G].
  - split; reflexivity.
  - split; reflexivity.
  - split; [exact U|exact G].
  - destruct (handleMarkupChange_globalMarkup st tab i j value) as [U' G'].
    split; [now rewrite U'|now rewrite G'].
  - split; [exact U|exact G].
  - split; reflexivity.
  - split; [exact U|exact G].
Qed.

(** X17.  Once the tab is mounted, whatever its handlers and effects do
    and in whatever order, the tab and the page hold the same global
    markup: the total shown is the total for the page's values, and the
    effect that follows the props has nothing to change. *)
Theorem globalMarkup_inStep (st : State) (events : list tabEvent) :
  let s := fold_left tabStep events (st, mounted st) in
  inStep (fst s) (snd s)
  /\ TradesTab.shownTotal (fst s) (snd s)
     = calculateTotalCost (selectedElements (fst s))
                          (useGlobalMarkup (fst s))
                          (globalMarkupPercentage (fst s))
  /\ TradesTab.syncProps (fst s) (snd s) = snd s.
Proof.
  intro s. subst s.
  assert (I : forall l s0, inStep (fst s0) (snd s0) ->
                inStep (fst (fold_left tabStep l s0))
                       (snd (fold_left tabStep l s0))).
  { induction l as [|e l IH]; intros s0 H; [exact H|].
    cbn [fold_left]. apply IH. now apply inStep_tabStep. }
  assert (H : inStep (fst (fold_left tabStep events (st, mounted st)))
                     (snd (fold_left tabStep events (st, mounted st)))).
  { apply I. split; reflexivity. }
  split; [exact H|].
  destruct (fold_left tabStep events (st, mounted st)) as [st' tab'].
  cbn [fst snd] in *. destruct H as [U G]. split.
  - unfold TradesTab.shownTotal. now rewrite U, G.
  - unfold TradesTab.syncProps, isUseGlobalMarkup. rewrite <- U, <- G.
    now destruct tab'.
Qed.

End TabFacts.

Lemma setKey_fold (ms : list TradeModule) (k : Z) :
  forall acc,
    fold_left (fun a m => TradesTab.setKey a (module_id m) true) ms acc k
    = if existsb (fun m => (module_id m =? k)%Z) ms then Some true
      else acc k.
Proof.
  induction ms as [|m ms IH]; intro acc; [reflexivity|].
  cbn [fold_left existsb]. rewrite IH. unfold TradesTab.setKey.
  rewrite (Z.eqb_sym k). destruct (existsb _ ms); [now rewrite orb_true_r|].
  rewrite orb_false_r. now destruct (module_id m =? k)%Z.
Qed.

(** X18.  After the effect that opens the accordions, a module is open
    exactly when its id is among the selected modules; a toggle flips the
    module it names and no other, and two toggles of one module cancel. *)
Theorem accordions_follow (st : State) (tab : TradesTab.Local) (k j : Z) :
  (TradesTab.isActive (TradesTab.openAccordions st tab) k = true
   <-> In k (map module_id (selectedModules st)))
  /\ TradesTab.isActive (TradesTab.toggleModuleAccordion tab k) j
     = (if (j =? k)%Z then negb (TradesTab.isActive tab k)
        else TradesTab.isActive tab j)
  /\ TradesTab.isActive
       (TradesTab.toggleModuleAccordion
          (TradesTab.toggleModuleAccordion tab k) k) j
     = TradesTab.isActive tab j.
Proof.
  split; [|split].
  - unfold TradesTab.isActive, TradesTab.openAccordions.
    cbn [TradesTab.activeModuleAccordions
         TradesTab.setActiveModuleAccordions].
    rewrite setKey_fold.
    destruct (existsb _ (selectedModules st)) eqn:E.
    + split; [intros _|reflexivity].
      apply existsb_exists in E as (m & Hm & E). apply Z.eqb_eq in E.
      rewrite <- E. now apply in_map.
    + split; [discriminate|]. intro H.
      apply in_map_iff in H as (m & E' & Hm).
      assert (X : existsb (fun m => (module_id m =? k)%Z)
                          (selectedModules st) = true).
      { apply existsb_exists. exists m. split; [exact Hm|].
        now apply Z.eqb_eq. }
      rewrite X in E. discriminate.
  - unfold TradesTab.isActive, TradesTab.toggleModuleAccordion,
      TradesTab.setKey.
    cbn [TradesTab.activeModuleAccordions
         TradesTab.setActiveModuleAccordions].
    now destruct (j =? k)%Z.
  - unfold TradesTab.isActive, TradesTab.toggleModuleAccordion,
      TradesTab.setKey.
    cbn [TradesTab.activeModuleAccordions
         TradesTab.setActiveModuleAccordions].
    rewrite Z.eqb_refl. destruct (j =? k)%Z eqn:E; [|reflexivity].
    apply Z.eqb_eq in E. subst j.
    rewrite negb_involutive. reflexivity.
Qed.

(** X20.  The stored phone number is the input without the characters
    outside digits, white space and [- + ( ) .]: it has no other character,
    keeps the allowed ones in order, is the input itself when the input has
    only allowed characters, is no longer than the input, and is stable
    under a second pass; the other fields are kept. *)
Theorem handlePhoneInput_sanitises
        (value : ProposalDetailsTab.Details) (inputValue : text) :
  let value' := ProposalDetailsTab.handlePhoneInput value inputValue in
  forallb ProposalDetailsTab.isPhoneChar
          (ProposalDetailsTab.phone_number value') = true
  /\ (forall c, In c (ProposalDetailsTab.phone_number value') <->
                In c inputValue /\ ProposalDetailsTab.isPhoneChar c = true)
  /\ (forallb ProposalDetailsTab.isPhoneChar inputValue = true ->
      ProposalDetailsTab.phone_number value' = inputValue)
  /\ ProposalDetailsTab.handlePhoneInput
       value' (ProposalDetailsTab.phone_number value') = value'
  /\ (length (ProposalDetailsTab.phone_number value') <= length inputValue)%nat
  /\ ProposalDetailsTab.name value' = ProposalDetailsTab.name value
  /\ ProposalDetailsTab.description value'
     = ProposalDetailsTab.description value
  /\ ProposalDetailsTab.client_name value'
     = ProposalDetailsTab.client_name value
  /\ ProposalDetailsTab.client_email value'
     = ProposalDetailsTab.client_email value
  /\ ProposalDetailsTab.address value' = ProposalDetailsTab.address value
  /\ ProposalDetailsTab.image value' = ProposalDetailsTab.image value.
Proof.
  intro value'. subst value'. unfold ProposalDetailsTab.handlePhoneInput.
  cbn [ProposalDetailsTab.phone_number ProposalDetailsTab.name
       ProposalDetailsTab.description ProposalDetailsTab.client_name
       ProposalDetailsTab.client_email ProposalDetailsTab.address
       ProposalDetailsTab.image].
  assert (F : forallb ProposalDetailsTab.isPhoneChar
                      (filter ProposalDetailsTab.isPhoneChar inputValue)
              = true).
  { apply forallb_forall. intros c Hc. now apply filter_In in Hc. }
  split; [exact F|]. split; [intro c; apply filter_In|].
  split.
  { intro H. apply filter_none. now apply forallb_forall. }
  split.
  { f_equal. apply filter_none. now apply forallb_forall. }
  split; [apply filter_length_le|]. repeat split.
Qed.

Lemma is_zero_spec (x : float) :
  is_zero x = true <-> exists s, Prim2SF x = S754_zero s.
Proof.
  unfold is_zero. rewrite eqb_spec.
  change (Prim2SF zero) with (S754_zero false).
  destruct (Prim2SF x) as [s|s| |s m e]; cbn.
  - split; [intros _; now exists s|reflexivity].
  - split; [destruct s; discriminate|intros [s' H]; discriminate].
  - split; [discriminate|intros [s' H]; discriminate].
  - split; [destruct s; discriminate|intros [s' H]; discriminate].
Qed.

Lemma upToZeroSign_refl (x : float) : upToZeroSign x x.
Proof. now left. Qed.

Lemma upToZeroSign_orNumber (x : float) :
  is_nan x = false -> upToZeroSign (orNumber x 0) x.
Proof.
  intro N. unfold orNumber, truthy. rewrite N, orb_false_r.
  destruct (is_zero x) eqn:Z; cbn [negb]; [right|now left].
  split; [reflexivity|exact Z].
Qed.

Lemma upToZeroSign_add (a a' b b' : float) :
  upToZeroSign a a' -> upToZeroSign b b' ->
  upToZeroSign (a + b) (a' + b').
Proof.
  intros [->|[Za Za']] [->|[Zb Zb']]; [now left| | |].
  - apply is_zero_spec in Zb as [s Hb], Zb' as [s' Hb'].
    destruct (Prim2SF a') as [sa|sa| |sa ma ea] eqn:Ha.
    + right. split; apply is_zero_spec; rewrite add_spec, Ha, ?Hb, ?Hb';
        unfold SF64add, SFadd; destruct sa, s; destruct s'; eexists;
        reflexivity.
    + left. apply Prim2SF_inj. now rewrite !add_spec, Ha, Hb, Hb'.
    + left. apply Prim2SF_inj. now rewrite !add_spec, Ha, Hb, Hb'.
    + left. apply Prim2SF_inj. now rewrite !add_spec, Ha, Hb, Hb'.
  - apply is_zero_spec in Za as [s Ha], Za' as [s' Ha'].
    destruct (Prim2SF b') as [sb|sb| |sb mb eb] eqn:Hb.
    + right. split; apply is_zero_spec; rewrite add_spec, Hb, ?Ha, ?Ha';
        unfold SF64add, SFadd; destruct sb, s; destruct s'; eexists;
        reflexivity.
    + left. apply Prim2SF_inj. now rewrite !add_spec, Ha, Ha', Hb.
    + left. apply Prim2SF_inj. now rewrite !add_spec, Ha, Ha', Hb.
    + left. apply Prim2SF_inj. now rewrite !add_spec, Ha, Ha', Hb.
  - apply is_zero_spec in Za as [sa Ha], Za' as [sa' Ha'].
    apply is_zero_spec in Zb as [sb Hb], Zb' as [sb' Hb'].
    right. split; apply is_zero_spec; rewrite add_spec, ?Ha, ?Ha', ?Hb, ?Hb';
      unfold SF64add, SFadd.
    + destruct sa, sb; eexists; reflexivity.
    + destruct sa', sb'; eexists; reflexivity.
Qed.

Lemma upToZeroSign_mul (a a' k : float) :
  upToZeroSign a a' -> upToZeroSign (a * k) (a' * k).
Proof.
  intros [->|[Za Za']]; [now left|].
  apply is_zero_spec in Za as [s Ha], Za' as [s' Ha'].
  destruct (Prim2SF k) as [sk|sk| |sk mk ek] eqn:Hk.
  - right. split; apply is_zero_spec; rewrite mul_spec, Hk, ?Ha, ?Ha';
      eexists; reflexivity.
  - left. apply Prim2SF_inj. now rewrite !mul_spec, Ha, Ha', Hk.
  - left. apply Prim2SF_inj. now rewrite !mul_spec, Ha, Ha', Hk.
  - right. split; apply is_zero_spec; rewrite mul_spec, Hk, ?Ha, ?Ha';
      eexists; reflexivity.
Qed.

Lemma moduleSubtotal_fold (tab : TradesTab.Local)
      (es : list ElementWithValues) :
  (forall e, In e es -> is_nan (material_cost e) = false
                        /\ is_nan (labor_cost e) = false) ->
  forall acc acc',
    upToZeroSign acc acc' ->
    upToZeroSign
      (fold_left
         (fun total element =>
            (total + ((orNumber (material_cost element) 0
                       + orNumber (labor_cost element) 0)
                      * (1 + (if TradesTab.useGlobalMarkup tab
                              then TradesTab.globalMarkup tab
                              else orNumber (markup element) 10) / 100)))%float)
         es acc)
      (fold_left
         (fun total element =>
            (total + ((material_cost element + labor_cost element)
                      * (1 + (if TradesTab.useGlobalMarkup tab
                              then TradesTab.globalMarkup tab
                              else orNumber (markup element) 10) / 100)))%float)
         es acc').
Proof.
  induction es as [|e es IH]; intros H acc acc' A; [exact A|].
  cbn [fold_left]. apply IH; [intros x Hx; apply H; now right|].
  destruct (H e (or_introl eq_refl)) as [Nm Nl].
  apply upToZeroSign_add; [exact A|].
  apply upToZeroSign_mul.
  apply upToZeroSign_add; now apply upToZeroSign_orNumber.
Qed.


Section SubtotalFacts.

Context {host : Host}.

(** X19.  When no cost is NaN, the subtotal of a module is, up to the
    sign of a zero, the grand total computed on the elements of that
    module, and the total shown when every element belongs to it. *)
Theorem moduleSubtotal_matches_total
        (st : State) (tab : TradesTab.Local) (m : TradeModule) :
  noNaNCost st ->
  upToZeroSign
    (TradesTab.moduleSubtotal tab (TradesTab.moduleElements st m))
    (calculateTotalCost (TradesTab.moduleElements st m)
                        (TradesTab.useGlobalMarkup tab)
                        (TradesTab.globalMarkup tab))
  /\ ((forall e, In e (selectedElements st) ->
                 module_id (module e) = module_id m) ->
      upToZeroSign
        (TradesTab.moduleSubtotal tab (TradesTab.moduleElements st m))
        (TradesTab.shownTotal st tab)).
Proof.
  intro H.
  assert (A : forall es, (forall e, In e es -> In e (selectedElements st)) ->
              upToZeroSign (TradesTab.moduleSubtotal tab es)
                (calculateTotalCost es (TradesTab.useGlobalMarkup tab)
                                    (TradesTab.globalMarkup tab))).
  { intros es I. unfold TradesTab.moduleSubtotal, calculateTotalCost.
    apply moduleSubtotal_fold; [|now left].
    intros e He. apply H. now apply I. }
  split.
  - apply A. intros e He. unfold TradesTab.moduleElements in He.
    now apply filter_In in He.
  - intro All. unfold TradesTab.shownTotal.
    assert (E : TradesTab.moduleElements st m = selectedElements st).
    { unfold TradesTab.moduleElements. apply filter_none.
      intros e He. apply Z.eqb_eq. now apply All. }
    rewrite E. apply A. auto.
Qed.

End SubtotalFacts.

Lemma find_filter_out {A} (p : A -> bool) (l : list A) :
  find p (filter (fun x => negb (p x)) l) = None.
Proof.
  induction l as [|a l IH]; [reflexivity|]. cbn [filter].
  destruct (p a) eqn:E; cbn [negb]; [exact IH|].
  cbn [find]. now rewrite E.
Qed.

Lemma calculateTotalCost_override (es es' : list ElementWithValues)
      (percentage : float) :
  map bareCosts es = map bareCosts es' ->
  calculateTotalCost es true percentage
  = calculateTotalCost es' true percentage.
Proof.
  unfold calculateTotalCost. generalize 0%float.
  revert es'. induction es as [|e es IH]; intros [|e' es'] acc H;
    try discriminate; [reflexivity|].
  cbn [map] in H. unfold bareCosts at 1 2 in H.
  injection H as Hm Hl Ht. cbn [fold_left].
  rewrite Hm, Hl. now apply IH.
Qed.

Section MoreToggles.

Context {host : Host}.

(** X21.  Of two parameters with one name the first is the one that
    counts: under the conditions of the whole-token substitution, a
    parameter appended after one of the same name changes nothing of what
    the call does and returns. *)
Theorem evaluateFormula_first_name_wins
        (f : text) (ps : list Param) (q : Param) :
  Forall (fun p => wordName (param_name p)) (ps ++ [q]) ->
  selfContained (ps ++ [q]) ->
  In (param_name q) (map param_name ps) ->
  evaluateFormula_run (Str f) (ps ++ [q]) = evaluateFormula_run (Str f) ps
  /\ evaluateFormula (Str f) (ps ++ [q]) = evaluateFormula (Str f) ps.
Proof.
  intros Hw Hs Hq.
  assert (I : forall x, In x ps -> In x (ps ++ [q])).
  { intros x Hx. apply in_or_app. now left. }
  assert (Hw' : Forall (fun p => wordName (param_name p)) ps).
  { now apply Forall_app in Hw. }
  assert (Hs' : selfContained ps).
  { intros p Hp. destruct (Hs p (I p Hp)) as [A B]. split; [exact A|].
    intros r Hr. apply B. now apply I. }
  assert (L : forall t, lookup (ps ++ [q]) t = lookup ps t).
  { intro t. unfold lookup. rewrite find_append.
    destruct (find _ ps) as [p|] eqn:F; [reflexivity|].
    cbn [find]. destruct (text_eqb t (param_name q)) eqn:E; [|reflexivity].
    exfalso. apply text_eqb_eq in E. subst t.
    apply in_map_iff in Hq as (p & Ep & Hp).
    apply (find_none _ _ F) in Hp. rewrite Ep in Hp.
    unfold text_eqb in Hp.
    now destruct (text_eq_dec (param_name q) (param_name q)). }
  assert (S : substituteParameters f (ps ++ [q]) = substituteParameters f ps).
  { rewrite (substituteParameters_simultaneous f Hw Hs).
    rewrite (substituteParameters_simultaneous f Hw' Hs').
    unfold substituteTokens. do 2 f_equal. apply map_ext. intro t.
    unfold replaced. now rewrite L. }
  assert (E : evaluateFormula_run (Str f) (ps ++ [q])
              = evaluateFormula_run (Str f) ps).
  { unfold evaluateFormula_run, tryBlock. now rewrite S. }
  split; [exact E|]. unfold evaluateFormula. now rewrite E.
Qed.

(** X22.  Toggling a selected module off and on again is no round trip:
    the module comes back as the last selected one, and the priced elements
    of its id are gone. *)
Theorem handleModuleToggle_off_on (st : State) (m : TradeModule) :
  In (module_id m) (map module_id (selectedModules st)) ->
  let st2 := handleModuleToggle (handleModuleToggle st m) m in
  selectedModules st2
  = filter (fun x => negb (module_id x =? module_id m)%Z)
           (selectedModules st) ++ [m]
  /\ selectedElements st2
     = filter (fun el => negb (module_id (module el) =? module_id m)%Z)
              (selectedElements st)
  /\ selectedParameters st2 = selectedParameters st
  /\ customModules st2 = customModules st.
Proof.
  intros H st2. subst st2.
  assert (F : exists x, find (fun x => (module_id x =? module_id m)%Z)
                             (selectedModules st) = Some x).
  { destruct (find _ (selectedModules st)) as [x|] eqn:F; [now exists x|].
    apply in_map_iff in H as (x & E & Hx).
    apply (find_none _ _ F) in Hx. apply Z.eqb_neq in Hx. contradiction. }
  destruct F as [x F].
  assert (E1 : handleModuleToggle st m
               = setSelectedModules
                   (setSelectedElements st
                      (filter (fun el =>
                                 negb (module_id (module el)
                                       =? module_id m)%Z)
                              (selectedElements st)))
                   (filter (fun x => negb (module_id x =? module_id m)%Z)
                           (selectedModules st))).
  { unfold handleModuleToggle. now rewrite F. }
  rewrite E1. unfold handleModuleToggle.
  cbn [selectedModules setSelectedModules setSelectedElements].
  rewrite (find_filter_out (fun x => (module_id x =? module_id m)%Z)).
  repeat split.
Qed.

(** X23.  Toggling a selected parameter off and on again puts the
    parameter given, with its own value, after the others, and the costs
    are those of a recalculation against that list. *)
Theorem handleParameterToggle_off_on (st : State) (p : Param) :
  In (param_id p) (map param_id (selectedParameters st)) ->
  let st2 := handleParameterToggle (handleParameterToggle st p) p in
  selectedParameters st2
  = filter (fun q => negb (param_id q =? param_id p)%Z)
           (selectedParameters st) ++ [p]
  /\ selectedElements st2
     = calculateElementCosts (selectedElements st) (selectedParameters st2)
  /\ selectedModules st2 = selectedModules st.
Proof.
  intros H st2. subst st2.
  assert (F : exists x, find (fun q => (param_id q =? param_id p)%Z)
                             (selectedParameters st) = Some x).
  { destruct (find _ (selectedParameters st)) as [x|] eqn:F; [now exists x|].
    apply in_map_iff in H as (x & E & Hx).
    apply (find_none _ _ F) in Hx. apply Z.eqb_neq in Hx. contradiction. }
  destruct F as [x F].
  assert (E1 : handleParameterToggle st p
               = setSelectedParameters
                   (setSelectedElements st
                      (calculateElementCosts (selectedElements st)
                         (filter (fun q => negb (param_id q =? param_id p)%Z)
                                 (selectedParameters st))))
                   (filter (fun q => negb (param_id q =? param_id p)%Z)
                           (selectedParameters st))).
  { unfold handleParameterToggle. now rewrite F. }
  rewrite E1. unfold handleParameterToggle.
  cbn [selectedParameters selectedElements setSelectedParameters
       setSelectedElements].
  rewrite (find_filter_out (fun q => (param_id q =? param_id p)%Z)).
  cbn [selectedParameters selectedElements selectedModules
       setSelectedParameters setSelectedElements].
  split; [reflexivity|]. split; [|reflexivity].
  unfold calculateElementCosts. rewrite map_map. reflexivity.
Qed.

End MoreToggles.

(** X24.  A click on a step of the wizard moves to that step when it is
    at most one step ahead of the current one and does nothing otherwise,
    so a click never moves more than one step forward; the current index
    is between -1 (an unknown tab) and 2. *)
Theorem stepClick_never_skips (activeTab : text) (index : nat) (step : text) :
  nth_error tabSteps index = Some step ->
  (currentStepIndex (stepClick activeTab index step)
   <= currentStepIndex activeTab + 1)%Z
  /\ ((Z.of_nat index <= currentStepIndex activeTab + 1)%Z ->
      stepClick activeTab index step = step
      /\ currentStepIndex (stepClick activeTab index step) = Z.of_nat index)
  /\ ((currentStepIndex activeTab + 1 < Z.of_nat index)%Z ->
      stepClick activeTab index step = activeTab)
  /\ (-1 <= currentStepIndex activeTab <= 2)%Z.
Proof.
  intro H.
  assert (B : (-1 <= currentStepIndex activeTab <= 2)%Z).
  { unfold currentStepIndex, indexOf, tabSteps. cbn [indexOfFrom].
    repeat match goal with
           | |- context [if ?c then _ else _] => destruct c
           end; lia. }
  assert (S : currentStepIndex step = Z.of_nat index).
  { destruct index as [|[|[|index]]]; cbn in H;
      try (injection H as <-; reflexivity).
    destruct index; discriminate H. }
  unfold stepClick.
  destruct (Z.of_nat index <=? currentStepIndex activeTab + 1)%Z eqn:E.
  - apply Z.leb_le in E. split; [rewrite S; exact E|].
    split; [intros _; split; [reflexivity|exact S]|]. split; [lia|exact B].
  - apply Z.leb_gt in E. split; [lia|]. split; [lia|].
    split; [reflexivity|exact B].
Qed.

Section MarkupUnderOverride.

Context {host : Host}.

(** X25.  Under the global override a markup edit leaves the total shown
    as it is, whatever the text entered. *)
Theorem handleMarkupChange_under_override
        (st : State) (tab : TradesTab.Local) (i j : Z) (value : text) :
  TradesTab.useGlobalMarkup tab = true ->
  TradesTab.shownTotal (fst (TradesTab.handleMarkupChange st tab i j value))
                       (snd (TradesTab.handleMarkupChange st tab i j value))
  = TradesTab.shownTotal st tab.
Proof.
  intro U. unfold TradesTab.handleMarkupChange, TradesTab.shownTotal.
  cbn [fst snd TradesTab.setEditingMarkup TradesTab.useGlobalMarkup
       TradesTab.globalMarkup].
  rewrite U. destruct (negb (is_nan (parseFloat value))); [|reflexivity].
  apply calculateTotalCost_override.
  unfold handleElementValueUpdate.
  change (text_eqb (chars "markup") (chars "formula")) with false.
  change (text_eqb (chars "markup") (chars "labor_formula")) with false.
  cbn [orb selectedElements setSelectedElements].
  rewrite map_map. apply map_ext. intro e.
  now destruct (samePair i (module_id (moduleOfId j)) e).
Qed.

End MarkupUnderOverride.

(* ------------------------------------------------------------------ *)
(** ** The properties on the concrete session *)

Lemma session_noNaNCost : noNaNCost session.
Proof.
  intros e He. vm_compute in He.
  destruct He as [<-|[<-|[<-|[]]]]; split; vm_compute; reflexivity.
Qed.

Lemma session_uniqueIds : uniqueIds session.
Proof.
  repeat split; vm_compute;
    repeat (constructor; [simpl; intuition discriminate|]); constructor.
Qed.

Lemma parameterB_fresh :
  ~ In (param_id parameterB) (map param_id (selectedParameters session)).
Proof. intros [H|[]]. discriminate H. Qed.

Lemma moduleC_fresh :
  ~ In (module_id moduleC) (map module_id (selectedModules session)).
Proof. intros [H|[H|[]]]; discriminate H. Qed.

Lemma session_with_parameterB :
  selectedParameters session ++ [parameterB]
  = [parameter "a" (NumberValue 2); parameterB].
Proof. reflexivity. Qed.

Lemma evaluateFormula_blank_witness :
  let ps := [parameter "a" (NumberValue 2)] in
  Forall (fun p => wordName (param_name p)) ps
  /\ forallb Arith.isBlank (chars "  ") = true
  /\ @evaluateFormula_run rejectingHost (Str (chars "  ")) ps
     = ([Evaluate (chars "  ")], Normal 0%float).
Proof.
  intro ps.
  assert (Hn : Forall (fun p => wordName (param_name p)) ps)
    by (repeat constructor; discriminate).
  assert (Hf : chars "  " <> []) by discriminate.
  assert (Hb : forallb Arith.isBlank (chars "  ") = true) by reflexivity.
  split; [exact Hn|]. split; [exact Hb|].
  exact (proj1 (@evaluateFormula_blank rejectingHost (chars "  ") ps
                  Hn Hf Hb)).
Defined.

Lemma evaluateFormula_mentioned_parameters_witness :
  let ps := [parameter "length" (NumberValue 5);
             parameter "width" (NumberValue 3)] in
  Forall (fun p => wordName (param_name p)) ps
  /\ selfContained ps
  /\ filter (mentions (chars "length * 2")) ps
     = [parameter "length" (NumberValue 5)]
  /\ @evaluateFormula rejectingHost (Str (chars "length * 2")) ps
     = @evaluateFormula rejectingHost (Str (chars "length * 2"))
         [parameter "length" (NumberValue 5)].
Proof.
  intro ps.
  assert (Hw : Forall (fun p => wordName (param_name p)) ps)
    by (repeat constructor; discriminate).
  assert (Hs : selfContained ps)
    by (apply finite_selfContained; repeat constructor).
  split; [exact Hw|]. split; [exact Hs|]. split; [reflexivity|].
  exact (proj2 (@evaluateFormula_mentioned_parameters rejectingHost
                  (chars "length * 2") ps Hw Hs)).
Defined.

Lemma evaluateFormula_reads_value_text_witness :
  let typed := [parameter "a" (StringValue (chars "2"))] in
  let number := [parameter "a" (NumberValue 2)] in
  map nameAndText typed = map nameAndText number
  /\ @evaluateFormula rejectingHost (Str (chars "a * 2")) typed
     = @evaluateFormula rejectingHost (Str (chars "a * 2")) number.
Proof.
  intros typed number.
  assert (H : map nameAndText typed = map nameAndText number)
    by reflexivity.
  split; [exact H|].
  exact (proj1 (proj2 (@evaluateFormula_reads_value_text rejectingHost
                         (Str (chars "a * 2")) typed number H))).
Defined.

Lemma evaluateFormula_never_nan_witness :
  let ps := [parameter "x" (NumberValue 0)] in
  is_nan (@evaluateFormula rejectingHost (Str (chars "x / x")) ps) = false
  /\ @evaluateFormula rejectingHost (Str (chars "x / x")) ps = 0%float.
Proof.
  intro ps. split; [|vm_compute; reflexivity].
  refine (proj1 (@evaluateFormula_never_nan rejectingHost
                   (Str (chars "x / x")) ps _)).
  intros s t [= <-] S _.
  assert (T : Normal t = Normal (chars "0 / 0"))
    by (rewrite <- S; vm_compute; reflexivity).
  injection T as ->. vm_compute. discriminate.
Defined.

Lemma handleParameterToggle_round_trip_witness :
  ~ In (param_id parameterB) (map param_id (selectedParameters session))
  /\ selectedParameters
       (handleParameterToggle (host := rejectingHost) session parameterB)
     = selectedParameters session ++ [parameterB]
  /\ selectedParameters
       (handleParameterToggle (host := rejectingHost)
          (handleParameterToggle (host := rejectingHost) session parameterB)
          parameterB)
     = selectedParameters session.
Proof.
  split; [exact parameterB_fresh|].
  destruct (@handleParameterToggle_round_trip rejectingHost session
              parameterB parameterB_fresh) as (A & B & _).
  split; [exact A|]. now rewrite B.
Defined.

Lemma handleParameterToggle_unmentioned_witness :
  ~ In (param_id parameterB) (map param_id (selectedParameters session))
  /\ selfContained (selectedParameters session ++ [parameterB])
  /\ map costsOf
       (selectedElements
          (handleParameterToggle (host := rejectingHost) session parameterB))
     = map costsOf (selectedElements session).
Proof.
  assert (Hi : Forall (fun q => identifierName (param_name q))
                      (selectedParameters session ++ [parameterB])).
  { rewrite session_with_parameterB. repeat constructor. }
  assert (Hw : Forall (fun q => wordName (param_name q))
                      (selectedParameters session ++ [parameterB])).
  { rewrite session_with_parameterB. repeat constructor; discriminate. }
  assert (Hs : selfContained (selectedParameters session ++ [parameterB])).
  { apply finite_selfContained; [exact Hi|].
    rewrite session_with_parameterB. repeat constructor. }
  assert (Hm : forall e, In e (selectedElements session) ->
                 mentions (materialFormula e) parameterB = false
                 /\ mentions (laborFormula e) parameterB = false).
  { intros e He. vm_compute in He.
    destruct He as [<-|[<-|[<-|[]]]]; split; reflexivity. }
  split; [exact parameterB_fresh|]. split; [exact Hs|].
  exact (proj1 (@handleParameterToggle_unmentioned rejectingHost session
                  parameterB parameterB_fresh Hw Hs Hm
                  session_costsFollowFormulas)).
Defined.

Lemma handleModuleToggle_round_trip_witness :
  ~ In (module_id moduleC) (map module_id (selectedModules session))
  /\ selectedModules (handleModuleToggle session moduleC)
     = [moduleA; moduleB; moduleC]
  /\ handleModuleToggle (handleModuleToggle session moduleC) moduleC
     = session.
Proof.
  split; [exact moduleC_fresh|].
  destruct (handleModuleToggle_round_trip session moduleC moduleC_fresh)
    as (A & _ & C).
  split; [now rewrite A|]. apply C.
  intros el He. vm_compute in He.
  destruct He as [<-|[<-|[<-|[]]]]; intro N; discriminate N.
Defined.

Lemma handleAddCustomModule_twice_witness :
  ~ In (module_id moduleC) (map module_id (selectedModules session))
  /\ ~ In (module_id moduleC) (map module_id (customModules session))
  /\ filteredModules
       (selectedModules (handleAddCustomModule session moduleC))
       (customModules (handleAddCustomModule session moduleC))
     = [moduleA; moduleB; moduleC; moduleC]
  /\ selectedModules
       (handleAddCustomModule (handleAddCustomModule session moduleC)
                              moduleC)
     = [moduleA; moduleB].
Proof.
  assert (Hc : ~ In (module_id moduleC)
                    (map module_id (customModules session)))
    by (intros []).
  split; [exact moduleC_fresh|]. split; [exact Hc|].
  destruct (handleAddCustomModule_twice session moduleC moduleC_fresh Hc)
    as (_ & _ & _ & F & S & _).
  split; [now rewrite F|now rewrite S].
Defined.

Lemma uniqueIds_preserved_witness :
  bringsUniqueIds (TemplateSelect repeatingTemplate)
  /\ uniqueIds session
  /\ uniqueIds (perform (host := rejectingHost) session
                        (TemplateSelect repeatingTemplate)).
Proof.
  assert (B : bringsUniqueIds (TemplateSelect repeatingTemplate)).
  { split; repeat (constructor; [simpl; intuition discriminate|]);
      constructor. }
  split; [exact B|]. split; [exact session_uniqueIds|].
  exact (proj1 (@uniqueIds_preserved rejectingHost session
                  (TemplateSelect repeatingTemplate) B session_uniqueIds)).
Defined.

Lemma handleElementToggle_adds_term_witness :
  find (samePair (element_id (elementOf 4 "a * 3")) (module_id moduleB))
       (selectedElements session) = None
  /\ calculateTotalCost (selectedElements session) false 0 = 16.5%float
  /\ calculateTotalCost
       (selectedElements
          (handleElementToggle (host := rejectingHost) session 1004
                               (elementOf 4 "a * 3") moduleB))
       false 0
     = (16.5 + (6 + 2) * (1 + 10 / 100))%float.
Proof.
  assert (F : find (samePair (element_id (elementOf 4 "a * 3"))
                             (module_id moduleB))
                   (selectedElements session) = None) by reflexivity.
  split; [exact F|]. split; [vm_compute; reflexivity|].
  rewrite (@handleElementToggle_adds_term rejectingHost session 1004
             (elementOf 4 "a * 3") moduleB false 0%float F).
  vm_compute. reflexivity.
Defined.

Lemma moduleSubtotal_matches_total_witness :
  noNaNCost session
  /\ upToZeroSign
       (TradesTab.moduleSubtotal (mounted session)
          (TradesTab.moduleElements session moduleA))
       (calculateTotalCost (TradesTab.moduleElements session moduleA)
                           false 10).
Proof.
  split; [exact session_noNaNCost|].
  exact (proj1 (moduleSubtotal_matches_total session (mounted session)
                  moduleA session_noNaNCost)).
Defined.

Lemma evaluateFormula_first_name_wins_witness :
  let ps := [parameter "a" (NumberValue 2)] in
  let q := parameter "a" (NumberValue 9) in
  selfContained (ps ++ [q])
  /\ In (param_name q) (map param_name ps)
  /\ @evaluateFormula rejectingHost (Str (chars "a * 2")) (ps ++ [q])
     = @evaluateFormula rejectingHost (Str (chars "a * 2")) ps.
Proof.
  intros ps q.
  assert (Hw : Forall (fun p => wordName (param_name p)) (ps ++ [q]))
    by (repeat constructor; discriminate).
  assert (Hs : selfContained (ps ++ [q]))
    by (apply finite_selfContained; repeat constructor).
  assert (Hq : In (param_name q) (map param_name ps)) by (left; reflexivity).
  split; [exact Hs|]. split; [exact Hq|].
  exact (proj2 (@evaluateFormula_first_name_wins rejectingHost
                  (chars "a * 2") ps q Hw Hs Hq)).
Defined.

Lemma handleModuleToggle_off_on_witness :
  In (module_id moduleA) (map module_id (selectedModules session))
  /\ selectedModules
       (handleModuleToggle (handleModuleToggle session moduleA) moduleA)
     = [moduleB; moduleA]
  /\ map pairOf
       (selectedElements
          (handleModuleToggle (handleModuleToggle session moduleA) moduleA))
     = [(3, 2)]%Z.
Proof.
  assert (H : In (module_id moduleA)
                 (map module_id (selectedModules session)))
    by (left; reflexivity).
  split; [exact H|].
  destruct (handleModuleToggle_off_on session moduleA H) as (A & B & _).
  split; [now rewrite A|now rewrite B].
Defined.

Lemma handleParameterToggle_off_on_witness :
  let p := parameter "a" (NumberValue 3) in
  In (param_id p) (map param_id (selectedParameters session))
  /\ selectedParameters
       (handleParameterToggle (host := rejectingHost)
          (handleParameterToggle (host := rejectingHost) session p) p)
     = [p].
Proof.
  intro p.
  assert (H : In (param_id p) (map param_id (selectedParameters session)))
    by (left; reflexivity).
  split; [exact H|].
  destruct (@handleParameterToggle_off_on rejectingHost session p H)
    as (A & _).
  now rewrite A.
Defined.

Lemma stepClick_never_skips_witness :
  nth_error tabSteps 1 = Some (chars "details")
  /\ stepClick (chars "template") 1 (chars "details") = chars "details"
  /\ nth_error tabSteps 2 = Some (chars "trades")
  /\ stepClick (chars "template") 2 (chars "trades") = chars "template".
Proof.
  split; [reflexivity|]. split.
  - apply (stepClick_never_skips (chars "template") 1 (chars "details")
             eq_refl).
    vm_compute. discriminate.
  - split; [reflexivity|].
    apply (stepClick_never_skips (chars "template") 2 (chars "trades")
             eq_refl).
    vm_compute. reflexivity.
Defined.

Lemma handleMarkupChange_under_override_witness :
  let tab := TradesTab.syncProps (handleGlobalMarkupChange session true 20)
                                 (mounted session) in
  TradesTab.useGlobalMarkup tab = true
  /\ TradesTab.shownTotal
       (fst (TradesTab.handleMarkupChange (host := rejectingHost)
               session tab 1 1 (chars "15")))
       (snd (TradesTab.handleMarkupChange (host := rejectingHost)
               session tab 1 1 (chars "15")))
     = TradesTab.shownTotal session tab.
Proof.
  intro tab. split; [reflexivity|].
  exact (@handleMarkupChange_under_override rejectingHost session tab 1 1
           (chars "15") eq_refl).
Defined.

Set Implicit Arguments.
